(** * Track-based alignment (Acts core engine and the ACTFW driver)

    A shallow embedding of
      - [Acts::detail::trackAlignmentState]
        (Core/include/Acts/Alignment/detail/AlignmentEngine.hpp), and
      - [FW::Alignment::evaluateTrackAlignmentState],
        [FW::Alignment::updateAlignmentParameters] and [FW::Alignment::align]
        (Examples/Algorithms/Alignment/include/ACTFW/Alignment/Alignment.hpp),
      - [FW::AlignmentAlgorithm], its constructor and [execute]
        (Examples/Algorithms/Alignment/src/AlignmentAlgorithm.cpp),
    followed by the properties of the alignment specification that were
    checked against them, and by further properties of the code.

    Conventions.
      - [size_t] and [unsigned int] counters are [nat]: they count states,
        tracks, elements and iterations, far below their wrap-around; every
        subtraction of the source is preceded by enough additions, so
        truncation never shows.
      - [double] is an interface ([Scalar]) with two instances: IEEE
        binary64 ([float]) and exact rationals ([Qc]).  Matrix code is
        written once over the interface, with the order of the operations
        written out; the few laws a statement needs ([ScalarLaws]) are
        proved for both instances.
      - Eigen's dense matrices are a pair of dimensions and a coefficient
        function; its [inverse()] and [fullPivLu().solve()] and the fitter
        are collaborators outside this code and enter as parameters.
      - A block or segment whose position comes from data may reach
        outside its matrix or vector, which Eigen leaves undefined; an
        [unordered_map] is iterated in an order the library chooses.
        Neither is decided here: the first ends a call without a result,
        the second is a parameter. *)

From Stdlib Require Import ZArith Floats QArith Qcanon Lia Bool.
From Stdlib Require Strings.String.
From stdpp Require Import gmap list.

(* ================================================================== *)
(** * Scalars *)
(* ================================================================== *)

(** What the alignment code asks of [double]. *)
Class Scalar (F : Type) := {
  szero : F;
  sadd : F → F → F;
  ssub : F → F → F;
  smul : F → F → F;
  sdiv : F → F → F;
  sneg : F → F;
  sabs : F → F;
  (** [a <= b]; on IEEE doubles it is [false] as soon as one side is NaN *)
  sleb : F → F → bool;
  sisnan : F → bool;
  (** conversion [size_t -> double] *)
  of_size : nat → F;
  (** the literals [2] and [0.5] *)
  stwo : F;
  shalf : F;
  (** [std::numeric_limits<double>::max()] *)
  smax : F;
}.

(** IEEE 754 binary64, the arithmetic the program runs on. *)
#[global] Instance float_Scalar : Scalar float := {|
  szero := 0%float;
  sadd := PrimFloat.add;
  ssub := PrimFloat.sub;
  smul := PrimFloat.mul;
  sdiv := PrimFloat.div;
  sneg := PrimFloat.opp;
  sabs := PrimFloat.abs;
  sleb := PrimFloat.leb;
  sisnan := PrimFloat.is_nan;
  of_size := fun n => PrimFloat.of_uint63 (Uint63.of_Z (Z.of_nat n));
  stwo := 2%float;
  shalf := 0.5%float;
  smax := 0x1.fffffffffffffp+1023%float;
|}.

Definition Qc_leb (a b : Qc) : bool :=
  match (a ?= b)%Qc with Gt => false | _ => true end.

Definition Qc_abs (a : Qc) : Qc := if Qc_leb 0%Qc a then a else (- a)%Qc.

(** Exact rational arithmetic: no rounding, no NaN. *)
#[global] Instance Qc_Scalar : Scalar Qc := {|
  szero := 0%Qc;
  sadd := Qcplus;
  ssub := Qcminus;
  smul := Qcmult;
  sdiv := Qcdiv;
  sneg := Qcopp;
  sabs := Qc_abs;
  sleb := Qc_leb;
  sisnan := fun _ => false;
  of_size := fun n => Q2Qc (inject_Z (Z.of_nat n));
  stwo := Q2Qc 2;
  shalf := Q2Qc (1 # 2);
  smax := Q2Qc (inject_Z (2 ^ 1024 - 2 ^ 971));
|}.

(** Which scalars are the same number and which are finite, with the laws
    of zero and of negation used below.  On IEEE doubles the two zeros are
    the same number, and NaN and the infinities are not finite: a product
    with zero is a zero only when the other factor is finite.  In exact
    arithmetic the same number is the same value and every value is
    finite. *)
Class ScalarLaws (F : Type) `{Scalar F} := {
  same : F → F → Prop;
  finite : F → Prop;
  same_refl : ∀ x, same x x;
  same_sym : ∀ x y, same x y → same y x;
  same_trans : ∀ x y z, same x y → same y z → same x z;
  finite_zero : ∀ z, same z szero → finite z;
  finite_two : finite stwo;
  smul_zero_l : ∀ z x, same z szero → finite x → same (smul z x) szero;
  smul_zero_r : ∀ x z, finite x → same z szero → same (smul x z) szero;
  sadd_zero : ∀ z z', same z szero → same z' szero → same (sadd z z') szero;
  sadd_zero_r : ∀ x z, same z szero → same (sadd x z) x;
  sadd_same_l : ∀ x x' y, same x x' → same (sadd x y) (sadd x' y);
  sneg_same : ∀ x x', same x x' → same (sneg x) (sneg x');
  sneg_zero : same (sneg szero) szero;
  smul_neg_r : ∀ x y, smul x (sneg y) = sneg (smul x y);
  sadd_neg : ∀ x y, same (sadd (sneg x) (sneg y)) (sneg (sadd x y));
}.

(* ================================================================== *)
(** * Dense vectors and matrices (Eigen) *)
(* ================================================================== *)

Section Eigen.
Context {F : Type} `{Scalar F}.

(** [ActsVectorX]: a size and the coefficients.  Reading or writing
    outside the dimensions is undefined in Eigen (an assertion in a debug
    build).  The blocks whose position is a running counter of the code
    lie inside by construction; those whose position is read from a map
    go through the guarded accesses [blockAt], [segmentAt], [addBlockAt]
    and [addSegmentAt] below. *)
Record Vector := { vsize : nat; vcoeff : nat → F }.

(** [ActsMatrixX]. *)
Record Matrix := { rows : nat; cols : nat; coeff : nat → nat → F }.

(** A default-constructed dynamic matrix or vector has no coefficient. *)
Definition emptyVector : Vector := {| vsize := 0; vcoeff := fun _ => szero |}.
Definition emptyMatrix : Matrix :=
  {| rows := 0; cols := 0; coeff := fun _ _ => szero |}.

(** [ActsVectorX::Zero(n)], [ActsMatrixX::Zero(r, c)] *)
Definition vzero (n : nat) : Vector := {| vsize := n; vcoeff := fun _ => szero |}.
Definition mzero (r c : nat) : Matrix :=
  {| rows := r; cols := c; coeff := fun _ _ => szero |}.

(** Sum of [f 0 .. f (n-1)], accumulated from zero in index order. *)
Fixpoint ssum (n : nat) (f : nat → F) : F :=
  match n with
  | 0 => szero
  | S k => sadd (ssum k f) (f k)
  end.

Definition inRange (lo len i : nat) : bool := (lo <=? i) && (i <? lo + len).

(** [m.block(r, c, h, w) = src] (also [src.topLeftCorner(h, w)] on the right) *)
Definition setBlock (m : Matrix) (r c h w : nat) (src : Matrix) : Matrix :=
  {| rows := rows m; cols := cols m;
     coeff := fun i j =>
       if inRange r h i && inRange c w j then coeff src (i - r) (j - c)
       else coeff m i j |}.

(** [m.block(r, c, h, w)] read as a matrix of its own *)
Definition block (m : Matrix) (r c h w : nat) : Matrix :=
  {| rows := h; cols := w; coeff := fun i j => coeff m (r + i) (c + j) |}.

(** [m.block(r, c, h, w) += src.block(sr, sc, h, w)] *)
Definition addBlock (m : Matrix) (r c h w : nat) (src : Matrix) (sr sc : nat)
  : Matrix :=
  {| rows := rows m; cols := cols m;
     coeff := fun i j =>
       if inRange r h i && inRange c w j
       then sadd (coeff m i j) (coeff src (sr + (i - r)) (sc + (j - c)))
       else coeff m i j |}.

(** [v.segment(p, n) = src] *)
Definition setSegment (v : Vector) (p n : nat) (src : Vector) : Vector :=
  {| vsize := vsize v;
     vcoeff := fun i => if inRange p n i then vcoeff src (i - p) else vcoeff v i |}.

(** [v.segment(p, n)] read as a vector of its own; [v.head(n)] is [segment v 0 n] *)
Definition segment (v : Vector) (p n : nat) : Vector :=
  {| vsize := n; vcoeff := fun i => vcoeff v (p + i) |}.

(** [v.segment(p, n) += src.segment(sp, n)] *)
Definition addSegment (v : Vector) (p n : nat) (src : Vector) (sp : nat) : Vector :=
  {| vsize := vsize v;
     vcoeff := fun i =>
       if inRange p n i then sadd (vcoeff v i) (vcoeff src (sp + (i - p)))
       else vcoeff v i |}.

(** Does the [h x w] block at [(r, c)] lie inside [m], the segment of
    length [n] at [p] inside [v]? *)
Definition blockInside (m : Matrix) (r c h w : nat) : bool :=
  (r + h <=? rows m) && (c + w <=? cols m).
Definition segmentInside (v : Vector) (p n : nat) : bool := p + n <=? vsize v.

(** The accesses at a position that comes from data: [None] when a block
    or segment reaches outside, where Eigen defines no result. *)
Definition blockAt (m : Matrix) (r c h w : nat) : option Matrix :=
  if blockInside m r c h w then Some (block m r c h w) else None.

Definition segmentAt (v : Vector) (p n : nat) : option Vector :=
  if segmentInside v p n then Some (segment v p n) else None.

Definition addBlockAt (m : Matrix) (r c h w : nat) (src : Matrix) (sr sc : nat)
  : option Matrix :=
  if blockInside m r c h w && blockInside src sr sc h w
  then Some (addBlock m r c h w src sr sc) else None.

Definition addSegmentAt (v : Vector) (p n : nat) (src : Vector) (sp : nat)
  : option Vector :=
  if segmentInside v p n && segmentInside src sp n
  then Some (addSegment v p n src sp) else None.

Definition transpose (m : Matrix) : Matrix :=
  {| rows := cols m; cols := rows m; coeff := fun i j => coeff m j i |}.

(** [a * b] *)
Definition mmul (a b : Matrix) : Matrix :=
  {| rows := rows a; cols := cols b;
     coeff := fun i j => ssum (cols a) (fun k => smul (coeff a i k) (coeff b k j)) |}.

(** [a * v] *)
Definition mvmul (a : Matrix) (v : Vector) : Vector :=
  {| vsize := rows a;
     vcoeff := fun i => ssum (cols a) (fun k => smul (coeff a i k) (vcoeff v k)) |}.

(** [v.transpose() * a], kept as a vector *)
Definition vmmul (v : Vector) (a : Matrix) : Vector :=
  {| vsize := cols a;
     vcoeff := fun j => ssum (vsize v) (fun k => smul (vcoeff v k) (coeff a k j)) |}.

(** [u.transpose() * v] *)
Definition dot (u v : Vector) : F :=
  ssum (vsize u) (fun k => smul (vcoeff u k) (vcoeff v k)).

(** [s * a], [s * v] *)
Definition mscale (s : F) (a : Matrix) : Matrix :=
  {| rows := rows a; cols := cols a; coeff := fun i j => smul s (coeff a i j) |}.
Definition vscale (s : F) (v : Vector) : Vector :=
  {| vsize := vsize v; vcoeff := fun i => smul s (vcoeff v i) |}.

(** [a - b], [u - v], [u + v], [-v] *)
Definition msub (a b : Matrix) : Matrix :=
  {| rows := rows a; cols := cols a;
     coeff := fun i j => ssub (coeff a i j) (coeff b i j) |}.
Definition vsub (u v : Vector) : Vector :=
  {| vsize := vsize u; vcoeff := fun i => ssub (vcoeff u i) (vcoeff v i) |}.
Definition vadd (u v : Vector) : Vector :=
  {| vsize := vsize u; vcoeff := fun i => sadd (vcoeff u i) (vcoeff v i) |}.
Definition vneg (v : Vector) : Vector :=
  {| vsize := vsize v; vcoeff := fun i => sneg (vcoeff v i) |}.

Fixpoint anyBelow (n : nat) (p : nat → bool) : bool :=
  match n with
  | 0 => false
  | S k => anyBelow k p || p k
  end.

(** [m.hasNaN()] *)
Definition hasNaN (m : Matrix) : bool :=
  anyBelow (rows m) (fun i => anyBelow (cols m) (fun j => sisnan (coeff m i j))).

End Eigen.

Arguments Vector F : clear implicits.
Arguments Matrix F : clear implicits.

(* ================================================================== *)
(** * Acts core: the alignment state of one track *)
(* ================================================================== *)

(** Modelled from the spec: the sizes of the parameter blocks, which the
    source takes from Acts/Utilities/ParameterDefinitions.hpp and
    AlignmentDefinitions.hpp.  A bound track state has six parameters; an
    alignable surface has six alignment parameters, three for its centre
    followed by three rotations. *)
Definition eBoundParametersSize : nat := 6.
Definition eAlignmentParametersSize : nat := 6.
Definition eAlignmentCenter0 : nat := 0.
Definition eAlignmentRotation0 : nat := 3.

(** [const Surface*]: surfaces are compared by address. *)
Definition Surface : Type := nat.

Module detail.
Section Engine.
Context {F : Type} `{Scalar F}.

(** What [trackAlignmentState] reads of a track state proxy. *)
Record TrackState := {
  previous : option nat;
  hasSmoothed : bool;
  (** [typeFlags().test(TrackStateFlag::MeasurementFlag)] *)
  measurementFlag : bool;
  referenceSurface : Surface;
  calibratedSize : nat;
  calibrated : Vector F;
  calibratedCovariance : Matrix F;
  projector : Matrix F;
  filtered : Vector F;
}.

(** Modelled from the spec: [MultiTrajectory], an ordered store of track
    states, each naming its predecessor, traversable in reverse from an
    entry point.  A state's index is its position in the store. *)
Definition MultiTrajectory : Type := list TrackState.

Definition getTrackState (multiTraj : MultiTrajectory) (i : nat)
  : option TrackState := multiTraj !! i.

(** Modelled from the spec: [visitBackwards] calls back on the entry state
    and then on each predecessor in turn, until a state has none.  States
    are appended after their predecessor, so a walk visits at most as many
    states as the store holds; that bound is the fuel. *)
Fixpoint visitFrom (fuel : nat) (multiTraj : MultiTrajectory) (i : nat)
  : list (nat * TrackState) :=
  match fuel with
  | 0 => []
  | S fuel' =>
      match getTrackState multiTraj i with
      | None => []
      | Some ts =>
          (i, ts) :: match previous ts with
                     | None => []
                     | Some p => visitFrom fuel' multiTraj p
                     end
      end
  end.

Definition visitBackwards (multiTraj : MultiTrajectory) (entryIndex : nat)
  : list (nat * TrackState) :=
  visitFrom (length multiTraj) multiTraj entryIndex.

(** struct to store info needed for track-based alignment *)
Record TrackAlignmentState := {
  measurementCovariance : Matrix F;
  trackParametersCovariance : Matrix F;
  projectionMatrix : Matrix F;
  residual : Vector F;
  residualCovariance : Matrix F;
  chi2 : F;
  alignmentToResidualDerivative : Matrix F;
  alignmentToChi2Derivative : Vector F;
  alignmentToChi2SecondDerivative : Matrix F;
  (** surface -> (index in the global pool, index among this track's) *)
  alignedSurfaces : gmap Surface (nat * nat);
  measurementDim : nat;
  trackParametersDim : nat;
  alignmentDof : nat;
}.

(** The locals the visiting lambda of [trackAlignmentState] captures by
    reference, and the two fields of [alignState] it writes. *)
Record Census := {
  measurementStates : list (nat * bool);
  nSmoothedStates : nat;
  nAlignSurfaces : nat;
  censusSurfaces : gmap Surface (nat * nat);
  censusDim : nat;
}.

Definition census0 : Census :=
  {| measurementStates := []; nSmoothedStates := 0; nAlignSurfaces := 0;
     censusSurfaces := ∅; censusDim := 0 |}.

(** [m[k].first = v]: [operator[]] value-initialises a missing entry. *)
Definition setFirst (m : gmap Surface (nat * nat)) (k : Surface) (v : nat)
  : gmap Surface (nat * nat) :=
  <[k := (v, (default (0, 0) (m !! k)).2)]> m.

(** The body of the lambda given to [visitBackwards]; it always returns
    [true], so every state of the walk is visited. *)
Definition visitState (idxedAlignSurfaces : gmap Surface nat)
    (c : Census) (its : nat * TrackState) : Census :=
  let '(index, ts) := its in
  let nSmoothed :=
    if hasSmoothed ts then S (nSmoothedStates c) else nSmoothedStates c in
  if negb (measurementFlag ts) then
    {| measurementStates := measurementStates c;
       nSmoothedStates := nSmoothed;
       nAlignSurfaces := nAlignSurfaces c;
       censusSurfaces := censusSurfaces c;
       censusDim := censusDim c |}
  else
    let isAlignable := false in
    let surface := referenceSurface ts in
    let '(surfaces, nAlign) :=
      match idxedAlignSurfaces !! surface with
      | Some idx => (setFirst (censusSurfaces c) surface idx, S (nAlignSurfaces c))
      | None => (censusSurfaces c, nAlignSurfaces c)
      end in
    {| measurementStates := measurementStates c ++ [(index, isAlignable)];
       nSmoothedStates := nSmoothed;
       nAlignSurfaces := nAlign;
       censusSurfaces := surfaces;
       censusDim := censusDim c + calibratedSize ts |}.

Definition takeCensus (multiTraj : MultiTrajectory) (entryIndex : nat)
    (idxedAlignSurfaces : gmap Surface nat) : Census :=
  foldl (visitState idxedAlignSurfaces) census0
        (visitBackwards multiTraj entryIndex).

(** The running indices and the matrices under construction in the loop
    over the measurement states. *)
Record Fill := {
  iMeasurement : nat;
  iParams : nat;
  iSurface : nat;
  fillMeasurementCovariance : Matrix F;
  fillProjectionMatrix : Matrix F;
  fillResidual : Vector F;
  fillTrackParametersCovariance : Matrix F;
  fillSurfaces : gmap Surface (nat * nat);
}.

Definition topLeftCorner (m : Matrix F) (h w : nat) : Matrix F := block m 0 0 h w.

(** Step (e): the inner loop over the column states.  [None] stands for
    [std::out_of_range] thrown by [stateRowIndices.at], and for a block
    of the source covariance that reaches outside it. *)
Fixpoint fillCovarianceRow (sourceTrackParamsCov : Matrix F)
    (stateRowIndices : gmap nat nat) (trackParamsDim rowParams rowStateIndex : nat)
    (colStates : list (nat * bool)) (iColState : nat) (target : Matrix F)
  : option (Matrix F) :=
  match colStates with
  | [] => Some target
  | (colStateIndex, _) :: rest =>
      r ← stateRowIndices !! rowStateIndex;
      c ← stateRowIndices !! colStateIndex;
      correlation ← blockAt sourceTrackParamsCov r c
                      eBoundParametersSize eBoundParametersSize;
      let iCol := trackParamsDim - (iColState + 1) * eBoundParametersSize in
      fillCovarianceRow sourceTrackParamsCov stateRowIndices trackParamsDim
        rowParams rowStateIndex rest (S iColState)
        (setBlock target rowParams iCol eBoundParametersSize eBoundParametersSize
                  correlation)
  end.

(** One turn of the loop over the measurement states.  [None] stands for an
    exception leaving the function ([at] on a missing key), for a block
    read outside the source covariance, or for a state index that the
    trajectory does not hold.  The proxy stores the calibrated measurement,
    its covariance and the projector at their full size, so their top-left
    corners lie inside. *)
Definition fillState (multiTraj : MultiTrajectory)
    (sourceTrackParamsCov : Matrix F) (stateRowIndices : gmap nat nat)
    (trackParamsDim : nat) (allStates : list (nat * bool))
    (f : Fill) (entry : nat * bool) : option Fill :=
  let '(rowStateIndex, isAlignable) := entry in
  state ← getTrackState multiTraj rowStateIndex;
  let measdim := calibratedSize state in
  let iMeas := iMeasurement f - measdim in
  let iPar := iParams f - eBoundParametersSize in
  (* (a) the measurement covariance *)
  let measCovariance := topLeftCorner (calibratedCovariance state) measdim measdim in
  let measCov := setBlock (fillMeasurementCovariance f) iMeas iMeas measdim measdim
                          measCovariance in
  (* (b) the bound parameters to measurement projection *)
  let H := topLeftCorner (projector state) measdim eBoundParametersSize in
  let proj := setBlock (fillProjectionMatrix f) iMeas iPar measdim
                       eBoundParametersSize H in
  (* (c) the residual *)
  let res := setSegment (fillResidual f) iMeas measdim
               (vsub (segment (calibrated state) 0 measdim) (mvmul H (filtered state))) in
  (* (d) the index of the surface among those of this track *)
  '(iSurf, surfaces) ←
    (if isAlignable then
       let iS := iSurface f - 1 in
       entry ← fillSurfaces f !! referenceSurface state;
       Some (iS, <[referenceSurface state := (entry.1, iS)]> (fillSurfaces f))
     else Some (iSurface f, fillSurfaces f));
  (* (e) the track parameters covariance of the measurement states *)
  cov ← fillCovarianceRow sourceTrackParamsCov stateRowIndices trackParamsDim
          iPar rowStateIndex allStates 0 (fillTrackParametersCovariance f);
  Some {| iMeasurement := iMeas; iParams := iPar; iSurface := iSurf;
          fillMeasurementCovariance := measCov;
          fillProjectionMatrix := proj;
          fillResidual := res;
          fillTrackParametersCovariance := cov;
          fillSurfaces := surfaces |}.

Fixpoint fillStates (multiTraj : MultiTrajectory)
    (sourceTrackParamsCov : Matrix F) (stateRowIndices : gmap nat nat)
    (trackParamsDim : nat) (allStates : list (nat * bool))
    (f : Fill) (todo : list (nat * bool)) : option Fill :=
  match todo with
  | [] => Some f
  | entry :: rest =>
      f' ← fillState multiTraj sourceTrackParamsCov stateRowIndices
             trackParamsDim allStates f entry;
      fillStates multiTraj sourceTrackParamsCov stateRowIndices trackParamsDim
                 allStates f' rest
  end.

(** [2 * d.transpose() * Vinv * R * Vinv], the common left factor of the
    two chi2 derivatives, multiplied out from the left as C++ does. *)
Definition chi2DerivativeFactor (d Vinv R : Matrix F) : Matrix F :=
  mmul (mmul (mmul (mscale stwo (transpose d)) Vinv) R) Vinv.

(** Calculate the first and second derivative of chi2 w.r.t. alignment
    parameters for a single track.  [inverse] is Eigen's [inverse()].
    The result is [None] when the function has no result: an exception
    leaves it, or it reads outside the source covariance. *)
Definition trackAlignmentState (inverse : Matrix F → Matrix F)
    (multiTraj : MultiTrajectory) (entryIndex : nat)
    (globalTrackParamsCov : Matrix F * gmap nat nat)
    (idxedAlignSurfaces : gmap Surface nat) : option TrackAlignmentState :=
  let c := takeCensus multiTraj entryIndex idxedAlignSurfaces in
  (* Return now if the track contains no alignable surfaces *)
  if nAlignSurfaces c =? 0 then
    Some {| measurementCovariance := emptyMatrix;
            trackParametersCovariance := emptyMatrix;
            projectionMatrix := emptyMatrix;
            residual := emptyVector;
            residualCovariance := emptyMatrix;
            chi2 := szero;
            alignmentToResidualDerivative := emptyMatrix;
            alignmentToChi2Derivative := emptyVector;
            alignmentToChi2SecondDerivative := emptyMatrix;
            alignedSurfaces := censusSurfaces c;
            measurementDim := censusDim c;
            trackParametersDim := 0;
            alignmentDof := 0 |}
  else
    let dof := eAlignmentParametersSize * nAlignSurfaces c in
    let parDim := eBoundParametersSize * length (measurementStates c) in
    let dim := censusDim c in
    let '(sourceTrackParamsCov, stateRowIndices) := globalTrackParamsCov in
    let derivative := mzero dim dof in
    f ← fillStates multiTraj sourceTrackParamsCov stateRowIndices parDim
          (measurementStates c)
          {| iMeasurement := dim; iParams := parDim;
             iSurface := nAlignSurfaces c;
             fillMeasurementCovariance := mzero dim dim;
             fillProjectionMatrix := mzero dim parDim;
             fillResidual := vzero dim;
             fillTrackParametersCovariance := mzero parDim parDim;
             fillSurfaces := censusSurfaces c |}
          (measurementStates c);
    let V := fillMeasurementCovariance f in
    let P := fillProjectionMatrix f in
    let r := fillResidual f in
    let C := fillTrackParametersCovariance f in
    let R := msub V (mmul (mmul P C) (transpose P)) in
    let factor := chi2DerivativeFactor derivative (inverse V) R in
    Some {| measurementCovariance := V;
            trackParametersCovariance := C;
            projectionMatrix := P;
            residual := r;
            residualCovariance := R;
            chi2 := dot (vmmul r (inverse V)) r;
            alignmentToResidualDerivative := derivative;
            alignmentToChi2Derivative := mvmul factor r;
            alignmentToChi2SecondDerivative := mmul factor derivative;
            alignedSurfaces := fillSurfaces f;
            measurementDim := dim;
            trackParametersDim := parDim;
            alignmentDof := dof |}.

End Engine.

Arguments TrackState F : clear implicits.
Arguments MultiTrajectory F : clear implicits.
Arguments TrackAlignmentState F : clear implicits.
Arguments Fill F : clear implicits.

End detail.

(* ================================================================== *)
(** * ACTFW: the alignment driver *)
(* ================================================================== *)

(** [Acts::DetectorElementBase*]: detector elements are handles. *)
Definition Element : Type := nat.

(** [std::bitset<eAlignmentParametersSize>], by its value *)
Definition AlignmentMask : Type := N.

Module FW.

(** Modelled from the spec: the enumerators of ACTFW/Alignment/AlignmentError.hpp
    that Alignment.hpp returns. *)
Inductive AlignmentError :=
| NoAlignmentDofOnTrack
| AlignmentParametersUpdateFailure
| ConvergeFailure.

(** A [std::error_code]: the fitter's own, or an [AlignmentError]. *)
Inductive Error :=
| FitterError (code : nat)
| AlignmentErr (e : AlignmentError).

(** [Acts::Result<T>] *)
Inductive Result (A : Type) :=
| success (value : A)
| failure (error : Error).
Arguments success {A} value.
Arguments failure {A} error.

Definition ok {A} (r : Result A) : bool :=
  match r with success _ => true | failure _ => false end.

(** The records the logger receives at WARNING and ERROR level, and the
    notices [align] and [evaluateTrackAlignmentState] write about skipped
    tracks and convergence. *)
Inductive LogMsg :=
| WarnFitFailure
| VerboseNoAlignmentDof
| WarnEvaluationFailed (iTraj : nat)
| WarnInverseHasNaN
| ErrorElementUpdateFailed
| ErrorUpdateFailed (e : Error)
| InfoConvergedChi2
| InfoConvergedDelta
| ErrorNotConverged.

Section Driver.
Context {F : Type} `{Scalar F}.

(** The collaborators of the driver: the geometry shared with the detector
    elements, the track fitter, the Eigen routines, and the hash maps of
    the standard library. *)
Record Externals := {
  (** the placement of every detector element, which the updater mutates
      and the fitter and the surfaces read *)
  World : Type;
  Transform3D : Type;
  (** [std::vector<source_link_t>], [start_parameters_t], [fit_options_t] *)
  SourceLinks : Type;
  StartParameters : Type;
  FitOptions : Type;
  (** [sParameters.referenceSurface()] and
      [fitOptions.referenceSurface = ...] *)
  startSurface : StartParameters → Surface;
  withReferenceSurface : FitOptions → Surface → FitOptions;
  (** [m_fitter.fit]: the fitted states and the track tip, or an error *)
  fit : World → SourceLinks → StartParameters → FitOptions →
        Result (detail.MultiTrajectory F * nat);
  (** [Acts::detail::globalTrackParametersCovariance] *)
  globalTrackParametersCovariance :
    detail.MultiTrajectory F → nat → Matrix F * gmap nat nat;
  (** Eigen's [inverse()] and [fullPivLu().solve()]; the solution has as
      many entries as the matrix has columns *)
  inverse : Matrix F → Matrix F;
  solve : Matrix F → Vector F → Vector F;
  solve_size : ∀ h g, vsize (solve h g) = cols h;
  (** the order in which a range-based [for] visits a
      [std::unordered_map] keyed by surfaces: each entry once, in an
      order that the library and the addresses decide (the same for two
      maps that were filled in the same way) *)
  traverse : ∀ A : Type, gmap Surface A → list (Surface * A);
  traverse_entries : ∀ (A : Type) (m : gmap Surface A),
    traverse A m ≡ₚ map_to_list m;
  (** [det->surface()], [surface->center(gctx)],
      [surface->transform(gctx).rotation().eulerAngles(2, 1, 0)],
      [det->transform(gctx)] *)
  surfaceOf : Element → Surface;
  center : World → Surface → Vector F;
  eulerAngles : World → Surface → Vector F;
  elementTransform : World → Element → Transform3D;
  (** [Translation3D(c) * (AngleAxis3D(z, UnitZ) * AngleAxis3D(y, UnitY) *
      AngleAxis3D(x, UnitX))] *)
  makeTransform : Vector F → F → F → F → Transform3D;
}.

Context (X : Externals).

Arguments traverse _ {A} m.

(** [AlignedTransformUpdater]: the callback reports success and may have
    changed the stored placement. *)
Definition AlignedTransformUpdater : Type :=
  Element → Transform3D X → World X → bool * World X.

(** Options for the [align()] call *)
Record AlignmentOptions := {
  fitOptions : FitOptions X;
  alignedTransformUpdater : AlignedTransformUpdater;
  alignedDetElements : list Element;
  averageChi2ONdfCutOff : F;
  deltaAverageChi2ONdfCutOff : nat * F;
  maxIterations : nat;
  iterationState : gmap nat AlignmentMask;
}.

(** Alignment result struct *)
Record AlignmentResult := {
  deltaAlignmentParameters : Vector F;
  alignedParameters : gmap Element (Transform3D X);
  alignmentCovariance : Matrix F;
  averageChi2ONdf : F;
  deltaChi2 : F;
  chi2 : F;
  measurementDim : nat;
  alignmentDof : nat;
  numTracks : nat;
  result : Result unit;
}.

(** A default-constructed [AlignmentResult] *)
Definition newAlignmentResult : AlignmentResult :=
  {| deltaAlignmentParameters := emptyVector;
     alignedParameters := ∅;
     alignmentCovariance := emptyMatrix;
     averageChi2ONdf := smax;
     deltaChi2 := smax;
     chi2 := szero;
     measurementDim := 0;
     alignmentDof := 0;
     numTracks := 0;
     result := success tt |}.

(** ** Effects

    The driver reads and changes the geometry, calls the updater and
    writes to the log.  A call either returns, or does not: an exception
    leaves it ([at] out of range), or its behaviour is undefined ([front]
    and [pop] of an empty queue, a block or segment outside its matrix or
    vector). *)
Record Env := {
  world : World X;
  (** the calls made to the updater so far, oldest first, each with the
      element, the proposed transform and what the updater answered *)
  updateCalls : list (Element * Transform3D X * bool);
  (** the log so far, oldest first *)
  logged : list LogMsg;
}.

Inductive Outcome (A : Type) :=
| Returns (a : A) (e : Env)
| Abnormal.
Arguments Returns {A} a e.
Arguments Abnormal {A}.

Definition M (A : Type) : Type := Env → Outcome A.

#[global] Instance M_ret : MRet M := λ A a e, Returns a e.

#[global] Instance M_bind : MBind M := λ A B f m e,
  match m e with
  | Returns a e' => f a e'
  | Abnormal => Abnormal
  end.

Definition abnormal {A} : M A := λ _, Abnormal.

Definition liftOption {A} (o : option A) : M A :=
  match o with
  | Some a => mret a
  | None => abnormal
  end.

Definition readWorld : M (World X) := λ e, Returns (world e) e.

Definition logMsg (msg : LogMsg) : M unit := λ e,
  Returns tt {| world := world e; updateCalls := updateCalls e;
                logged := logged e ++ [msg] |}.

(** One call of the updater on the current geometry. *)
Definition callUpdater (updater : AlignedTransformUpdater)
    (element : Element) (t : Transform3D X) : M bool := λ e,
  let '(updated, w) := updater element t (world e) in
  Returns updated {| world := w;
                     updateCalls := updateCalls e ++ [(element, t, updated)];
                     logged := logged e |}.

(** ** evaluateTrackAlignmentState *)

(** evaluate alignment state for a single track.  The engine under
    Core/ takes neither the geometry context nor the mask; they stop here. *)
Definition evaluateTrackAlignmentState
    (sourcelinks : SourceLinks X) (sParameters : StartParameters X)
    (fitOpts : FitOptions X) (idxedAlignSurfaces : gmap Surface nat)
    (alignMask : AlignmentMask)
  : M (Result (detail.TrackAlignmentState F)) :=
  w ← readWorld;
  match fit X w sourcelinks sParameters fitOpts with
  | failure e =>
      _ ← logMsg WarnFitFailure;
      mret (failure e)
  | success (fittedStates, trackTip) =>
      let globalTrackParamsCov :=
        globalTrackParametersCovariance X fittedStates trackTip in
      alignState ← liftOption
        (detail.trackAlignmentState (inverse X) fittedStates trackTip
           globalTrackParamsCov idxedAlignSurfaces);
      if detail.alignmentDof alignState =? 0 then
        _ ← logMsg VerboseNoAlignmentDof;
        mret (failure (AlignmentErr NoAlignmentDofOnTrack))
      else mret (success alignState)
  end.

(** ** updateAlignmentParameters *)

(** Assign index to the alignable surface: [emplace] keeps the first index
    given to a surface. *)
Fixpoint indexSurfaces (elements : list Element) (iDetElement : nat)
    (idxed : gmap Surface nat) : gmap Surface nat :=
  match elements with
  | [] => idxed
  | element :: rest =>
      let surface := surfaceOf X element in
      indexSurfaces rest (S iDetElement)
        (match idxed !! surface with
         | Some _ => idxed
         | None => <[surface := iDetElement]> idxed
         end)
  end.

(** The sums over the tracks: the two locals [sumChi2Derivative] and
    [sumChi2SecondDerivative], the fields [chi2] and [measurementDim] of
    the result, and the local [sumChi2ONdf]. *)
Record Sums := {
  sumChi2Derivative : Vector F;
  sumChi2SecondDerivative : Matrix F;
  sumChi2 : F;
  sumMeasurementDim : nat;
  sumChi2ONdf : F;
}.

Definition sums0 (alignDof : nat) : Sums :=
  {| sumChi2Derivative := vzero alignDof;
     sumChi2SecondDerivative := mzero alignDof alignDof;
     sumChi2 := szero;
     sumMeasurementDim := 0;
     sumChi2ONdf := szero |}.

(** The inner loop over the column surfaces of one row surface.  [None]
    when a block reaches outside the sum or outside the derivative of the
    track. *)
Fixpoint addSecondDerivativeRow (alignState : detail.TrackAlignmentState F)
    (dstRow srcRow : nat) (h : Matrix F) (cols : list (Surface * (nat * nat)))
  : option (Matrix F) :=
  match cols with
  | [] => Some h
  | (_, (dstCol, srcCol)) :: rest =>
      h' ← addBlockAt h (dstRow * eAlignmentParametersSize)
                      (dstCol * eAlignmentParametersSize)
                      eAlignmentParametersSize eAlignmentParametersSize
                      (detail.alignmentToChi2SecondDerivative alignState)
                      (srcRow * eAlignmentParametersSize)
                      (srcCol * eAlignmentParametersSize);
      addSecondDerivativeRow alignState dstRow srcRow h' rest
  end.

(** The outer loop over the row surfaces; [surfaces] are the entries of
    [alignedSurfaces] as the inner loop visits them. *)
Fixpoint addDerivativeRows (alignState : detail.TrackAlignmentState F)
    (surfaces : list (Surface * (nat * nat))) (gh : Vector F * Matrix F)
    (rows : list (Surface * (nat * nat))) : option (Vector F * Matrix F) :=
  match rows with
  | [] => Some gh
  | (_, (dstRow, srcRow)) :: rest =>
      g ← addSegmentAt gh.1 (dstRow * eAlignmentParametersSize)
                       eAlignmentParametersSize
                       (detail.alignmentToChi2Derivative alignState)
                       (srcRow * eAlignmentParametersSize);
      h ← addSecondDerivativeRow alignState dstRow srcRow gh.2 surfaces;
      addDerivativeRows alignState surfaces (g, h) rest
  end.

(** Fill the results of one track into the full chi2 derivatives.  The
    surfaces come in the iteration order of the map. *)
Definition addDerivatives (alignState : detail.TrackAlignmentState F)
    (gh : Vector F * Matrix F) : option (Vector F * Matrix F) :=
  let surfaces := traverse X (detail.alignedSurfaces alignState) in
  addDerivativeRows alignState surfaces gh surfaces.

(** What a track whose evaluation succeeded adds to the sums. *)
Definition addTrack (alignState : detail.TrackAlignmentState F) (s : Sums)
  : option Sums :=
  '(g, h) ← addDerivatives alignState
              (sumChi2Derivative s, sumChi2SecondDerivative s);
  Some {| sumChi2Derivative := g;
          sumChi2SecondDerivative := h;
          sumChi2 := sadd (sumChi2 s) (detail.chi2 alignState);
          sumMeasurementDim :=
            sumMeasurementDim s + detail.measurementDim alignState;
          sumChi2ONdf := sadd (sumChi2ONdf s)
                           (sdiv (detail.chi2 alignState)
                                 (of_size (detail.measurementDim alignState))) |}.

(** One turn of the loop over the input trajectories. *)
Definition accumulateTrack (startParametersCollection : list (StartParameters X))
    (fitOpts : FitOptions X) (idxedAlignSurfaces : gmap Surface nat)
    (alignMask : AlignmentMask) (iTraj : nat) (sourcelinks : SourceLinks X)
    (s : Sums) : M Sums :=
  sParameters ← liftOption (startParametersCollection !! iTraj);
  let fitOptionsWithRefSurface :=
    withReferenceSurface X fitOpts (startSurface X sParameters) in
  evaluateRes ← evaluateTrackAlignmentState sourcelinks sParameters
                  fitOptionsWithRefSurface idxedAlignSurfaces alignMask;
  match evaluateRes with
  | failure _ =>
      _ ← logMsg (WarnEvaluationFailed iTraj);
      mret s
  | success alignState => liftOption (addTrack alignState s)
  end.

(** Calculate contribution to chi2 derivatives from all input trajectories *)
Fixpoint accumulateTracks (startParametersCollection : list (StartParameters X))
    (fitOpts : FitOptions X) (idxedAlignSurfaces : gmap Surface nat)
    (alignMask : AlignmentMask) (iTraj : nat)
    (trajectories : list (SourceLinks X)) (s : Sums) : M Sums :=
  match trajectories with
  | [] => mret s
  | sourcelinks :: rest =>
      s' ← accumulateTrack startParametersCollection fitOpts idxedAlignSurfaces
             alignMask iTraj sourcelinks s;
      accumulateTracks startParametersCollection fitOpts idxedAlignSurfaces
        alignMask (S iTraj) rest s'
  end.

(** The transform proposed for the element of slot [index]: the old centre
    moved by the three centre components of its delta, and the old Euler
    angles (stored as rotZ, rotY, rotX) turned by the three rotation
    components (stored as about x, y, z).  [None] when the six parameters
    of the slot reach outside the solved delta. *)
Definition newTransform (w : World X) (delta : Vector F) (surface : Surface)
    (index : nat) : option (Transform3D X) :=
  (* (1) The original transform *)
  let oldCenter := center X w surface in
  let oldEulerAngles := eulerAngles X w surface in
  (* (2) The delta transform *)
  deltaAlignmentParam ←
    segmentAt delta (eAlignmentParametersSize * index) eAlignmentParametersSize;
  let deltaCenter := segment deltaAlignmentParam eAlignmentCenter0 3 in
  let deltaEulerAngles := segment deltaAlignmentParam eAlignmentRotation0 3 in
  (* (3) The new transform *)
  let newCenter := vadd oldCenter deltaCenter in
  let rotZ := sadd (vcoeff oldEulerAngles 0) (vcoeff deltaEulerAngles 2) in
  let rotY := sadd (vcoeff oldEulerAngles 1) (vcoeff deltaEulerAngles 1) in
  let rotX := sadd (vcoeff oldEulerAngles 2) (vcoeff deltaEulerAngles 0) in
  Some (makeTransform X newCenter rotZ rotY rotX).

(** Update the aligned transform: the loop over the indexed surfaces, in
    the iteration order of the map.  It returns at the first element the
    updater refuses. *)
Fixpoint updateTransforms (detElements : list Element)
    (updater : AlignedTransformUpdater) (delta : Vector F)
    (entries : list (Surface * nat)) : M (Result unit) :=
  match entries with
  | [] => mret (success tt)
  | (surface, index) :: rest =>
      w ← readWorld;
      transform ← liftOption (newTransform w delta surface index);
      element ← liftOption (detElements !! index);
      updated ← callUpdater updater element transform;
      if negb updated then
        _ ← logMsg ErrorElementUpdateFailed;
        mret (failure (AlignmentErr AlignmentParametersUpdateFailure))
      else updateTransforms detElements updater delta rest
  end.

(** The indexed surfaces of a list of detector elements. *)
Definition idxedAlignSurfacesOf (detElements : list Element) : gmap Surface nat :=
  indexSurfaces detElements 0 ∅.

(** The sums over all input trajectories, as the first half of
    [updateAlignmentParameters] computes them. *)
Definition sumOverTracks (trajectoryCollection : list (SourceLinks X))
    (startParametersCollection : list (StartParameters X))
    (fitOpts : FitOptions X) (detElements : list Element)
    (alignMask : AlignmentMask) : M Sums :=
  let idxedAlignSurfaces := idxedAlignSurfacesOf detElements in
  accumulateTracks startParametersCollection fitOpts idxedAlignSurfaces
    alignMask 0 trajectoryCollection
    (sums0 (size idxedAlignSurfaces * eAlignmentParametersSize)).

(** The result after the linear system was solved. *)
Definition solvedResult (alignResult : AlignmentResult) (alignDof nTracks : nat)
    (s : Sums) : AlignmentResult :=
  let g := sumChi2Derivative s in
  let h := sumChi2SecondDerivative s in
  let sumChi2SecondDerivativeInverse := inverse X h in
  let delta := vneg (solve X h g) in
  {| deltaAlignmentParameters := delta;
     alignedParameters := alignedParameters alignResult;
     alignmentCovariance := mscale stwo sumChi2SecondDerivativeInverse;
     averageChi2ONdf := sdiv (sumChi2ONdf s) (of_size nTracks);
     deltaChi2 := dot (vscale shalf g) delta;
     chi2 := sumChi2 s;
     measurementDim := sumMeasurementDim s;
     alignmentDof := alignDof;
     numTracks := nTracks;
     result := result alignResult |}.

(** update the alignment parameters.  [alignResult] is passed by reference
    in the source; here the updated result is returned next to the status. *)
Definition updateAlignmentParameters
    (trajectoryCollection : list (SourceLinks X))
    (startParametersCollection : list (StartParameters X))
    (fitOpts : FitOptions X) (detElements : list Element)
    (updater : AlignedTransformUpdater) (alignResult : AlignmentResult)
    (alignMask : AlignmentMask) : M (Result unit * AlignmentResult) :=
  let idxedAlignSurfaces := idxedAlignSurfacesOf detElements in
  let alignDof := size idxedAlignSurfaces * eAlignmentParametersSize in
  s ← sumOverTracks trajectoryCollection startParametersCollection fitOpts
        detElements alignMask;
  let nTracks := length trajectoryCollection in
  _ ← (if hasNaN (inverse X (sumChi2SecondDerivative s))
       then logMsg WarnInverseHasNaN else mret tt);
  let alignResult' := solvedResult alignResult alignDof nTracks s in
  status ← updateTransforms detElements updater
             (deltaAlignmentParameters alignResult')
             (traverse X idxedAlignSurfaces);
  mret (status, alignResult').

(** ** align *)

(** How one iteration of [align] ends. *)
Inductive Verdict :=
| Converged
| Continue (recentChi2ONdf : list F).

(** The convergence tests at the end of an iteration.  [recentChi2ONdf] is
    the queue, oldest value first.  With an empty queue and a window of
    size zero the source calls [front()] on an empty queue. *)
Definition checkConvergence (cutOff : F) (deltaCutOff : nat * F)
    (average : F) (recentChi2ONdf : list F) : M Verdict :=
  (* (1) firstly check the average chi2/ndf *)
  if sleb average cutOff then
    _ ← logMsg InfoConvergedChi2;
    mret Converged
  (* (2) secondly check the delta average chi2/ndf in the last iterations *)
  else if deltaCutOff.1 <=? length recentChi2ONdf then
    match recentChi2ONdf with
    | [] => abnormal
    | oldest :: rest =>
        if sleb (sabs (ssub oldest average)) deltaCutOff.2 then
          _ ← logMsg InfoConvergedDelta;
          mret Converged
        else mret (Continue (rest ++ [average]))
    end
  else mret (Continue (recentChi2ONdf ++ [average])).

(** [std::bitset<6>(std::string("111111"))] *)
Definition allFree : AlignmentMask := 63%N.

(** How the iteration loop of [align] ends: with an error returned from
    inside the loop, or by leaving the loop with the flag [converged]. *)
Inductive LoopEnd :=
| Returned (e : Error)
| Exited (converged : bool) (alignRes : AlignmentResult).

(** The iteration loop; [n] iterations remain, [iIter] is the current one. *)
Fixpoint iterations (trajectoryCollection : list (SourceLinks X))
    (startParametersCollection : list (StartParameters X))
    (alignOptions : AlignmentOptions) (n iIter : nat)
    (alignRes : AlignmentResult) (recentChi2ONdf : list F) : M LoopEnd :=
  match n with
  | 0 => mret (Exited false alignRes)
  | S n' =>
      let alignmentMask := default allFree (iterationState alignOptions !! iIter) in
      '(updateRes, alignRes') ←
        updateAlignmentParameters trajectoryCollection startParametersCollection
          (fitOptions alignOptions) (alignedDetElements alignOptions)
          (alignedTransformUpdater alignOptions) alignRes alignmentMask;
      match updateRes with
      | failure e =>
          _ ← logMsg (ErrorUpdateFailed e);
          mret (Returned e)
      | success _ =>
          verdict ← checkConvergence (averageChi2ONdfCutOff alignOptions)
                      (deltaAverageChi2ONdfCutOff alignOptions)
                      (averageChi2ONdf alignRes') recentChi2ONdf;
          match verdict with
          | Converged => mret (Exited true alignRes')
          | Continue recent =>
              iterations trajectoryCollection startParametersCollection
                alignOptions n' (S iIter) alignRes' recent
          end
      end
  end.

(** [alignRes.result = e] *)
Definition withResult (alignRes : AlignmentResult) (r : Result unit)
  : AlignmentResult :=
  {| deltaAlignmentParameters := deltaAlignmentParameters alignRes;
     alignedParameters := alignedParameters alignRes;
     alignmentCovariance := alignmentCovariance alignRes;
     averageChi2ONdf := averageChi2ONdf alignRes;
     deltaChi2 := deltaChi2 alignRes;
     chi2 := chi2 alignRes;
     measurementDim := measurementDim alignRes;
     alignmentDof := alignmentDof alignRes;
     numTracks := numTracks alignRes;
     result := r |}.

(** [alignRes.alignedParameters.emplace(det, transform)] for every element *)
Definition recordTransforms (w : World X) (detElements : list Element)
    (alignRes : AlignmentResult) : AlignmentResult :=
  {| deltaAlignmentParameters := deltaAlignmentParameters alignRes;
     alignedParameters :=
       foldl (λ m det, match m !! det with
                       | Some _ => m
                       | None => <[det := elementTransform X w det]> m
                       end)
             (alignedParameters alignRes) detElements;
     alignmentCovariance := alignmentCovariance alignRes;
     averageChi2ONdf := averageChi2ONdf alignRes;
     deltaChi2 := deltaChi2 alignRes;
     chi2 := chi2 alignRes;
     measurementDim := measurementDim alignRes;
     alignmentDof := alignmentDof alignRes;
     numTracks := numTracks alignRes;
     result := result alignRes |}.

(** Alignment implementation *)
Definition align (trajectoryCollection : list (SourceLinks X))
    (startParametersCollection : list (StartParameters X))
    (alignOptions : AlignmentOptions) : M (Result AlignmentResult) :=
  loopEnd ← iterations trajectoryCollection startParametersCollection
              alignOptions (maxIterations alignOptions) 0
              newAlignmentResult [];
  match loopEnd with
  | Returned e => mret (failure e)
  | Exited converged alignRes =>
      (* Alignment failure if not converged *)
      alignRes' ←
        (if negb converged then
           _ ← logMsg ErrorNotConverged;
           mret (withResult alignRes (failure (AlignmentErr ConvergeFailure)))
         else mret alignRes);
      w ← readWorld;
      mret (success (recordTransforms w (alignedDetElements alignOptions) alignRes'))
  end.

End Driver.

Arguments Externals F : clear implicits.
Arguments traverse {F} _ {A} m.
Arguments Sums F : clear implicits.
Arguments Returns {F X A} a e.
Arguments Abnormal {F X A}.

End FW.

(* ================================================================== *)
(** * ACTFW: the alignment algorithm *)
(* ================================================================== *)

(** [FW::AlignmentAlgorithm] of AlignmentAlgorithm.cpp: the constructor,
    which checks the configuration, and [execute], which prepares the
    tracks of one event and calls the alignment function on them. *)

Module AlignmentAlgorithm.

(** [FW::ProcessCode], by the two codes [execute] returns. *)
Inductive ProcessCode :=
| SUCCESS
| ABORT.

(** The [std::invalid_argument] the constructor throws, by its message. *)
Inductive InvalidArgument :=
| MissingInputSourceLinks
| MissingInputProtoTracks
| MissingInputInitialTrackParameters
| MissingOutputTrajectories.

Section Algorithm.
Context {F : Type} `{Scalar F} (X : FW.Externals F).

(** [SimSourceLink], and a [std::vector<SimSourceLink>] as the input of a
    track fit. *)
Context {SimSourceLink : Type} (trackInput : list SimSourceLink → FW.SourceLinks X).

(** What [execute] writes to the logger of the algorithm. *)
Inductive Notice :=
| FatalInconsistentNumber
| FatalInvalidHitIndex (itrack hitIndex : nat)
| DebugInvokeAlignment
| VerboseAlignmentFinished (deltaChi2 : F)
| WarningAlignmentFailed (error : FW.Error).

(** The fields of [Config] that AlignmentAlgorithm.cpp reads, at the types
    the constructor of [AlignmentOptions] takes them at; [align] is the
    alignment function, a [std::function] that the examples wrap around
    [Alignment::align]. *)
Record Config := {
  inputSourceLinks : String.string;
  inputProtoTracks : String.string;
  inputInitialTrackParameters : String.string;
  outputTrajectories : String.string;
  alignedTransformUpdater : FW.AlignedTransformUpdater X;
  alignedDetElements : list Element;
  chi2ONdfCutOff : F;
  deltaChi2ONdfCutOff : nat * F;
  maxNumIterations : nat;
  align : list (FW.SourceLinks X) → list (FW.StartParameters X) →
          FW.AlignmentOptions X → FW.M X (FW.Result (FW.AlignmentResult X));
}.

(** [std::string::empty] *)
Definition empty (s : String.string) : bool :=
  match s with
  | String.EmptyString => true
  | String.String _ _ => false
  end.

(** The constructor: the configuration it keeps, or the exception. *)
Definition AlignmentAlgorithm (cfg : Config) : InvalidArgument + Config :=
  if empty (inputSourceLinks cfg) then inl MissingInputSourceLinks
  else if empty (inputProtoTracks cfg) then inl MissingInputProtoTracks
  else if empty (inputInitialTrackParameters cfg)
       then inl MissingInputInitialTrackParameters
  else if empty (outputTrajectories cfg) then inl MissingOutputTrajectories
  else inr cfg.

(** Fill the source links via their indices from the container: the loop
    over the hits of one proto track.  [nth] at the size of the container
    is the end iterator; an index beyond the size is read as the end
    iterator too, which is what the check of the source is written for
    (the container itself asks for an index of at most its size).  The
    result is then the offending hit index. *)
Fixpoint fillSourceLinks (sourceLinks : list SimSourceLink) (protoTrack : list nat)
    (trackSourceLinks : list SimSourceLink) : nat + list SimSourceLink :=
  match protoTrack with
  | [] => inr trackSourceLinks
  | hitIndex :: rest =>
      match sourceLinks !! hitIndex with
      | None => inl hitIndex
      | Some sourceLink =>
          fillSourceLinks sourceLinks rest (trackSourceLinks ++ [sourceLink])
      end
  end.

(** Prepare the input track collection: the loop over the proto tracks. *)
Fixpoint prepareTracks (sourceLinks : list SimSourceLink)
    (protoTracks : list (list nat)) (itrack : nat)
    (sourceLinkTrackContainer : list (list SimSourceLink))
  : nat * nat + list (list SimSourceLink) :=
  match protoTracks with
  | [] => inr sourceLinkTrackContainer
  | protoTrack :: rest =>
      match fillSourceLinks sourceLinks protoTrack [] with
      | inl hitIndex => inl (itrack, hitIndex)
      | inr trackSourceLinks =>
          prepareTracks sourceLinks rest (S itrack)
            (sourceLinkTrackContainer ++ [trackSourceLinks])
      end
  end.

(** Set the alignment options: the constructor of [AlignmentOptions] with
    six arguments leaves the iteration state empty. *)
Definition alignOptionsOf (cfg : Config) (kfOptions : FW.FitOptions X)
  : FW.AlignmentOptions X :=
  {| FW.fitOptions := kfOptions;
     FW.alignedTransformUpdater := alignedTransformUpdater cfg;
     FW.alignedDetElements := alignedDetElements cfg;
     FW.averageChi2ONdfCutOff := chi2ONdfCutOff cfg;
     FW.deltaAverageChi2ONdfCutOff := deltaChi2ONdfCutOff cfg;
     FW.maxIterations := maxNumIterations cfg;
     FW.iterationState := ∅ |}.

(** [execute], on the three collections it reads from the event store and
    the Kalman fitter options it makes from the context and the perigee
    surface at the origin.  It returns the process code and what it wrote
    to its logger; the event store is not written to (the line that adds
    the output trajectories is commented out). *)
Definition execute (cfg : Config) (kfOptions : FW.FitOptions X)
    (sourceLinks : list SimSourceLink) (protoTracks : list (list nat))
    (initialParameters : list (FW.StartParameters X))
  : FW.M X (ProcessCode * list Notice) :=
  (* Consistency cross checks *)
  if negb (length protoTracks =? length initialParameters) then
    mret (ABORT, [FatalInconsistentNumber])
  else
    match prepareTracks sourceLinks protoTracks 0 [] with
    | inl (itrack, hitIndex) => mret (ABORT, [FatalInvalidHitIndex itrack hitIndex])
    | inr sourceLinkTrackContainer =>
        result ← align cfg (trackInput <$> sourceLinkTrackContainer)
                   initialParameters (alignOptionsOf cfg kfOptions);
        mret (SUCCESS,
              [DebugInvokeAlignment;
               match result with
               | FW.success value => VerboseAlignmentFinished (FW.deltaChi2 X value)
               | FW.failure error => WarningAlignmentFailed error
               end])
    end.

End Algorithm.

Arguments Notice F : clear implicits.

End AlignmentAlgorithm.

(* ================================================================== *)
(** * A small telescope, for concrete runs *)
(* ================================================================== *)

(** The collaborators are outside the alignment code; to run it on concrete
    tracks they are instantiated here by the simplest stand-ins: a fitter
    that turns every source link into one measurement state with unit
    covariance, a textbook Gauss-Jordan elimination for the inverse, and
    hash maps that are iterated in the order of the maps of this file. *)
Module Telescope.
Section Telescope.
Context {F : Type} `{Scalar F}.

Definition tabulate (n m : nat) (f : nat → nat → F) : list (list F) :=
  map (λ i, map (f i) (seq 0 m)) (seq 0 n).

Definition entry (t : list (list F)) (i j : nat) : F := nth j (nth i t []) szero.

(** One elimination step on the [n x 2n] tableau, pivot [(k, k)], no
    pivot search. *)
Definition eliminate (n : nat) (t : list (list F)) (k : nat) : list (list F) :=
  let p := entry t k k in
  tabulate n (2 * n) (λ i j,
    if i =? k then sdiv (entry t k j) p
    else ssub (entry t i j) (smul (entry t i k) (sdiv (entry t k j) p))).

Definition gaussJordanInverse (m : Matrix F) : Matrix F :=
  let n := rows m in
  let tableau := tabulate n (2 * n) (λ i j,
    if j <? n then coeff m i j
    else if j - n =? i then of_size 1 else szero) in
  let t := foldl (eliminate n) tableau (seq 0 n) in
  {| rows := n; cols := n; coeff := λ i j, entry t i (n + j) |}.

Definition identity (n : nat) : Matrix F :=
  {| rows := n; cols := n; coeff := λ i j, if i =? j then of_size 1 else szero |}.

Definition vector2 (x y : F) : Vector F :=
  {| vsize := 2; vcoeff := λ i, match i with 0 => x | 1 => y | _ => szero end |}.

(** A source link: the surface and the two measured local coordinates. *)
Definition SourceLink : Type := Surface * F * F.

(** The state the stand-in fitter makes of the [i]-th source link. *)
Definition stateOf (i : nat) (sl : SourceLink) : detail.TrackState F :=
  let '(surface, x, y) := sl in
  {| detail.previous := match i with 0 => None | S p => Some p end;
     detail.hasSmoothed := true;
     detail.measurementFlag := true;
     detail.referenceSurface := surface;
     detail.calibratedSize := 2;
     detail.calibrated := vector2 x y;
     detail.calibratedCovariance := identity eBoundParametersSize;
     detail.projector := identity eBoundParametersSize;
     detail.filtered := vzero eBoundParametersSize |}.

(** A placement: the centre and the three Euler angles (z, y, x). *)
Definition Placement : Type := Vector F * (F * F * F).

Definition placement0 : Placement := (vzero 3, (szero, szero, szero)).

Definition anglesOf (p : Placement) : Vector F :=
  let '(_, (z, y, x)) := p in
  {| vsize := 3; vcoeff := λ i, match i with 0 => z | 1 => y | _ => x end |}.

(** In the telescope the surface of element [k] is surface [k]. *)
Definition telescope : FW.Externals F := {|
  FW.World := gmap Element Placement;
  FW.Transform3D := Placement;
  FW.SourceLinks := list SourceLink;
  FW.StartParameters := unit;
  FW.FitOptions := unit;
  FW.startSurface := λ _, 1000;
  FW.withReferenceSurface := λ o _, o;
  FW.fit := λ _ sourcelinks _ _,
    match sourcelinks with
    | [] => FW.failure (FW.FitterError 1)
    | _ => FW.success (imap stateOf sourcelinks, length sourcelinks - 1)
    end;
  FW.globalTrackParametersCovariance := λ fittedStates _,
    (identity (eBoundParametersSize * length fittedStates),
     list_to_map (map (λ i, (i, eBoundParametersSize * i))
                      (seq 0 (length fittedStates))));
  FW.inverse := gaussJordanInverse;
  FW.solve := λ h g,
    {| vsize := cols h; vcoeff := vcoeff (mvmul (gaussJordanInverse h) g) |};
  FW.solve_size := λ h g, eq_refl;
  FW.traverse := λ A m, map_to_list m;
  FW.traverse_entries := λ A m, Permutation_refl (map_to_list m);
  FW.surfaceOf := λ element, element;
  FW.center := λ w surface, (default placement0 (w !! surface)).1;
  FW.eulerAngles := λ w surface, anglesOf (default placement0 (w !! surface));
  FW.elementTransform := λ w element, default placement0 (w !! element);
  FW.makeTransform := λ c z y x, (c, (z, y, x));
|}.

(** An updater that stores every proposed placement, and one that refuses
    every request. *)
Definition acceptAll : FW.AlignedTransformUpdater telescope :=
  λ element t w, (true, <[element := t]> w).
Definition rejectAll : FW.AlignedTransformUpdater telescope :=
  λ _ _ w, (false, w).

Definition env0 : FW.Env telescope :=
  {| FW.world := ∅; FW.updateCalls := []; FW.logged := [] |}.

Definition options (updater : FW.AlignedTransformUpdater telescope)
    (elements : list Element) (cutOff : F) (window : nat * F) (maxIters : nat)
  : FW.AlignmentOptions telescope :=
  {| FW.fitOptions := (tt : FW.FitOptions telescope);
     FW.alignedTransformUpdater := updater;
     FW.alignedDetElements := elements;
     FW.averageChi2ONdfCutOff := cutOff;
     FW.deltaAverageChi2ONdfCutOff := window;
     FW.maxIterations := maxIters;
     FW.iterationState := ∅ |}.

(** The fitted track of a list of source links, as the fitter returns it. *)
Definition trackOf (sourcelinks : list SourceLink) : detail.MultiTrajectory F :=
  imap stateOf sourcelinks.

(** [trackAlignmentState] on the fitted track of some source links, with
    the given elements registered for alignment. *)
Definition stateOfTrackWith (elements : list Element)
    (sourcelinks : list SourceLink) : option (detail.TrackAlignmentState F) :=
  let fitted := trackOf sourcelinks in
  let tip := length sourcelinks - 1 in
  detail.trackAlignmentState gaussJordanInverse fitted tip
    (FW.globalTrackParametersCovariance telescope fitted tip)
    (FW.idxedAlignSurfacesOf telescope elements).

(** The same with elements [0 .. nElements-1] registered. *)
Definition stateOfTrack (nElements : nat) (sourcelinks : list SourceLink)
  : option (detail.TrackAlignmentState F) :=
  stateOfTrackWith (seq 0 nElements) sourcelinks.

(** One hit on surface 0 at local position (2, 0); a track with two hits,
    both on surface 0; and a track that misses surface 0. *)
Definition oneHit : list SourceLink := [(0, of_size 2, szero)].
Definition doubleHit : list SourceLink :=
  [(0, of_size 2, szero); (0, of_size 1, of_size 1)].
Definition elsewhere : list SourceLink := [(7, of_size 2, szero)].


(** The set-up of the unit test [Alignment_zero_field]: six layers, all but
    the fourth to be aligned, and a track with one hit on each layer. *)
Definition sixLayers : list SourceLink :=
  map (λ layer, (layer, of_size 1, of_size 1)) (seq 0 6).
Definition alignedLayers : list Element := [0; 1; 2; 4; 5].

End Telescope.
End Telescope.

(* ================================================================== *)
(** * Vocabulary of the specification *)
(* ================================================================== *)

Section Vocabulary.
Context {F : Type} `{Scalar F}.

(** A matrix all of whose coefficients are the zero it was allocated
    with. *)
Definition mnull (m : Matrix F) : Prop := ∀ i j, coeff m i j = szero.

(** The states of a walk that carry a measurement. *)
Definition measurementStatesOf (visited : list (nat * detail.TrackState F))
  : list (nat * detail.TrackState F) :=
  List.filter (λ its, detail.measurementFlag its.2) visited.

Definition registered (idxedAlignSurfaces : gmap Surface nat) (s : Surface) : bool :=
  bool_decide (is_Some (idxedAlignSurfaces !! s)).

(** The registered alignable surfaces met on a walk, one entry for every
    measurement they carry. *)
Definition alignableSurfacesOf (idxedAlignSurfaces : gmap Surface nat)
    (visited : list (nat * detail.TrackState F)) : list Surface :=
  List.filter (registered idxedAlignSurfaces)
              (map (λ its, detail.referenceSurface its.2)
                   (measurementStatesOf visited)).

(** The distinct alignable surfaces that carry a measurement on a walk. *)
Definition distinctAlignableSurfaces (idxedAlignSurfaces : gmap Surface nat)
    (visited : list (nat * detail.TrackState F)) : gset Surface :=
  list_to_set (alignableSurfacesOf idxedAlignSurfaces visited).

(** The sum of the calibrated measurement dimensions of a walk. *)
Definition totalMeasurementDim (visited : list (nat * detail.TrackState F)) : nat :=
  foldr (λ its n, detail.calibratedSize its.2 + n) 0 (measurementStatesOf visited).

(** The matrices of a [Fill], by their dimensions. *)
Definition fillDims (f : detail.Fill F) : list nat :=
  [ rows (detail.fillMeasurementCovariance f);
    cols (detail.fillMeasurementCovariance f);
    rows (detail.fillProjectionMatrix f);
    cols (detail.fillProjectionMatrix f);
    vsize (detail.fillResidual f);
    rows (detail.fillTrackParametersCovariance f);
    cols (detail.fillTrackParametersCovariance f) ].

(** The source covariance holds the blocks of the state at [index]: the
    index map names its first row, and from that row, and from the column
    of the same number, there is room for six. *)
Definition indexed (src : Matrix F) (rowIndices : gmap nat nat) (index : nat)
  : Prop :=
  ∃ r, rowIndices !! index = Some r ∧
       r + eBoundParametersSize ≤ rows src ∧ r + eBoundParametersSize ≤ cols src.

(** The last [n] values of a history, oldest first. *)
Definition lastValues {A} (n : nat) (history : list A) : list A :=
  drop (length history - n) history.

End Vocabulary.

(** On doubles: a value that is neither infinite nor NaN. *)
Definition finiteFloat (x : float) : Prop :=
  match Prim2SF x with S754_nan | S754_infinity _ => False | _ => True end.

(** Two doubles that are the same number: the same value, or two zeros. *)
Definition sameSF (x y : spec_float) : Prop :=
  x = y ∨ match x, y with S754_zero _, S754_zero _ => True | _, _ => False end.
Definition sameFloat (x y : float) : Prop := sameSF (Prim2SF x) (Prim2SF y).


Section LawsVocabulary.
Context {F : Type} `{ScalarLaws F}.



End LawsVocabulary.

(** What an effectful step leaves alone: the geometry and the updater calls. *)
Definition sameGeometry {F : Type} `{Scalar F} {X : FW.Externals F}
    (e e' : FW.Env X) : Prop :=
  FW.world X e' = FW.world X e ∧ FW.updateCalls X e' = FW.updateCalls X e.

(** An updater call that was accepted. *)
Definition accepted {A B : Type} (call : A * B * bool) : Prop := call.2 = true.

(** A run of updater calls that ends with the first refusal. *)
Definition stoppedAtFirstRefusal {A B : Type} (calls : list (A * B * bool)) : Prop :=
  ∃ oks bad, calls = oks ++ [bad] ∧ Forall accepted oks ∧ bad.2 = false.

(** The environment after an updater call that answered [updated] and
    left the geometry [w]. *)
Definition afterCall {F : Type} `{Scalar F} {X : FW.Externals F}
    (e : FW.Env X) (w : FW.World X) (element : Element)
    (t : FW.Transform3D X) (updated : bool) : FW.Env X :=
  {| FW.world := w;
     FW.updateCalls := FW.updateCalls X e ++ [(element, t, updated)];
     FW.logged := FW.logged X e |}.

(** The transform proposed for a surface of slot [index] under the
    geometry [w]: its centre moved by the first three of the six parameters
    of its slot, and its Euler angles about z, y and x turned by the sixth,
    the fifth and the fourth. *)
Definition proposedFor {F : Type} `{Scalar F} {X : FW.Externals F}
    (w : FW.World X) (delta : Vector F) (surface : Surface) (index : nat)
    (t : FW.Transform3D X) : Prop :=
  ∃ newCenter : Vector F,
    (∀ k, k < 3 →
       vcoeff newCenter k =
       sadd (vcoeff (FW.center X w surface) k) (vcoeff delta (6 * index + k))) ∧
    t = FW.makeTransform X newCenter
          (sadd (vcoeff (FW.eulerAngles X w surface) 0) (vcoeff delta (6 * index + 5)))
          (sadd (vcoeff (FW.eulerAngles X w surface) 1) (vcoeff delta (6 * index + 4)))
          (sadd (vcoeff (FW.eulerAngles X w surface) 2) (vcoeff delta (6 * index + 3))).

(** A run of accepted updater calls over a list of map entries, from the
    geometry [w] to the geometry [w']: the element of each entry in turn is
    offered the transform proposed for its surface under the geometry that
    the earlier calls left, from six parameters that lie inside the
    delta. *)
Inductive updatedInTurn {F : Type} `{Scalar F} {X : FW.Externals F}
    (detElements : list Element) (updater : FW.AlignedTransformUpdater X)
    (delta : Vector F)
  : FW.World X → list (Surface * nat) →
    list (Element * FW.Transform3D X * bool) → FW.World X → Prop :=
| updated_none w : updatedInTurn detElements updater delta w [] [] w
| updated_next w surface index rest element t w1 calls w' :
    6 * index + 6 ≤ vsize delta →
    detElements !! index = Some element →
    proposedFor w delta surface index t →
    updater element t w = (true, w1) →
    updatedInTurn detElements updater delta w1 rest calls w' →
    updatedInTurn detElements updater delta w ((surface, index) :: rest)
                  ((element, t, true) :: calls) w'.

(** The result [res] holds what the sums [s] give: the delta is minus what
    the LU solver returns for the second-derivative matrix [H] and the
    gradient [g], entry by entry, the covariance is twice what the
    inversion returns for [H], and [deltaChi2] is the sum of
    [(0.5 g_k) delta_k]. *)
Definition solvedFrom {F : Type} `{Scalar F} {X : FW.Externals F}
    (s : FW.Sums F) (res : FW.AlignmentResult X) : Prop :=
  let g := FW.sumChi2Derivative s in
  let h := FW.sumChi2SecondDerivative s in
  let delta := FW.deltaAlignmentParameters X res in
  let covariance := FW.alignmentCovariance X res in
  vsize delta = cols h ∧
  (∀ i, vcoeff delta i = sneg (vcoeff (FW.solve X h g) i)) ∧
  rows covariance = rows (FW.inverse X h) ∧
  cols covariance = cols (FW.inverse X h) ∧
  (∀ i j, coeff covariance i j = smul stwo (coeff (FW.inverse X h) i j)) ∧
  FW.deltaChi2 X res =
    ssum (vsize g) (λ k, smul (smul shalf (vcoeff g k)) (vcoeff delta k)).


(** The elements of the calls, and the elements of the slots of a list of
    map entries. *)
Definition calledElements {B : Type} (calls : list (Element * B * bool))
  : list Element := map (λ call, call.1.1) calls.
Definition elementsOf (detElements : list Element) (entries : list (Surface * nat))
  : list Element := omap (λ entry, detElements !! entry.2) entries.

(** The update of iteration [iIter] under the options of the run, as the
    body of the loop of [align] calls it. *)
Definition updateOf {F : Type} `{Scalar F} {X : FW.Externals F}
    (opts : FW.AlignmentOptions X) (trajectories : list (FW.SourceLinks X))
    (starts : list (FW.StartParameters X)) (iIter : nat)
    (alignRes : FW.AlignmentResult X)
  : FW.M X (FW.Result unit * FW.AlignmentResult X) :=
  FW.updateAlignmentParameters X trajectories starts (FW.fitOptions X opts)
    (FW.alignedDetElements X opts) (FW.alignedTransformUpdater X opts) alignRes
    (default FW.allFree (FW.iterationState X opts !! iIter)).

(** The environment after one more log record. *)
Definition withLog {F : Type} `{Scalar F} {X : FW.Externals F}
    (e : FW.Env X) (msgs : list FW.LogMsg) : FW.Env X :=
  {| FW.world := FW.world X e;
     FW.updateCalls := FW.updateCalls X e;
     FW.logged := FW.logged X e ++ msgs |}.

(** ** Vocabulary of the further properties *)

Section LayoutVocabulary.
Context {F : Type} `{Scalar F}.

(** The sum of the calibrated measurement dimensions of a list of states. *)
Definition stateDims (states : list (nat * detail.TrackState F)) : nat :=
  foldr (λ its n, detail.calibratedSize its.2 + n) 0 states.

(** Where the [k]-th measurement state of a walk lands in the matrices of
    the track: its first row among the measurement rows, and its first row
    and column among the track-parameter rows and columns.  The loop fills
    from the far end, so the state visited first lands last. *)
Definition measurementOffset (states : list (nat * detail.TrackState F)) (k : nat)
  : nat := stateDims (drop (S k) states).
Definition parametersOffset (states : list (nat * detail.TrackState F)) (k : nat)
  : nat := eBoundParametersSize * (length states - S k).

(** The residual of one measurement state, [calibrated - H * filtered]. *)
Definition stateResidual (ts : detail.TrackState F) : Vector F :=
  vsub (segment (detail.calibrated ts) 0 (detail.calibratedSize ts))
       (mvmul (detail.topLeftCorner (detail.projector ts)
                 (detail.calibratedSize ts) eBoundParametersSize)
              (detail.filtered ts)).

(** An entry of the measurement list and the state of the walk it stands for. *)
Definition standsFor (multiTraj : detail.MultiTrajectory F)
    (entry : nat * bool) (its : nat * detail.TrackState F) : Prop :=
  entry.1 = its.1 ∧ detail.getTrackState multiTraj its.1 = Some its.2.

(** The counters and the matrices as the loop over the measurement states
    finds them. *)
Definition initialFill (c : detail.Census) : detail.Fill F :=
  let dim := detail.censusDim c in
  let parDim := eBoundParametersSize * length (detail.measurementStates c) in
  {| detail.iMeasurement := dim; detail.iParams := parDim;
     detail.iSurface := detail.nAlignSurfaces c;
     detail.fillMeasurementCovariance := mzero dim dim;
     detail.fillProjectionMatrix := mzero dim parDim;
     detail.fillResidual := vzero dim;
     detail.fillTrackParametersCovariance := mzero parDim parDim;
     detail.fillSurfaces := detail.censusSurfaces c |}.

End LayoutVocabulary.

(** The notices the loop over the tracks writes. *)
Definition skipNotice (nTracks : nat) (msg : FW.LogMsg) : Prop :=
  msg = FW.WarnFitFailure ∨ msg = FW.VerboseNoAlignmentDof ∨
  ∃ iTraj, msg = FW.WarnEvaluationFailed iTraj ∧ iTraj < nTracks.

(** The dimensions of the summed gradient and second-derivative matrix. *)
Definition sumsDims {F : Type} `{Scalar F} (s : FW.Sums F) : list nat :=
  [ vsize (FW.sumChi2Derivative s);
    rows (FW.sumChi2SecondDerivative s);
    cols (FW.sumChi2SecondDerivative s) ].

(** The global covariance of a fitted track holds the blocks of every
    measurement state of the walk from its tip. *)
Definition coveredTrack {F : Type} `{Scalar F} (X : FW.Externals F)
    (fitted : detail.MultiTrajectory F) (tip : nat) : Prop :=
  let cov := FW.globalTrackParametersCovariance X fitted tip in
  ∀ index ts,
    (index, ts) ∈ measurementStatesOf (detail.visitBackwards fitted tip) →
    indexed cov.1 cov.2 index.

Section Contributions.
Context {F : Type} `{Scalar F} (X : FW.Externals F).

(** What the track [iTraj] adds to the sums under the geometry [w]: its
    alignment state when the fit succeeds and the state has a degree of
    freedom, nothing when the track is skipped.  The outer [None] stands
    for an exception ([at] on the start parameters or inside the engine). *)
Definition contributionOf (w : FW.World X) (starts : list (FW.StartParameters X))
    (fitOpts : FW.FitOptions X) (idxed : gmap Surface nat) (iTraj : nat)
    (sourcelinks : FW.SourceLinks X)
  : option (option (detail.TrackAlignmentState F)) :=
  sParameters ← starts !! iTraj;
  match FW.fit X w sourcelinks sParameters
          (FW.withReferenceSurface X fitOpts (FW.startSurface X sParameters)) with
  | FW.failure _ => Some None
  | FW.success (fittedStates, trackTip) =>
      alignState ← detail.trackAlignmentState (FW.inverse X) fittedStates trackTip
                     (FW.globalTrackParametersCovariance X fittedStates trackTip)
                     idxed;
      Some (if detail.alignmentDof alignState =? 0 then None else Some alignState)
  end.

(** The alignment states of the contributing tracks, in the order of the
    collection. *)
Fixpoint contributionsFrom (w : FW.World X) (starts : list (FW.StartParameters X))
    (fitOpts : FW.FitOptions X) (idxed : gmap Surface nat) (iTraj : nat)
    (trajectories : list (FW.SourceLinks X))
  : option (list (detail.TrackAlignmentState F)) :=
  match trajectories with
  | [] => Some []
  | sourcelinks :: rest =>
      contribution ← contributionOf w starts fitOpts idxed iTraj sourcelinks;
      others ← contributionsFrom w starts fitOpts idxed (S iTraj) rest;
      Some (match contribution with
            | Some alignState => alignState :: others
            | None => others
            end)
  end.

End Contributions.
(** The source links a proto track names, hit by hit. *)
Definition linksOf {A : Type} (sourceLinks : list A) (protoTrack : list nat)
    (trackSourceLinks : list A) : Prop :=
  Forall2 (λ hitIndex sourceLink, sourceLinks !! hitIndex = Some sourceLink)
          protoTrack trackSourceLinks.

(** A proto track with a hit index that names no source link. *)
Definition invalidHit {A : Type} (sourceLinks : list A) (protoTracks : list (list nat))
    (itrack hitIndex : nat) : Prop :=
  ∃ protoTrack, protoTracks !! itrack = Some protoTrack ∧ hitIndex ∈ protoTrack ∧
                length sourceLinks ≤ hitIndex.

(* ================================================================== *)
(** * Facts about the matrix operations *)
(* ================================================================== *)

Section EigenFacts.
Context {F : Type} `{ScalarLaws F}.









End EigenFacts.

(** The guarded accesses keep the dimensions. *)
Section GuardedDims.
Context {F : Type} `{Scalar F}.

Lemma addBlockAt_dims (m : Matrix F) r c h w (src : Matrix F) sr sc (m' : Matrix F) :
  addBlockAt m r c h w src sr sc = Some m' → rows m' = rows m ∧ cols m' = cols m.
Proof.
  unfold addBlockAt. destruct (_ && _); [|discriminate].
  intros [= <-]. split; reflexivity.
Qed.

Lemma addSegmentAt_dims (v : Vector F) p n (src : Vector F) sp (v' : Vector F) :
  addSegmentAt v p n src sp = Some v' → vsize v' = vsize v.
Proof.
  unfold addSegmentAt. destruct (_ && _); [|discriminate].
  intros [= <-]. reflexivity.
Qed.

End GuardedDims.

(** ** The laws hold in exact arithmetic *)

#[global] Instance Qc_ScalarLaws : ScalarLaws Qc.
Proof.
  refine {| same := eq; finite := λ _, True |}; simpl; intros; subst;
    try exact I; try reflexivity; ring.
Defined.

(** ** The laws hold on doubles *)

Lemma sameSF_refl x : sameSF x x.
Proof. left. reflexivity. Qed.

Lemma sameSF_sym x y : sameSF x y → sameSF y x.
Proof. intros [->|Hz]; [left; reflexivity|right]. destruct x, y; tauto. Qed.

Lemma sameSF_trans x y z : sameSF x y → sameSF y z → sameSF x z.
Proof.
  intros [->|Hxy] [->|Hyz]; try (left; reflexivity); try (right; assumption).
  right. destruct x, y, z; tauto.
Qed.

Lemma sameSF_zero x : sameSF x (Prim2SF 0%float) ↔
                      match x with S754_zero _ => True | _ => False end.
Proof.
  change (Prim2SF 0%float) with (S754_zero false). split.
  - intros [->|Hz]; [exact I|]. destruct x; tauto.
  - intros Hz. right. destruct x; tauto.
Qed.

(** Rounding carries the sign along. *)
Lemma binary_round_aux_opp prec emax s m e l :
  binary_round_aux prec emax (negb s) m e l
  = SFopp (binary_round_aux prec emax s m e l).
Proof.
  unfold binary_round_aux.
  destruct (shr_fexp prec emax m e l) as [mrs e1].
  destruct (shr_fexp prec emax _ e1 loc_Exact) as [mrs2 e2].
  destruct (shr_m mrs2); simpl; [reflexivity| |reflexivity].
  destruct (Z.leb _ _); reflexivity.
Qed.

Lemma binary_round_opp prec emax s m e :
  binary_round prec emax (negb s) m e = SFopp (binary_round prec emax s m e).
Proof.
  unfold binary_round. destruct (shl_align _ _ _) as [mz ez].
  apply binary_round_aux_opp.
Qed.

Lemma binary_normalize_opp prec emax m e :
  sameSF (binary_normalize prec emax (- m) e false)
         (SFopp (binary_normalize prec emax m e false)).
Proof.
  destruct m as [|p|p]; simpl.
  - right. exact I.
  - left. apply (binary_round_opp prec emax false).
  - left. apply (binary_round_opp prec emax true).
Qed.

Lemma cond_Zopp_negb s m : cond_Zopp (negb s) m = (- cond_Zopp s m)%Z.
Proof. destruct s; simpl; lia. Qed.

Lemma SFadd_opp prec emax x y :
  sameSF (SFadd prec emax (SFopp x) (SFopp y)) (SFopp (SFadd prec emax x y)).
Proof.
  destruct x as [sx|sx| |sx mx ex], y as [sy|sy| |sy my ey]; simpl;
    try (left; reflexivity);
    try (destruct sx, sy; simpl; ((left; reflexivity) || (right; exact I))).
  rewrite !cond_Zopp_negb, <- Z.opp_add_distr. apply binary_normalize_opp.
Qed.

Lemma SFmul_opp_r prec emax x y :
  SFmul prec emax x (SFopp y) = SFopp (SFmul prec emax x y).
Proof.
  destruct x as [sx|sx| |sx mx ex], y as [sy|sy| |sy my ey]; simpl;
    try reflexivity; try (destruct sx, sy; reflexivity).
  replace (xorb sx (negb sy)) with (negb (xorb sx sy)) by (destruct sx, sy; reflexivity).
  apply binary_round_aux_opp.
Qed.

Lemma SFadd_same_l prec emax x x' y :
  sameSF x x' → sameSF (SFadd prec emax x y) (SFadd prec emax x' y).
Proof.
  intros [->|Hz]; [left; reflexivity|].
  destruct x as [sx|sx| |sx mx ex], x' as [sx'|sx'| |sx' mx' ex']; try tauto.
  destruct y as [sy|sy| |sy my ey]; simpl; try (left; reflexivity).
  destruct sx, sx', sy; simpl; ((left; reflexivity) || (right; exact I)).
Qed.

Lemma SFopp_same x x' : sameSF x x' → sameSF (SFopp x) (SFopp x').
Proof.
  intros [->|Hz]; [left; reflexivity|].
  destruct x, x'; try tauto. right. exact I.
Qed.

#[global] Instance float_ScalarLaws : ScalarLaws float.
Proof.
  refine {| same := sameFloat; finite := finiteFloat |};
    unfold sameFloat, finiteFloat; simpl.
  - intros x. apply sameSF_refl.
  - intros x y. apply sameSF_sym.
  - intros x y z. apply sameSF_trans.
  - intros z Hz. apply sameSF_zero in Hz. destruct (Prim2SF z); tauto.
  - vm_compute. exact I.
  - intros z x Hz Hx. apply sameSF_zero in Hz. apply sameSF_zero.
    rewrite mul_spec. destruct (Prim2SF z), (Prim2SF x); simpl; tauto.
  - intros x z Hx Hz. apply sameSF_zero in Hz. apply sameSF_zero.
    rewrite mul_spec. destruct (Prim2SF z), (Prim2SF x); simpl; tauto.
  - intros z z' Hz Hz'. apply sameSF_zero in Hz, Hz'. apply sameSF_zero.
    rewrite add_spec.
    destruct (Prim2SF z) as [[]| | |], (Prim2SF z') as [[]| | |]; simpl; tauto.
  - intros x z Hz. apply sameSF_zero in Hz. rewrite add_spec.
    destruct (Prim2SF z) as [sz| | |]; try tauto.
    destruct (Prim2SF x) as [[]| | |]; destruct sz; simpl;
      ((left; reflexivity) || (right; exact I)).
  - intros x x' y Hx. rewrite !add_spec. apply SFadd_same_l, Hx.
  - intros x x' Hx. rewrite !opp_spec. apply SFopp_same, Hx.
  - right. vm_compute. exact I.
  - intros x y. apply Prim2SF_inj. rewrite mul_spec, !opp_spec, mul_spec.
    apply SFmul_opp_r.
  - intros x y. rewrite add_spec, !opp_spec, add_spec. apply SFadd_opp.
Defined.

(* ================================================================== *)
(** * Facts about [trackAlignmentState] *)
(* ================================================================== *)

Section EngineFacts.
Context {F : Type} `{Scalar F}.

Implicit Types (c : detail.Census) (visited : list (nat * detail.TrackState F)).
Implicit Types (idxed : gmap Surface nat).

#[local] Arguments detail.visitState : simpl never.

Lemma visitState_unfold idxed c index (ts : detail.TrackState F) :
  detail.visitState idxed c (index, ts) =
  if negb (detail.measurementFlag ts) then
    {| detail.measurementStates := detail.measurementStates c;
       detail.nSmoothedStates :=
         if detail.hasSmoothed ts then S (detail.nSmoothedStates c)
         else detail.nSmoothedStates c;
       detail.nAlignSurfaces := detail.nAlignSurfaces c;
       detail.censusSurfaces := detail.censusSurfaces c;
       detail.censusDim := detail.censusDim c |}
  else
    {| detail.measurementStates := detail.measurementStates c ++ [(index, false)];
       detail.nSmoothedStates :=
         if detail.hasSmoothed ts then S (detail.nSmoothedStates c)
         else detail.nSmoothedStates c;
       detail.nAlignSurfaces :=
         if registered idxed (detail.referenceSurface ts)
         then S (detail.nAlignSurfaces c) else detail.nAlignSurfaces c;
       detail.censusSurfaces :=
         match idxed !! detail.referenceSurface ts with
         | Some idx => detail.setFirst (detail.censusSurfaces c)
                         (detail.referenceSurface ts) idx
         | None => detail.censusSurfaces c
         end;
       detail.censusDim := detail.censusDim c + detail.calibratedSize ts |}.
Proof.
  unfold detail.visitState, registered.
  destruct (detail.measurementFlag ts); simpl; [|reflexivity].
  destruct (idxed !! detail.referenceSurface ts) as [idx|]; reflexivity.
Qed.

(** The alignability flag stored with a measurement state is always [false]. *)
Lemma census_flags idxed visited c :
  Forall (λ entry, entry.2 = false) (detail.measurementStates c) →
  Forall (λ entry, entry.2 = false)
         (detail.measurementStates (foldl (detail.visitState idxed) c visited)).
Proof.
  revert c. induction visited as [|[index ts] visited IH]; intros c Hc; [exact Hc|].
  simpl. apply IH. rewrite visitState_unfold.
  destruct (detail.measurementFlag ts); simpl; [|exact Hc].
  apply Forall_app. split; [exact Hc|]. constructor; [reflexivity|constructor].
Qed.

(** What the walk counts. *)
Lemma census_counts idxed visited c :
  let c' := foldl (detail.visitState idxed) c visited in
  detail.nAlignSurfaces c' =
    detail.nAlignSurfaces c + length (alignableSurfacesOf idxed visited) ∧
  length (detail.measurementStates c') =
    length (detail.measurementStates c) + length (measurementStatesOf visited) ∧
  detail.censusDim c' = detail.censusDim c + totalMeasurementDim visited.
Proof.
  revert c. induction visited as [|[index ts] visited IH]; intros c; simpl.
  - unfold alignableSurfacesOf, totalMeasurementDim. simpl. lia.
  - destruct (IH (detail.visitState idxed c (index, ts))) as (Ha & Hm & Hd).
    rewrite Ha, Hm, Hd, visitState_unfold.
    unfold alignableSurfacesOf, totalMeasurementDim, measurementStatesOf. simpl.
    destruct (detail.measurementFlag ts); simpl.
    + destruct (registered idxed (detail.referenceSurface ts)); simpl;
        rewrite ?length_app; simpl; lia.
    + lia.
Qed.

(** The indices stored with the measurement states are those of the
    measurement states of the walk, in the order of the walk. *)
Lemma census_indices idxed visited c :
  (detail.measurementStates (foldl (detail.visitState idxed) c visited)).*1 =
  (detail.measurementStates c).*1 ++ (measurementStatesOf visited).*1.
Proof.
  revert c. induction visited as [|[index ts] visited IH]; intros c; simpl.
  - symmetry. apply app_nil_r.
  - rewrite IH, visitState_unfold. unfold measurementStatesOf. simpl.
    destruct (detail.measurementFlag ts); simpl; [|reflexivity].
    rewrite fmap_app, <- app_assoc. reflexivity.
Qed.

(** Every state of a walk is held by the trajectory at its index. *)
Lemma visitFrom_lookup fuel (multiTraj : detail.MultiTrajectory F) i index ts :
  (index, ts) ∈ detail.visitFrom fuel multiTraj i →
  detail.getTrackState multiTraj index = Some ts.
Proof.
  revert i. induction fuel as [|fuel IH]; intros i; simpl; [by rewrite elem_of_nil|].
  destruct (detail.getTrackState multiTraj i) as [ts'|] eqn:Hi; [|by rewrite elem_of_nil].
  rewrite elem_of_cons. intros [Heq|Hin].
  - injection Heq as -> ->. exact Hi.
  - destruct (detail.previous ts') as [p|]; [|by apply elem_of_nil in Hin].
    exact (IH p Hin).
Qed.

(** ** The filling loop keeps the dimensions *)

Lemma fillCovarianceRow_dims (src : Matrix F) rowIndices parDim rowParams row
    colStates iColState (target m : Matrix F) :
  detail.fillCovarianceRow src rowIndices parDim rowParams row colStates
    iColState target = Some m →
  rows m = rows target ∧ cols m = cols target.
Proof.
  revert iColState target.
  induction colStates as [|[col flag] rest IH]; intros iColState target; simpl.
  - intros [= <-]. split; reflexivity.
  - destruct (rowIndices !! row) as [r|]; simpl; [|discriminate].
    destruct (rowIndices !! col) as [c0|]; simpl; [|discriminate].
    destruct (blockAt src r c0 _ _) as [correlation|]; simpl; [|discriminate].
    intros Hm. apply IH in Hm. exact Hm.
Qed.

Lemma fillState_dims (multiTraj : detail.MultiTrajectory F) src rowIndices parDim
    allStates (f f' : detail.Fill F) entry :
  detail.fillState multiTraj src rowIndices parDim allStates f entry = Some f' →
  fillDims f' = fillDims f.
Proof.
  destruct entry as [row flag]. unfold detail.fillState.
  destruct (detail.getTrackState multiTraj row) as [state|]; simpl; [|discriminate].
  destruct flag; simpl.
  - destruct (detail.fillSurfaces f !! detail.referenceSurface state); simpl;
      [|discriminate].
    destruct (detail.fillCovarianceRow _ _ _ _ _ _ _ _) as [cov|] eqn:Hcov; simpl;
      [|discriminate].
    intros [= <-]. apply fillCovarianceRow_dims in Hcov as [Hr Hc].
    unfold fillDims. simpl. rewrite Hr, Hc. reflexivity.
  - destruct (detail.fillCovarianceRow _ _ _ _ _ _ _ _) as [cov|] eqn:Hcov; simpl;
      [|discriminate].
    intros [= <-]. apply fillCovarianceRow_dims in Hcov as [Hr Hc].
    unfold fillDims. simpl. rewrite Hr, Hc. reflexivity.
Qed.

Lemma fillStates_dims (multiTraj : detail.MultiTrajectory F) src rowIndices parDim
    allStates todo (f f' : detail.Fill F) :
  detail.fillStates multiTraj src rowIndices parDim allStates f todo = Some f' →
  fillDims f' = fillDims f.
Proof.
  revert f. induction todo as [|entry rest IH]; intros f; simpl.
  - intros [= <-]. reflexivity.
  - destruct (detail.fillState _ _ _ _ _ f entry) as [f1|] eqn:H1; simpl;
      [|discriminate].
    intros Hrest. rewrite (IH _ Hrest). exact (fillState_dims _ _ _ _ _ _ _ _ H1).
Qed.

End EngineFacts.

Section EngineShape.
Context {F : Type} `{Scalar F}.

(** What a returned alignment state is made of. *)
Lemma trackAlignmentState_shape (inverse : Matrix F → Matrix F)
    (multiTraj : detail.MultiTrajectory F) (entryIndex : nat)
    (globalTrackParamsCov : Matrix F * gmap nat nat)
    (idxed : gmap Surface nat) (st : detail.TrackAlignmentState F) :
  detail.trackAlignmentState inverse multiTraj entryIndex globalTrackParamsCov
    idxed = Some st →
  let c := detail.takeCensus multiTraj entryIndex idxed in
  detail.alignmentDof st = eAlignmentParametersSize * detail.nAlignSurfaces c ∧
  detail.measurementDim st = detail.censusDim c ∧
  mnull (detail.alignmentToResidualDerivative st) ∧
  ((detail.alignmentToChi2Derivative st = emptyVector ∧
    detail.alignmentToChi2SecondDerivative st = emptyMatrix) ∨
   (detail.alignmentToChi2Derivative st =
      mvmul (detail.chi2DerivativeFactor
               (detail.alignmentToResidualDerivative st)
               (inverse (detail.measurementCovariance st))
               (detail.residualCovariance st))
            (detail.residual st) ∧
    detail.alignmentToChi2SecondDerivative st =
      mmul (detail.chi2DerivativeFactor
              (detail.alignmentToResidualDerivative st)
              (inverse (detail.measurementCovariance st))
              (detail.residualCovariance st))
           (detail.alignmentToResidualDerivative st))) ∧
  (detail.nAlignSurfaces c ≠ 0 →
   detail.trackParametersDim st =
     eBoundParametersSize * length (detail.measurementStates c) ∧
   rows (detail.projectionMatrix st) = detail.measurementDim st ∧
   cols (detail.projectionMatrix st) = detail.trackParametersDim st ∧
   rows (detail.trackParametersCovariance st) = detail.trackParametersDim st ∧
   cols (detail.trackParametersCovariance st) = detail.trackParametersDim st ∧
   rows (detail.measurementCovariance st) = detail.measurementDim st ∧
   cols (detail.measurementCovariance st) = detail.measurementDim st ∧
   vsize (detail.residual st) = detail.measurementDim st).
Proof.
  intros Hst c. unfold detail.trackAlignmentState in Hst. fold c in Hst.
  destruct (detail.nAlignSurfaces c =? 0) eqn:Hn.
  - apply Nat.eqb_eq in Hn. injection Hst as <-. simpl.
    rewrite Hn. repeat split; try (intros; reflexivity); try lia.
    left. split; reflexivity.
  - destruct globalTrackParamsCov as [src rowIndices].
    destruct (detail.fillStates _ _ _ _ _ _ _) as [f|] eqn:Hf; simpl in Hst;
      [|discriminate].
    injection Hst as <-. simpl.
    apply fillStates_dims in Hf. unfold fillDims in Hf. simpl in Hf.
    injection Hf as Hvr Hvc Hpr Hpc Hr Hcr Hcc.
    repeat split; try (intros; reflexivity); try assumption.
    right. split; reflexivity.
Qed.


(** The engine returns a state as soon as the covariance holds the blocks
    of every measurement state of the walk: the flag is never set, so [at]
    on the aligned surfaces is never reached, and the states are looked up
    at the indices the walk found them at. *)
Lemma fillCovarianceRow_returns (src : Matrix F) (rowIndices : gmap nat nat)
    parDim rowParams row colStates iColState (target : Matrix F) :
  indexed src rowIndices row →
  Forall (λ entry, indexed src rowIndices entry.1) colStates →
  is_Some (detail.fillCovarianceRow src rowIndices parDim rowParams row
             colStates iColState target).
Proof.
  intros (r & Hr & Hrr & _). revert iColState target.
  induction colStates as [|[col flag] rest IH]; intros iColState target Hall; simpl.
  - eexists. reflexivity.
  - apply Forall_cons in Hall as [(c0 & Hc & _ & Hcc) Hrest]. simpl in Hc.
    rewrite Hr, Hc. simpl. unfold blockAt, blockInside.
    rewrite (proj2 (Nat.leb_le _ _) Hrr), (proj2 (Nat.leb_le _ _) Hcc). simpl.
    apply IH, Hrest.
Qed.

Lemma fillStates_returns (multiTraj : detail.MultiTrajectory F) (src : Matrix F)
    (rowIndices : gmap nat nat) parDim allStates todo (f : detail.Fill F) :
  Forall (λ entry, indexed src rowIndices entry.1) allStates →
  Forall (λ entry, indexed src rowIndices entry.1 ∧ entry.2 = false ∧
                   is_Some (detail.getTrackState multiTraj entry.1)) todo →
  is_Some (detail.fillStates multiTraj src rowIndices parDim allStates f todo).
Proof.
  intros Hall. revert f.
  induction todo as [|[row flag] rest IH]; intros f Htodo; simpl.
  - eexists. reflexivity.
  - apply Forall_cons in Htodo as [(Hrow & Hflag & [state Hstate]) Hrest].
    simpl in Hrow, Hflag, Hstate. subst flag.
    unfold detail.fillState. rewrite Hstate. simpl.
    destruct (fillCovarianceRow_returns src rowIndices parDim
                (detail.iParams f - eBoundParametersSize) row allStates 0
                (detail.fillTrackParametersCovariance f) Hrow Hall) as [cov Hcov].
    rewrite Hcov. simpl. apply IH, Hrest.
Qed.

Lemma trackAlignmentState_returns (inverse : Matrix F → Matrix F)
    (multiTraj : detail.MultiTrajectory F) (entryIndex : nat)
    (src : Matrix F) (rowIndices : gmap nat nat) (idxed : gmap Surface nat) :
  (∀ index ts, (index, ts) ∈ detail.visitBackwards multiTraj entryIndex →
               detail.measurementFlag ts = true →
               indexed src rowIndices index) →
  is_Some (detail.trackAlignmentState inverse multiTraj entryIndex
             (src, rowIndices) idxed).
Proof.
  intros Hcover. unfold detail.trackAlignmentState.
  set (c := detail.takeCensus multiTraj entryIndex idxed).
  destruct (detail.nAlignSurfaces c =? 0); [eexists; reflexivity|].
  assert (Hidx : (detail.measurementStates c).*1 =
                 (measurementStatesOf (detail.visitBackwards multiTraj entryIndex)).*1).
  { unfold c, detail.takeCensus. rewrite census_indices. reflexivity. }
  assert (Hflags : Forall (λ entry, entry.2 = false) (detail.measurementStates c)).
  { unfold c, detail.takeCensus. apply census_flags. constructor. }
  assert (Hin : ∀ entry, entry ∈ detail.measurementStates c →
            indexed src rowIndices entry.1 ∧
            is_Some (detail.getTrackState multiTraj entry.1)).
  { intros entry Hentry.
    assert (Hfst : entry.1 ∈ (detail.measurementStates c).*1)
      by (apply list_elem_of_fmap; eexists; split; [reflexivity|exact Hentry]).
    rewrite Hidx in Hfst. apply list_elem_of_fmap in Hfst as ([index ts] & Heq & Hvis).
    simpl in Heq. unfold measurementStatesOf in Hvis.
    apply list_elem_of_In, filter_In in Hvis as [Hvis Hflag].
    apply list_elem_of_In in Hvis. simpl in Hflag. rewrite Heq. split.
    - exact (Hcover index ts Hvis Hflag).
    - eexists. exact (visitFrom_lookup _ _ _ _ _ Hvis). }
  destruct (fillStates_returns multiTraj src rowIndices
              (eBoundParametersSize * length (detail.measurementStates c))
              (detail.measurementStates c) (detail.measurementStates c)
              {| detail.iMeasurement := detail.censusDim c;
                 detail.iParams := eBoundParametersSize * length (detail.measurementStates c);
                 detail.iSurface := detail.nAlignSurfaces c;
                 detail.fillMeasurementCovariance := mzero (detail.censusDim c) (detail.censusDim c);
                 detail.fillProjectionMatrix :=
                   mzero (detail.censusDim c)
                         (eBoundParametersSize * length (detail.measurementStates c));
                 detail.fillResidual := vzero (detail.censusDim c);
                 detail.fillTrackParametersCovariance :=
                   mzero (eBoundParametersSize * length (detail.measurementStates c))
                         (eBoundParametersSize * length (detail.measurementStates c));
                 detail.fillSurfaces := detail.censusSurfaces c |})
    as [f Hf].
  - apply Forall_forall. intros entry Hentry. apply (Hin entry Hentry).
  - apply Forall_forall. intros entry Hentry.
    destruct (Hin entry Hentry) as [Hrow Hstate]. repeat split; try assumption.
    rewrite Forall_forall in Hflags. exact (Hflags entry Hentry).
  - rewrite Hf. simpl. eexists. reflexivity.
Qed.

End EngineShape.

(* ================================================================== *)
(** * The derivative of the residual is never filled *)
(* ================================================================== *)

Section VanishingDerivatives.
Context {F : Type} `{ScalarLaws F}.





End VanishingDerivatives.

(** ** On doubles *)






(* ================================================================== *)
(** * Degrees of freedom and dimensions of a track's alignment state *)
(* ================================================================== *)

Section Dimensions.
Context {F : Type} `{Scalar F}.

Lemma takeCensus_counts (multiTraj : detail.MultiTrajectory F) (entryIndex : nat)
    (idxed : gmap Surface nat) :
  let visited := detail.visitBackwards multiTraj entryIndex in
  let c := detail.takeCensus multiTraj entryIndex idxed in
  detail.nAlignSurfaces c = length (alignableSurfacesOf idxed visited) ∧
  length (detail.measurementStates c) = length (measurementStatesOf visited) ∧
  detail.censusDim c = totalMeasurementDim visited.
Proof.
  intros visited c.
  destruct (census_counts idxed visited detail.census0) as (Ha & Hm & Hd).
  exact (conj Ha (conj Hm Hd)).
Qed.

(** C3, amended.  The [alignmentDof] of the returned state is six times
    the number of measurement states of the walk whose reference surface is
    registered for alignment: a surface that carries [k] measurements on
    the track counts [k] times, as the comment above the function says
    ("m of them are on alignable surface").  When no alignable surface
    carries more than one measurement, this is six times the number of
    distinct alignable surfaces carrying a measurement. *)
Theorem C3_alignmentDof_counts_measurements (inverse : Matrix F → Matrix F)
    (multiTraj : detail.MultiTrajectory F) (entryIndex : nat)
    (globalTrackParamsCov : Matrix F * gmap nat nat)
    (idxed : gmap Surface nat) (st : detail.TrackAlignmentState F) :
  detail.trackAlignmentState inverse multiTraj entryIndex globalTrackParamsCov
    idxed = Some st →
  let visited := detail.visitBackwards multiTraj entryIndex in
  detail.alignmentDof st = 6 * length (alignableSurfacesOf idxed visited) ∧
  (NoDup (alignableSurfacesOf idxed visited) →
   detail.alignmentDof st = 6 * size (distinctAlignableSurfaces idxed visited)).
Proof.
  intros Hst visited. apply trackAlignmentState_shape in Hst as (Hdof & _).
  destruct (takeCensus_counts multiTraj entryIndex idxed) as (Ha & _).
  rewrite Ha in Hdof. fold visited in Hdof. split; [exact Hdof|].
  intros Hnodup. unfold distinctAlignableSurfaces.
  rewrite size_list_to_set by exact Hnodup. exact Hdof.
Qed.

(** C9, amended.  For a track with at least one measurement on an
    alignable surface, the total track-parameter dimension is six times
    the number of measurement states (one bound-parameter block per
    measurement state), not six times the measurement dimension; the
    projection matrix has [measurementDim] rows and that many columns, and
    the track parameters covariance is square of that dimension. *)
Theorem C9_one_parameter_block_per_state (inverse : Matrix F → Matrix F)
    (multiTraj : detail.MultiTrajectory F) (entryIndex : nat)
    (globalTrackParamsCov : Matrix F * gmap nat nat)
    (idxed : gmap Surface nat) (st : detail.TrackAlignmentState F) :
  detail.trackAlignmentState inverse multiTraj entryIndex globalTrackParamsCov
    idxed = Some st →
  let visited := detail.visitBackwards multiTraj entryIndex in
  alignableSurfacesOf idxed visited ≠ [] →
  detail.trackParametersDim st = 6 * length (measurementStatesOf visited) ∧
  detail.measurementDim st = totalMeasurementDim visited ∧
  rows (detail.projectionMatrix st) = detail.measurementDim st ∧
  cols (detail.projectionMatrix st) = detail.trackParametersDim st ∧
  rows (detail.trackParametersCovariance st) = detail.trackParametersDim st ∧
  cols (detail.trackParametersCovariance st) = detail.trackParametersDim st.
Proof.
  intros Hst visited Hsome.
  apply trackAlignmentState_shape in Hst as (_ & Hdim & _ & _ & Hdims).
  destruct (takeCensus_counts multiTraj entryIndex idxed) as (Ha & Hm & Hd).
  fold visited in Ha, Hm, Hd.
  destruct Hdims as (Hpar & Hpr & Hpc & Hcr & Hcc & _).
  { rewrite Ha. destruct (alignableSurfacesOf idxed visited); [congruence|]. simpl. lia. }
  rewrite Hm in Hpar. rewrite Hd in Hdim.
  repeat split; assumption.
Qed.

End Dimensions.

(** Two hits on the same aligned surface: twelve degrees of freedom for one
    distinct surface. *)
Lemma C3_double_hit_counterexample :
  ∃ st : detail.TrackAlignmentState float,
    Telescope.stateOfTrack 1 Telescope.doubleHit = Some st ∧
    detail.alignmentDof st = 12 ∧
    size (distinctAlignableSurfaces
            (FW.idxedAlignSurfacesOf (F:=float) Telescope.telescope (seq 0 1))
            (detail.visitBackwards (Telescope.trackOf (F:=float) Telescope.doubleHit) 1)) = 1 ∧
    detail.alignmentDof st ≠
      6 * size (distinctAlignableSurfaces
                  (FW.idxedAlignSurfacesOf (F:=float) Telescope.telescope (seq 0 1))
                  (detail.visitBackwards (Telescope.trackOf (F:=float) Telescope.doubleHit) 1)).
Proof.
  assert (Hdof : option_map detail.alignmentDof
                   (Telescope.stateOfTrack (F:=float) 1 Telescope.doubleHit)
                 = Some 12) by (vm_compute; reflexivity).
  assert (Hsize : size (distinctAlignableSurfaces
                    (FW.idxedAlignSurfacesOf (F:=float) Telescope.telescope (seq 0 1))
                    (detail.visitBackwards (Telescope.trackOf (F:=float) Telescope.doubleHit) 1))
                  = 1) by (vm_compute; reflexivity).
  destruct (Telescope.stateOfTrack 1 Telescope.doubleHit) as [st|];
    [|discriminate Hdof].
  injection Hdof as Hdof. exists st. rewrite Hsize, Hdof.
  repeat split. lia.
Qed.

Lemma C3_alignmentDof_counts_measurements_witness :
  ∃ st : detail.TrackAlignmentState float,
    Telescope.stateOfTrack 2 Telescope.doubleHit = Some st ∧
    detail.alignmentDof st =
      6 * length (alignableSurfacesOf
                    (FW.idxedAlignSurfacesOf (F:=float) Telescope.telescope (seq 0 2))
                    (detail.visitBackwards (Telescope.trackOf (F:=float) Telescope.doubleHit) 1)).
Proof.
  unfold Telescope.stateOfTrack, Telescope.stateOfTrackWith.
  destruct (detail.trackAlignmentState _ _ _ _ _) as [st|] eqn:Hst;
    [|discriminate Hst].
  exists st. split; [reflexivity|].
  exact (proj1 (C3_alignmentDof_counts_measurements _ _ _ _ _ _ Hst)).
Defined.

(** One two-dimensional measurement: six track parameters, not twelve. *)
Lemma C9_one_hit_counterexample :
  ∃ st : detail.TrackAlignmentState float,
    Telescope.stateOfTrack 1 Telescope.oneHit = Some st ∧
    detail.alignmentDof st = 6 ∧
    detail.measurementDim st = 2 ∧
    detail.trackParametersDim st = 6 ∧
    cols (detail.projectionMatrix st) = 6 ∧
    cols (detail.trackParametersCovariance st) = 6 ∧
    detail.trackParametersDim st ≠ 6 * detail.measurementDim st.
Proof.
  assert (Hdims : option_map (λ st, (detail.alignmentDof st, detail.measurementDim st,
                                     detail.trackParametersDim st,
                                     cols (detail.projectionMatrix st),
                                     cols (detail.trackParametersCovariance st)))
                    (Telescope.stateOfTrack (F:=float) 1 Telescope.oneHit)
                  = Some (6, 2, 6, 6, 6)) by (vm_compute; reflexivity).
  destruct (Telescope.stateOfTrack 1 Telescope.oneHit) as [st|];
    [|discriminate Hdims].
  injection Hdims as Hdof Hdim Hpar Hcols Hcov. exists st.
  rewrite Hdof, Hdim, Hpar, Hcols, Hcov. repeat split. lia.
Qed.

Lemma C9_one_parameter_block_per_state_witness :
  ∃ st : detail.TrackAlignmentState float,
    Telescope.stateOfTrack 1 Telescope.doubleHit = Some st ∧
    detail.trackParametersDim st = 12 ∧
    cols (detail.projectionMatrix st) = detail.trackParametersDim st.
Proof.
  unfold Telescope.stateOfTrack, Telescope.stateOfTrackWith.
  destruct (detail.trackAlignmentState _ _ _ _ _) as [st|] eqn:Hst;
    [|discriminate Hst].
  exists st. split; [reflexivity|].
  pose proof (C9_one_parameter_block_per_state _ _ _ _ _ _ Hst) as P.
  split; [exact (proj1 (P ltac:(vm_compute; discriminate)))
         |exact (proj1 (proj2 (proj2 (proj2 (P ltac:(vm_compute; discriminate))))))].
Defined.

(** The dimensions checked by the unit test [Alignment_zero_field] of the
    repository, on the six-layer track. *)
Lemma Alignment_zero_field_dimensions :
  option_map (λ st, [ detail.measurementDim st;
                      detail.trackParametersDim st;
                      detail.alignmentDof st;
                      size (detail.alignedSurfaces st);
                      rows (detail.measurementCovariance st);
                      rows (detail.trackParametersCovariance st);
                      rows (detail.projectionMatrix st);
                      cols (detail.projectionMatrix st);
                      vsize (detail.residual st);
                      rows (detail.residualCovariance st);
                      vsize (detail.alignmentToChi2Derivative st);
                      rows (detail.alignmentToChi2SecondDerivative st) ])
    (Telescope.stateOfTrackWith (F:=float) Telescope.alignedLayers
       Telescope.sixLayers)
  = Some [12; 36; 30; 5; 12; 36; 12; 36; 12; 12; 30; 30].
Proof. vm_compute. reflexivity. Qed.

(* ================================================================== *)
(** * Facts about the driver *)
(* ================================================================== *)

Section DriverFacts.
Context {F : Type} `{Scalar F} (X : FW.Externals F).

Implicit Types (e : FW.Env X) (s : FW.Sums F) (idxed : gmap Surface nat).

(** ** Sequencing *)

Lemma bind_returns {A B} (m : FW.M X A) (k : A → FW.M X B) e a e1 :
  m e = FW.Returns a e1 → (m ≫= k) e = k a e1.
Proof. intros Hm. unfold mbind, FW.M_bind. rewrite Hm. reflexivity. Qed.

Lemma bind_inv {A B} (m : FW.M X A) (k : A → FW.M X B) e b e' :
  (m ≫= k) e = FW.Returns b e' →
  ∃ a e1, m e = FW.Returns a e1 ∧ k a e1 = FW.Returns b e'.
Proof.
  unfold mbind, FW.M_bind. destruct (m e) as [a e1|]; [|discriminate].
  intros Hk. exists a, e1. split; [reflexivity|exact Hk].
Qed.

Lemma logMsg_returns msg e : FW.logMsg X msg e = FW.Returns tt (withLog e [msg]).
Proof. reflexivity. Qed.

Lemma withLog_app e l1 l2 : withLog (withLog e l1) l2 = withLog e (l1 ++ l2).
Proof. unfold withLog. simpl. rewrite <- app_assoc. reflexivity. Qed.

Lemma sameGeometry_refl e : sameGeometry e e.
Proof. split; reflexivity. Qed.

Lemma sameGeometry_trans e1 e2 e3 :
  sameGeometry e1 e2 → sameGeometry e2 e3 → sameGeometry e1 e3.
Proof. intros [Hw1 Hc1] [Hw2 Hc2]. split; congruence. Qed.

Lemma sameGeometry_withLog e msgs : sameGeometry e (withLog e msgs).
Proof. split; reflexivity. Qed.

(** ** The indexed surfaces *)

Lemma indexSurfaces_bound (elements : list Element) (i0 : nat) idxed :
  (∀ surface i, idxed !! surface = Some i → i < i0) →
  ∀ surface i, FW.indexSurfaces X elements i0 idxed !! surface = Some i →
               i < i0 + length elements.
Proof.
  revert i0 idxed. induction elements as [|element rest IH]; intros i0 idxed Hb; simpl.
  - intros surface i Hi. apply Hb in Hi. lia.
  - intros surface i Hi. apply IH in Hi; [lia|].
    intros s j. destruct (idxed !! FW.surfaceOf X element) eqn:Hs.
    + intros Hj. apply Hb in Hj. lia.
    + destruct (decide (FW.surfaceOf X element = s)) as [->|Hne].
      * rewrite lookup_insert_eq. intros [= <-]. lia.
      * rewrite lookup_insert_ne by exact Hne. intros Hj. apply Hb in Hj. lia.
Qed.


(** ** Evaluating and accumulating tracks leaves the geometry alone *)

Lemma evaluate_frame sourcelinks sParameters fitOpts idxed alignMask e r e' :
  FW.evaluateTrackAlignmentState X sourcelinks sParameters fitOpts idxed alignMask e
    = FW.Returns r e' →
  sameGeometry e e'.
Proof.
  unfold FW.evaluateTrackAlignmentState. intros Hev.
  apply bind_inv in Hev as (w & e1 & Hw & Hev).
  injection Hw as _ <-.
  destruct (FW.fit X w sourcelinks sParameters fitOpts) as [[fitted tip]|err].
  - apply bind_inv in Hev as (st & e2 & Hst & Hev).
    destruct (detail.trackAlignmentState _ _ _ _ _); [|discriminate].
    injection Hst as _ <-.
    destruct (detail.alignmentDof st =? 0).
    + apply bind_inv in Hev as ([] & e3 & Hlog & Hev).
      injection Hlog as <-. injection Hev as _ <-. apply sameGeometry_withLog.
    + injection Hev as _ <-. apply sameGeometry_refl.
  - apply bind_inv in Hev as ([] & e3 & Hlog & Hev).
    injection Hlog as <-. injection Hev as _ <-. apply sameGeometry_withLog.
Qed.

Lemma accumulateTrack_frame starts fitOpts idxed alignMask iTraj sourcelinks s e s' e' :
  FW.accumulateTrack X starts fitOpts idxed alignMask iTraj sourcelinks s e
    = FW.Returns s' e' →
  sameGeometry e e'.
Proof.
  unfold FW.accumulateTrack. intros Hacc.
  apply bind_inv in Hacc as (sp & e1 & Hsp & Hacc).
  destruct (starts !! iTraj); [|discriminate]. injection Hsp as _ <-.
  apply bind_inv in Hacc as (r & e2 & Hev & Hacc).
  apply evaluate_frame in Hev.
  destruct r as [st|err].
  - unfold FW.liftOption in Hacc.
    destruct (FW.addTrack X st s); [|discriminate].
    injection Hacc as _ <-. exact Hev.
  - apply bind_inv in Hacc as ([] & e3 & Hlog & Hacc).
    injection Hlog as <-. injection Hacc as _ <-.
    eapply sameGeometry_trans; [exact Hev|apply sameGeometry_withLog].
Qed.

Lemma accumulateTracks_frame starts fitOpts idxed alignMask trajectories iTraj s e s' e' :
  FW.accumulateTracks X starts fitOpts idxed alignMask iTraj trajectories s e
    = FW.Returns s' e' →
  sameGeometry e e'.
Proof.
  revert iTraj s e. induction trajectories as [|sourcelinks rest IH];
    intros iTraj s e; simpl.
  - intros [= _ <-]. apply sameGeometry_refl.
  - intros Hacc. apply bind_inv in Hacc as (s1 & e1 & H1 & Hrest).
    apply accumulateTrack_frame in H1. apply IH in Hrest.
    eapply sameGeometry_trans; eassumption.
Qed.

End DriverFacts.

Section SlotFacts.
Context {F : Type} `{Scalar F} (X : FW.Externals F).

Implicit Types (idxed : gmap Surface nat).

(** The slot of a surface is the position of the first element that
    carries it. *)
Lemma indexSurfaces_lookup (elements : list Element) (i0 : nat) idxed (s : Surface) :
  FW.indexSurfaces X elements i0 idxed !! s =
  match idxed !! s with
  | Some i => Some i
  | None => (λ found, i0 + found.1)
              <$> list_find (λ element, FW.surfaceOf X element = s) elements
  end.
Proof.
  revert i0 idxed. induction elements as [|element rest IH]; intros i0 idxed.
  - simpl. destruct (idxed !! s); reflexivity.
  - cbn [FW.indexSurfaces list_find]. rewrite IH.
    destruct (decide (FW.surfaceOf X element = s)) as [Heq|Hne].
    + subst s. destruct (idxed !! FW.surfaceOf X element) as [i|] eqn:Hi.
      * rewrite Hi. reflexivity.
      * rewrite lookup_insert_eq. simpl. f_equal. lia.
    + destruct (idxed !! FW.surfaceOf X element) as [i|] eqn:Hi.
      * destruct (idxed !! s); [reflexivity|].
        destruct (list_find _ rest) as [[j el]|]; simpl; [f_equal; lia|reflexivity].
      * rewrite lookup_insert_ne by exact Hne.
        destruct (idxed !! s); [reflexivity|].
        destruct (list_find _ rest) as [[j el]|]; simpl; [f_equal; lia|reflexivity].
Qed.

Lemma slots_dom (elements : list Element) :
  dom (FW.idxedAlignSurfacesOf X elements) = list_to_set (FW.surfaceOf X <$> elements).
Proof.
  apply set_eq. intros s.
  unfold FW.idxedAlignSurfacesOf.
  rewrite elem_of_dom, elem_of_list_to_set, indexSurfaces_lookup, lookup_empty,
    list_elem_of_fmap.
  split.
  - intros [i Hi]. destruct (list_find _ elements) as [[j el]|] eqn:Hfind; [|discriminate].
    apply list_find_Some in Hfind as (Hl & Hs & _).
    exists el. split; [symmetry; exact Hs|]. apply list_elem_of_lookup. exists j. exact Hl.
  - intros (el & -> & Hin).
    destruct (list_find (λ element, FW.surfaceOf X element = FW.surfaceOf X el) elements)
      as [[j el']|] eqn:Hfind; [eexists; reflexivity|].
    apply list_find_None in Hfind. rewrite Forall_forall in Hfind.
    exfalso. exact (Hfind el Hin eq_refl).
Qed.

Lemma size_list_to_set_bound (l : list Surface) :
  size (list_to_set l : gset Surface) ≤ length l.
Proof.
  induction l as [|x l IH].
  - rewrite list_to_set_nil, size_empty. simpl. lia.
  - rewrite list_to_set_cons, size_union_alt, size_singleton. simpl.
    assert (Hless : size (list_to_set l ∖ {[x]} : gset Surface)
                    ≤ size (list_to_set l : gset Surface))
      by (apply subseteq_size, subseteq_difference_l; reflexivity).
    lia.
Qed.

(** With pairwise distinct surfaces the slots are the positions. *)
Lemma distinct_slots (elements : list Element) :
  NoDup (FW.surfaceOf X <$> elements) →
  let idxed := FW.idxedAlignSurfacesOf X elements in
  (∀ i element, elements !! i = Some element →
                idxed !! FW.surfaceOf X element = Some i) ∧
  size idxed = length elements ∧
  (∀ s i, idxed !! s = Some i → i < size idxed).
Proof.
  intros Hnodup idxed.
  assert (Hsize : size idxed = length elements).
  { rewrite <- size_dom. unfold idxed. rewrite slots_dom.
    rewrite size_list_to_set by exact Hnodup. apply length_fmap. }
  split; [|split; [exact Hsize|]].
  - intros i element Hi. unfold idxed, FW.idxedAlignSurfacesOf.
    rewrite indexSurfaces_lookup, lookup_empty.
    destruct (list_find _ elements) as [[j el]|] eqn:Hfind.
    + apply list_find_Some in Hfind as (Hj & Hs & _). simpl. f_equal.
      apply (NoDup_lookup _ j i (FW.surfaceOf X element) Hnodup).
      * rewrite list_lookup_fmap, Hj. simpl. f_equal. exact Hs.
      * rewrite list_lookup_fmap, Hi. reflexivity.
    + apply list_find_None in Hfind. rewrite Forall_forall in Hfind.
      exfalso. apply (Hfind element); [|reflexivity].
      apply list_elem_of_lookup. exists i. exact Hi.
  - intros s i Hi. rewrite Hsize.
    apply (indexSurfaces_bound X elements 0 ∅) in Hi; [exact Hi|].
    intros s' j Hj. rewrite lookup_empty in Hj. discriminate.
Qed.

End SlotFacts.

Section Accumulation.
Context {F : Type} `{Scalar F} (X : FW.Externals F).

Implicit Types (e : FW.Env X) (s : FW.Sums F) (idxed : gmap Surface nat).

(** A successful evaluation is a successful fit followed by a state of
    non-zero alignment degrees of freedom; it writes nothing. *)
Lemma evaluate_success_inv sourcelinks sParameters fitOpts idxed alignMask e st e' :
  FW.evaluateTrackAlignmentState X sourcelinks sParameters fitOpts idxed alignMask e
    = FW.Returns (FW.success st) e' →
  ∃ fitted tip,
    FW.fit X (FW.world X e) sourcelinks sParameters fitOpts
      = FW.success (fitted, tip) ∧
    detail.trackAlignmentState (FW.inverse X) fitted tip
      (FW.globalTrackParametersCovariance X fitted tip) idxed = Some st ∧
    detail.alignmentDof st ≠ 0 ∧ e' = e.
Proof.
  unfold FW.evaluateTrackAlignmentState. intros Hev.
  apply bind_inv in Hev as (w & e1 & Hw & Hev).
  injection Hw as <- <-.
  destruct (FW.fit X (FW.world X e) sourcelinks sParameters fitOpts)
    as [[fitted tip]|err].
  - apply bind_inv in Hev as (st' & e2 & Hst & Hev).
    destruct (detail.trackAlignmentState _ _ _ _ _) as [st0|] eqn:Hst0; [|discriminate].
    injection Hst as <- <-.
    destruct (detail.alignmentDof st0 =? 0) eqn:Hdof.
    + apply bind_inv in Hev as ([] & e3 & _ & Hev). discriminate.
    + injection Hev as <- <-. apply Nat.eqb_neq in Hdof.
      exists fitted, tip. repeat split; assumption.
  - apply bind_inv in Hev as ([] & e3 & _ & Hev). discriminate.
Qed.

(** A track without a measurement on a registered surface: the engine
    returns at once, with no degree of freedom. *)
Lemma trackAlignmentState_no_alignable (inverse : Matrix F → Matrix F)
    (multiTraj : detail.MultiTrajectory F) (entryIndex : nat)
    (globalTrackParamsCov : Matrix F * gmap nat nat) idxed :
  alignableSurfacesOf idxed (detail.visitBackwards multiTraj entryIndex) = [] →
  ∃ st, detail.trackAlignmentState inverse multiTraj entryIndex
          globalTrackParamsCov idxed = Some st ∧
        detail.alignmentDof st = 0.
Proof.
  intros Hnone. unfold detail.trackAlignmentState.
  destruct (takeCensus_counts multiTraj entryIndex idxed) as (Ha & _).
  rewrite Hnone in Ha. simpl in Ha. rewrite Ha. simpl.
  eexists. split; reflexivity.
Qed.

End Accumulation.


(* ================================================================== *)
(** * Tracks without alignment degrees of freedom *)
(* ================================================================== *)

Section ZeroDof.
Context {F : Type} `{Scalar F} (X : FW.Externals F).

Implicit Types (e : FW.Env X) (s : FW.Sums F) (idxed : gmap Surface nat).

Lemma evaluate_no_alignable sourcelinks sParameters fitOpts idxed alignMask e
    fitted tip :
  FW.fit X (FW.world X e) sourcelinks sParameters fitOpts
    = FW.success (fitted, tip) →
  alignableSurfacesOf idxed (detail.visitBackwards fitted tip) = [] →
  FW.evaluateTrackAlignmentState X sourcelinks sParameters fitOpts idxed alignMask e
    = FW.Returns (FW.failure (FW.AlignmentErr FW.NoAlignmentDofOnTrack))
                 (withLog e [FW.VerboseNoAlignmentDof]).
Proof.
  intros Hfit Hnone.
  destruct (trackAlignmentState_no_alignable (FW.inverse X) fitted tip
              (FW.globalTrackParametersCovariance X fitted tip) idxed Hnone)
    as (st & Hst & Hdof).
  unfold FW.evaluateTrackAlignmentState, mbind, FW.M_bind, FW.readWorld.
  rewrite Hfit, Hst. simpl. rewrite Hdof. reflexivity.
Qed.

(** C8.  A track whose fit succeeded but which has no measurement on a
    registered alignable surface: [evaluateTrackAlignmentState] returns
    the error [NoAlignmentDofOnTrack]; the loop over the tracks logs it
    and goes on with the next track, with the gradient, the second
    derivative, chi2, the measurement dimension and the chi2/ndf sum as
    they were. *)
Theorem C8_zero_dof_track_is_skipped
    (starts : list (FW.StartParameters X)) (fitOpts : FW.FitOptions X) idxed
    (alignMask : AlignmentMask) (iTraj : nat) (sourcelinks : FW.SourceLinks X)
    (rest : list (FW.SourceLinks X)) (sParameters : FW.StartParameters X)
    (fitted : detail.MultiTrajectory F) (tip : nat) s e :
  starts !! iTraj = Some sParameters →
  FW.fit X (FW.world X e) sourcelinks sParameters
    (FW.withReferenceSurface X fitOpts (FW.startSurface X sParameters))
    = FW.success (fitted, tip) →
  alignableSurfacesOf idxed (detail.visitBackwards fitted tip) = [] →
  FW.evaluateTrackAlignmentState X sourcelinks sParameters
    (FW.withReferenceSurface X fitOpts (FW.startSurface X sParameters))
    idxed alignMask e
    = FW.Returns (FW.failure (FW.AlignmentErr FW.NoAlignmentDofOnTrack))
                 (withLog e [FW.VerboseNoAlignmentDof]) ∧
  FW.accumulateTrack X starts fitOpts idxed alignMask iTraj sourcelinks s e
    = FW.Returns s (withLog e [FW.VerboseNoAlignmentDof;
                               FW.WarnEvaluationFailed iTraj]) ∧
  FW.accumulateTracks X starts fitOpts idxed alignMask iTraj (sourcelinks :: rest) s e
    = FW.accumulateTracks X starts fitOpts idxed alignMask (S iTraj) rest s
        (withLog e [FW.VerboseNoAlignmentDof; FW.WarnEvaluationFailed iTraj]).
Proof.
  intros Hstart Hfit Hnone.
  pose proof (evaluate_no_alignable _ _ _ _ alignMask _ _ _ Hfit Hnone) as Hev.
  assert (Hacc : FW.accumulateTrack X starts fitOpts idxed alignMask iTraj
                   sourcelinks s e
                 = FW.Returns s (withLog e [FW.VerboseNoAlignmentDof;
                                            FW.WarnEvaluationFailed iTraj])).
  { unfold FW.accumulateTrack. rewrite Hstart.
    unfold FW.liftOption. unfold mbind at 1, FW.M_bind at 1. simpl.
    erewrite bind_returns by exact Hev. cbv iota.
    erewrite bind_returns by apply logMsg_returns.
    rewrite withLog_app. reflexivity. }
  split; [exact Hev|]. split; [exact Hacc|].
  simpl. erewrite bind_returns by exact Hacc. reflexivity.
Qed.

End ZeroDof.

(** A track whose only hit is on surface 7, with element 0 to be aligned. *)
Lemma C8_zero_dof_track_is_skipped_witness :
  FW.accumulateTrack (F:=float) Telescope.telescope [tt] tt
    (FW.idxedAlignSurfacesOf Telescope.telescope [0]) FW.allFree 0
    Telescope.elsewhere (FW.sums0 6) Telescope.env0
  = FW.Returns (FW.sums0 6)
      (withLog Telescope.env0 [FW.VerboseNoAlignmentDof; FW.WarnEvaluationFailed 0]).
Proof.
  refine (proj1 (proj2 (C8_zero_dof_track_is_skipped Telescope.telescope [tt] tt
            (FW.idxedAlignSurfacesOf Telescope.telescope [0]) FW.allFree 0
            Telescope.elsewhere [] tt
            (Telescope.trackOf Telescope.elsewhere) 0
            (FW.sums0 6) Telescope.env0 _ _ _)));
    reflexivity.
Defined.

(* ================================================================== *)
(** * Applying the solved update *)
(* ================================================================== *)

Section SumsDims.
Context {F : Type} `{Scalar F} (X : FW.Externals F).

Implicit Types (e : FW.Env X) (s : FW.Sums F) (idxed : gmap Surface nat).

Lemma addSecondDerivativeRow_dims (st : detail.TrackAlignmentState F)
    (dstRow srcRow : nat) (columns : list (Surface * (nat * nat))) (h h' : Matrix F) :
  FW.addSecondDerivativeRow st dstRow srcRow h columns = Some h' →
  rows h' = rows h ∧ cols h' = cols h.
Proof.
  revert h. induction columns as [|[surface [dstCol srcCol]] rest IH]; intros h;
    cbn [FW.addSecondDerivativeRow].
  - intros [= <-]. split; reflexivity.
  - destruct (addBlockAt h _ _ _ _ _ _ _) as [h1|] eqn:H1; simpl; [|discriminate].
    intros Hrest. apply IH in Hrest as [-> ->].
    exact (addBlockAt_dims _ _ _ _ _ _ _ _ _ H1).
Qed.

Lemma addDerivativeRows_dims (st : detail.TrackAlignmentState F)
    (surfaces todo : list (Surface * (nat * nat)))
    (g : Vector F) (h : Matrix F) (g' : Vector F) (h' : Matrix F) :
  FW.addDerivativeRows st surfaces (g, h) todo = Some (g', h') →
  vsize g' = vsize g ∧ rows h' = rows h ∧ cols h' = cols h.
Proof.
  revert g h.
  induction todo as [|[surface [dstRow srcRow]] rest IH]; intros g h;
    cbn [FW.addDerivativeRows fst snd].
  - intros [= <- <-]. repeat split; reflexivity.
  - destruct (addSegmentAt g _ _ _ _) as [g1|] eqn:Hg; simpl; [|discriminate].
    destruct (FW.addSecondDerivativeRow st dstRow srcRow h surfaces) as [h1|] eqn:Hh;
      simpl; [|discriminate].
    intros Hrest. apply IH in Hrest as (-> & -> & ->).
    apply addSegmentAt_dims in Hg. apply addSecondDerivativeRow_dims in Hh as [Hr Hc].
    repeat split; assumption.
Qed.

(** What a track adds to the sums, field by field. *)
Lemma addTrack_inv (st : detail.TrackAlignmentState F) s s' :
  FW.addTrack X st s = Some s' →
  sumsDims s' = sumsDims s ∧
  FW.sumMeasurementDim s' = FW.sumMeasurementDim s + detail.measurementDim st ∧
  FW.sumChi2 s' = sadd (FW.sumChi2 s) (detail.chi2 st) ∧
  FW.sumChi2ONdf s' =
    sadd (FW.sumChi2ONdf s)
         (sdiv (detail.chi2 st) (of_size (detail.measurementDim st))).
Proof.
  unfold FW.addTrack, FW.addDerivatives.
  destruct (FW.addDerivativeRows st _ _ _) as [[g h]|] eqn:Hadd; simpl; [|discriminate].
  intros [= <-]. apply addDerivativeRows_dims in Hadd as (Hg & Hr & Hc).
  unfold sumsDims. simpl. rewrite Hg, Hr, Hc. repeat split; reflexivity.
Qed.

Lemma accumulateTrack_dims starts fitOpts idxed alignMask iTraj sourcelinks s e s' e' :
  FW.accumulateTrack X starts fitOpts idxed alignMask iTraj sourcelinks s e
    = FW.Returns s' e' →
  sumsDims s' = sumsDims s.
Proof.
  unfold FW.accumulateTrack. intros Hacc.
  apply bind_inv in Hacc as (sp & e1 & Hsp & Hacc).
  apply bind_inv in Hacc as (r & e2 & Hev & Hacc).
  destruct r as [st|err].
  - unfold FW.liftOption in Hacc.
    destruct (FW.addTrack X st s) as [s1|] eqn:Hadd; [|discriminate].
    injection Hacc as <- _. apply addTrack_inv in Hadd. apply Hadd.
  - apply bind_inv in Hacc as ([] & e3 & _ & Hacc).
    injection Hacc as <- _. reflexivity.
Qed.

Lemma accumulateTracks_dims starts fitOpts idxed alignMask trajectories iTraj s e s' e' :
  FW.accumulateTracks X starts fitOpts idxed alignMask iTraj trajectories s e
    = FW.Returns s' e' →
  sumsDims s' = sumsDims s.
Proof.
  revert iTraj s e. induction trajectories as [|sourcelinks rest IH];
    intros iTraj s e; simpl.
  - intros [= <- _]. reflexivity.
  - intros Hacc. apply bind_inv in Hacc as (s1 & e1 & H1 & Hrest).
    apply accumulateTrack_dims in H1. apply IH in Hrest. congruence.
Qed.

(** The summed gradient and second-derivative matrix have the dimension
    they were allocated with. *)
Lemma sumOverTracks_dims trajectories starts fitOpts detElements alignMask e s e' :
  FW.sumOverTracks X trajectories starts fitOpts detElements alignMask e
    = FW.Returns s e' →
  let alignDof := size (FW.idxedAlignSurfacesOf X detElements)
                  * eAlignmentParametersSize in
  sumsDims s = [alignDof; alignDof; alignDof].
Proof.
  unfold FW.sumOverTracks. intros Hsum. apply accumulateTracks_dims in Hsum.
  exact Hsum.
Qed.

End SumsDims.

Section Updates.
Context {F : Type} `{Scalar F} (X : FW.Externals F).

Implicit Types (e : FW.Env X) (s : FW.Sums F) (idxed : gmap Surface nat).
Implicit Types (updater : FW.AlignedTransformUpdater X).

(** The proposed transform is there exactly when the six parameters of
    the slot lie inside the delta. *)
Lemma newTransform_inside (w : FW.World X) (delta : Vector F) surface index :
  6 * index + 6 ≤ vsize delta →
  ∃ t, FW.newTransform X w delta surface index = Some t.
Proof.
  intros Hin. unfold FW.newTransform, segmentAt, segmentInside.
  unfold eAlignmentParametersSize.
  rewrite (proj2 (Nat.leb_le _ _) Hin). simpl. eexists. reflexivity.
Qed.

Lemma newTransform_inv (w : FW.World X) (delta : Vector F) surface index t :
  FW.newTransform X w delta surface index = Some t →
  6 * index + 6 ≤ vsize delta ∧ proposedFor w delta surface index t.
Proof.
  unfold FW.newTransform, segmentAt, segmentInside, eAlignmentParametersSize.
  destruct (6 * index + 6 <=? vsize delta) eqn:Hin; simpl; [|discriminate].
  intros [= <-]. apply Nat.leb_le in Hin. split; [exact Hin|].
  eexists. split; [|reflexivity].
  intros k Hk. simpl. unfold eAlignmentCenter0. reflexivity.
Qed.

(** One turn of the loop over the indexed surfaces. *)
Lemma updateTransforms_cons detElements updater delta surface index rest e element t :
  FW.newTransform X (FW.world X e) delta surface index = Some t →
  detElements !! index = Some element →
  FW.updateTransforms X detElements updater delta ((surface, index) :: rest) e =
  let e1 := afterCall e (updater element t (FW.world X e)).2 element t
                      (updater element t (FW.world X e)).1 in
  if (updater element t (FW.world X e)).1
  then FW.updateTransforms X detElements updater delta rest e1
  else FW.Returns (FW.failure (FW.AlignmentErr FW.AlignmentParametersUpdateFailure))
                  (withLog e1 [FW.ErrorElementUpdateFailed]).
Proof.
  intros Ht Hel. cbn [FW.updateTransforms].
  unfold mbind, FW.M_bind, FW.readWorld, FW.callUpdater, FW.liftOption.
  rewrite Ht, Hel. cbn [mret FW.M_ret].
  destruct (updater element _ (FW.world X e)) as [[] w]; reflexivity.
Qed.

(** A turn that returns found its parameters inside the delta and its
    element in the list. *)
Lemma updateTransforms_cons_inv detElements updater delta surface index rest e
    status e' :
  FW.updateTransforms X detElements updater delta ((surface, index) :: rest) e
    = FW.Returns status e' →
  ∃ t element,
    FW.newTransform X (FW.world X e) delta surface index = Some t ∧
    detElements !! index = Some element.
Proof.
  cbn [FW.updateTransforms].
  unfold mbind, FW.M_bind, FW.readWorld, FW.liftOption, FW.abnormal.
  destruct (FW.newTransform X (FW.world X e) delta surface index) as [t|];
    [|discriminate].
  cbn [mret FW.M_ret].
  destruct (detElements !! index) as [element|]; [|discriminate].
  intros _. exists t, element. split; reflexivity.
Qed.

(** Whenever the loop returns, it has called the updater on the elements
    of the map entries in order and stopped at the first refusal; the log
    only grows. *)
Lemma updateTransforms_inv detElements updater delta entries e status e' :
  FW.updateTransforms X detElements updater delta entries e
    = FW.Returns status e' →
  ∃ calls msgs,
    FW.updateCalls X e' = FW.updateCalls X e ++ calls ∧
    FW.logged X e' = FW.logged X e ++ msgs ∧
    calledElements calls = elementsOf detElements (take (length calls) entries) ∧
    ((status = FW.success tt ∧ Forall accepted calls ∧
      length calls = length entries) ∨
     (status = FW.failure (FW.AlignmentErr FW.AlignmentParametersUpdateFailure) ∧
      stoppedAtFirstRefusal calls)).
Proof.
  revert e. induction entries as [|[surface index] rest IH]; intros e Hrun.
  - injection Hrun as <- <-. exists [], []. rewrite !app_nil_r.
    repeat split; try reflexivity. left. repeat split. constructor.
  - destruct (updateTransforms_cons_inv _ _ _ _ _ _ _ _ _ Hrun)
      as (t & element & Ht & Hel).
    rewrite (updateTransforms_cons _ _ _ _ _ _ _ _ _ Ht Hel) in Hrun.
    cbv zeta in Hrun.
    destruct (updater element t (FW.world X e)) as [updated w] eqn:Hupd.
    cbn [fst snd] in Hrun. destruct updated.
    + apply IH in Hrun as (calls & msgs & Hcalls & Hlog & Hels & Hend).
      exists ((element, t, true) :: calls), msgs.
      split. { rewrite Hcalls. simpl. rewrite <- app_assoc. reflexivity. }
      split; [exact Hlog|]. split.
      { unfold calledElements, elementsOf in *. simpl.
        rewrite Hel. simpl. f_equal. exact Hels. }
      destruct Hend as [(-> & Hok & Hlen)|(-> & oks & bad & -> & Hoks & Hbad)].
      * left. repeat split; [constructor; [reflexivity|exact Hok]|simpl; lia].
      * right. split; [reflexivity|].
        exists ((element, t, true) :: oks), bad. repeat split; [|exact Hbad].
        constructor; [reflexivity|exact Hoks].
    + injection Hrun as <- <-.
      exists [(element, t, false)], [FW.ErrorElementUpdateFailed].
      split; [reflexivity|]. split; [reflexivity|]. split.
      { unfold calledElements, elementsOf. simpl. rewrite Hel. reflexivity. }
      right. split; [reflexivity|].
      exists [], (element, t, false). repeat split. constructor.
Qed.

(** The loop returns when every entry names an element and six parameters
    inside the delta. *)
Lemma updateTransforms_returns detElements updater delta entries e :
  Forall (λ entry, is_Some (detElements !! entry.2) ∧
                   6 * entry.2 + 6 ≤ vsize delta) entries →
  ∃ status e', FW.updateTransforms X detElements updater delta entries e
               = FW.Returns status e'.
Proof.
  revert e. induction entries as [|[surface index] rest IH]; intros e Hvalid.
  - eexists _, _. reflexivity.
  - apply Forall_cons in Hvalid as [[[element Hel] Hin] Hrest]. simpl in Hel, Hin.
    destruct (newTransform_inside (FW.world X e) delta surface index Hin) as [t Ht].
    rewrite (updateTransforms_cons _ _ _ _ _ _ _ _ _ Ht Hel). cbv zeta.
    destruct (updater element t (FW.world X e)) as [[] w]; cbn [fst snd].
    + apply IH, Hrest.
    + eexists _, _. reflexivity.
Qed.

(** The entries the loop visits are those of the map. *)
Lemma traverse_lookup {A : Type} (m : gmap Surface A) (surface : Surface) (a : A) :
  (surface, a) ∈ FW.traverse X m ↔ m !! surface = Some a.
Proof. rewrite (FW.traverse_entries X A m). apply elem_of_map_to_list. Qed.

Lemma length_traverse {A : Type} (m : gmap Surface A) :
  length (FW.traverse X m) = size m.
Proof. rewrite (FW.traverse_entries X A m). apply length_map_to_list. Qed.

(** Every index of the map names one of the elements, so
    [alignedDetElements.at(index)] does not throw. *)
Lemma traversed_slots_valid (elements : list Element) :
  Forall (λ entry, is_Some (elements !! entry.2))
         (FW.traverse X (FW.idxedAlignSurfacesOf X elements)).
Proof.
  apply Forall_forall. intros [surface i] Hin.
  apply traverse_lookup in Hin. simpl.
  apply lookup_lt_is_Some.
  apply (indexSurfaces_bound X elements 0 ∅) in Hin; [exact Hin|].
  intros s j Hj. rewrite lookup_empty in Hj. discriminate.
Qed.

(** With pairwise distinct surfaces every slot has its six parameters
    inside a vector of [6 * size] entries. *)
Lemma traversed_slots_inside (elements : list Element) (n : nat) :
  NoDup (FW.surfaceOf X <$> elements) →
  n = size (FW.idxedAlignSurfacesOf X elements) * eAlignmentParametersSize →
  Forall (λ entry, is_Some (elements !! entry.2) ∧ 6 * entry.2 + 6 ≤ n)
         (FW.traverse X (FW.idxedAlignSurfacesOf X elements)).
Proof.
  intros Hnodup ->.
  pose proof (traversed_slots_valid elements) as Hvalid.
  rewrite Forall_forall in Hvalid. apply Forall_forall. intros [surface i] Hin.
  split; [exact (Hvalid _ Hin)|].
  apply traverse_lookup in Hin. simpl.
  destruct (distinct_slots X elements Hnodup) as (_ & _ & Hbound).
  apply Hbound in Hin. unfold eAlignmentParametersSize. lia.
Qed.

(** What [updateAlignmentParameters] returns is made of the sums. *)
Lemma update_inv trajectories starts fitOpts detElements updater alignResult
    alignMask e status res e' :
  FW.updateAlignmentParameters X trajectories starts fitOpts detElements updater
    alignResult alignMask e = FW.Returns (status, res) e' →
  ∃ s e1,
    FW.sumOverTracks X trajectories starts fitOpts detElements alignMask e
      = FW.Returns s e1 ∧
    res = FW.solvedResult X alignResult
            (size (FW.idxedAlignSurfacesOf X detElements) * eAlignmentParametersSize)
            (length trajectories) s.
Proof.
  unfold FW.updateAlignmentParameters. intros Hup.
  apply bind_inv in Hup as (s & e1 & Hsum & Hup).
  apply bind_inv in Hup as ([] & e2 & _ & Hup).
  apply bind_inv in Hup as (st & e3 & _ & Hup).
  injection Hup as _ <- _. exists s, e1. split; [exact Hsum|reflexivity].
Qed.

(** The second half of the update, after the sums. *)
Lemma update_after_sums trajectories starts fitOpts detElements updater alignResult
    alignMask e s e1 :
  FW.sumOverTracks X trajectories starts fitOpts detElements alignMask e
    = FW.Returns s e1 →
  let idxed := FW.idxedAlignSurfacesOf X detElements in
  let res := FW.solvedResult X alignResult (size idxed * eAlignmentParametersSize)
               (length trajectories) s in
  let warn := if hasNaN (FW.inverse X (FW.sumChi2SecondDerivative s))
              then [FW.WarnInverseHasNaN] else [] in
  FW.updateAlignmentParameters X trajectories starts fitOpts detElements updater
    alignResult alignMask e
  = match FW.updateTransforms X detElements updater
            (FW.deltaAlignmentParameters X res) (FW.traverse X idxed)
            (withLog e1 warn) with
    | FW.Returns status e' => FW.Returns (status, res) e'
    | FW.Abnormal => FW.Abnormal
    end.
Proof.
  intros Hsum idxed res warn. unfold FW.updateAlignmentParameters.
  erewrite bind_returns by exact Hsum.
  assert (Hwarn : (if hasNaN (FW.inverse X (FW.sumChi2SecondDerivative s))
                   then FW.logMsg X FW.WarnInverseHasNaN else mret tt) e1
                  = FW.Returns tt (withLog e1 warn)).
  { unfold warn. destruct (hasNaN _); [reflexivity|].
    unfold withLog. simpl. rewrite app_nil_r. destruct e1; reflexivity. }
  erewrite bind_returns by exact Hwarn.
  fold idxed. fold res. unfold mbind, FW.M_bind.
  destruct (FW.updateTransforms _ _ _ _ _ _); reflexivity.
Qed.

(** Whenever the update returns, it has called the updater on the
    elements of the indexed surfaces in the order the map is iterated in,
    up to the first refusal. *)
Lemma update_calls_inv trajectories starts fitOpts detElements updater alignResult
    alignMask e status res e' :
  FW.updateAlignmentParameters X trajectories starts fitOpts detElements updater
    alignResult alignMask e = FW.Returns (status, res) e' →
  let idxed := FW.idxedAlignSurfacesOf X detElements in
  ∃ s e1 calls msgs,
    FW.sumOverTracks X trajectories starts fitOpts detElements alignMask e
      = FW.Returns s e1 ∧
    res = FW.solvedResult X alignResult (size idxed * eAlignmentParametersSize)
            (length trajectories) s ∧
    FW.updateCalls X e' = FW.updateCalls X e ++ calls ∧
    FW.logged X e' =
      FW.logged X e1 ++
      (if hasNaN (FW.inverse X (FW.sumChi2SecondDerivative s))
       then [FW.WarnInverseHasNaN] else []) ++ msgs ∧
    calledElements calls =
      elementsOf detElements (take (length calls) (FW.traverse X idxed)) ∧
    ((status = FW.success tt ∧ Forall accepted calls ∧ length calls = size idxed) ∨
     (status = FW.failure (FW.AlignmentErr FW.AlignmentParametersUpdateFailure) ∧
      stoppedAtFirstRefusal calls)).
Proof.
  intros Hup idxed. pose proof Hup as Hinv.
  apply update_inv in Hinv as (s & e1 & Hsum & Hres).
  pose proof (accumulateTracks_frame X _ _ _ _ _ _ _ _ _ _ Hsum) as [_ Hsame].
  rewrite (update_after_sums _ _ _ _ updater alignResult _ _ _ _ Hsum) in Hup.
  destruct (FW.updateTransforms _ _ _ _ _ _) as [status' e2|] eqn:Hrun;
    [|discriminate].
  injection Hup as <- _ <-.
  apply updateTransforms_inv in Hrun
    as (calls & msgs & Hcalls & Hlog & Hels & Hend).
  exists s, e1, calls, msgs.
  split; [exact Hsum|]. split; [exact Hres|]. split.
  { rewrite Hcalls. simpl. rewrite Hsame. reflexivity. }
  split. { rewrite Hlog. simpl. rewrite <- app_assoc. reflexivity. }
  split; [exact Hels|].
  rewrite length_traverse in Hend. exact Hend.
Qed.

(** The solved delta has one entry for each of the [6 * size] parameters. *)
Lemma delta_size trajectories starts fitOpts detElements alignMask e s e1
    (alignResult : FW.AlignmentResult X) (alignDof nTracks : nat) :
  FW.sumOverTracks X trajectories starts fitOpts detElements alignMask e
    = FW.Returns s e1 →
  vsize (FW.deltaAlignmentParameters X
           (FW.solvedResult X alignResult alignDof nTracks s))
  = size (FW.idxedAlignSurfacesOf X detElements) * eAlignmentParametersSize.
Proof.
  intros Hsum. unfold FW.solvedResult. cbn [FW.deltaAlignmentParameters vsize vneg].
  rewrite FW.solve_size.
  pose proof (sumOverTracks_dims X _ _ _ _ _ _ _ _ Hsum) as Hdims.
  cbv zeta in Hdims. unfold sumsDims in Hdims. injection Hdims as _ _ Hcols.
  exact Hcols.
Qed.

(** With pairwise distinct surfaces the update returns as soon as the sums
    over the tracks are there. *)
Lemma update_returns trajectories starts fitOpts detElements updater alignResult
    alignMask e s e1 :
  FW.sumOverTracks X trajectories starts fitOpts detElements alignMask e
    = FW.Returns s e1 →
  NoDup (FW.surfaceOf X <$> detElements) →
  ∃ status e',
    FW.updateAlignmentParameters X trajectories starts fitOpts detElements updater
      alignResult alignMask e
    = FW.Returns (status,
                  FW.solvedResult X alignResult
                    (size (FW.idxedAlignSurfacesOf X detElements)
                     * eAlignmentParametersSize)
                    (length trajectories) s) e'.
Proof.
  intros Hsum Hnodup.
  rewrite (update_after_sums _ _ _ _ updater alignResult _ _ _ _ Hsum).
  cbv zeta.
  match goal with |- context [FW.updateTransforms X _ _ ?delta ?entries ?e0] =>
    destruct (updateTransforms_returns detElements updater delta entries e0)
      as (status & e' & Hrun) end.
  - apply traversed_slots_inside; [exact Hnodup|].
    unfold FW.solvedResult. cbn [FW.deltaAlignmentParameters vsize vneg].
    rewrite FW.solve_size.
    pose proof (sumOverTracks_dims X _ _ _ _ _ _ _ _ Hsum) as Hdims.
    cbv zeta in Hdims. unfold sumsDims in Hdims. injection Hdims as _ _ Hcols.
    exact Hcols.
  - rewrite Hrun. exists status, e'. reflexivity.
Qed.

End Updates.

(* ================================================================== *)
(** * The iteration loop *)
(* ================================================================== *)

Section Iterations.
Context {F : Type} `{Scalar F} (X : FW.Externals F).

Implicit Types (e : FW.Env X) (s : FW.Sums F) (idxed : gmap Surface nat).
Implicit Types (opts : FW.AlignmentOptions X) (alignRes : FW.AlignmentResult X).

Lemma checkConvergence_frame cutOff window average recent e verdict e' :
  FW.checkConvergence X cutOff window average recent e = FW.Returns verdict e' →
  sameGeometry e e'.
Proof.
  unfold FW.checkConvergence.
  destruct (sleb average cutOff).
  - intros [= _ <-]. apply sameGeometry_withLog.
  - destruct (window.1 <=? length recent).
    + destruct recent as [|oldest rest]; [discriminate|].
      destruct (sleb _ window.2).
      * intros [= _ <-]. apply sameGeometry_withLog.
      * intros [= _ <-]. apply sameGeometry_refl.
    + intros [= _ <-]. apply sameGeometry_refl.
Qed.

(** An update that fails ends the loop at once, with its error. *)
Lemma iterations_update_failed opts trajectories starts n iIter alignRes recent
    e err res e1 :
  updateOf opts trajectories starts iIter alignRes e
    = FW.Returns (FW.failure err, res) e1 →
  FW.iterations X trajectories starts opts (S n) iIter alignRes recent e
    = FW.Returns (FW.Returned X err) (withLog e1 [FW.ErrorUpdateFailed err]).
Proof.
  intros Hup. cbn [FW.iterations]. erewrite bind_returns by exact Hup. reflexivity.
Qed.

(** A verdict [Converged] ends the loop with the flag set. *)
Lemma iterations_converged opts trajectories starts n iIter alignRes recent
    e u res e1 e2 :
  updateOf opts trajectories starts iIter alignRes e
    = FW.Returns (FW.success u, res) e1 →
  FW.checkConvergence X (FW.averageChi2ONdfCutOff X opts)
    (FW.deltaAverageChi2ONdfCutOff X opts) (FW.averageChi2ONdf X res) recent e1
    = FW.Returns FW.Converged e2 →
  FW.iterations X trajectories starts opts (S n) iIter alignRes recent e
    = FW.Returns (FW.Exited X true res) e2.
Proof.
  intros Hup Hcheck. cbn [FW.iterations].
  erewrite bind_returns by exact Hup. cbv beta iota.
  erewrite bind_returns by exact Hcheck. reflexivity.
Qed.

(** Otherwise the loop goes on with the next iteration and the new queue. *)
Lemma iterations_continue opts trajectories starts n iIter alignRes recent
    e u res e1 recent' e2 :
  updateOf opts trajectories starts iIter alignRes e
    = FW.Returns (FW.success u, res) e1 →
  FW.checkConvergence X (FW.averageChi2ONdfCutOff X opts)
    (FW.deltaAverageChi2ONdfCutOff X opts) (FW.averageChi2ONdf X res) recent e1
    = FW.Returns (FW.Continue recent') e2 →
  FW.iterations X trajectories starts opts (S n) iIter alignRes recent e
    = FW.iterations X trajectories starts opts n (S iIter) res recent' e2.
Proof.
  intros Hup Hcheck. cbn [FW.iterations].
  erewrite bind_returns by exact Hup. cbv beta iota.
  erewrite bind_returns by exact Hcheck. reflexivity.
Qed.

(** The calls of one update, whenever it returns. *)
Lemma update_calls opts trajectories starts iIter alignRes e status res e' :
  updateOf opts trajectories starts iIter alignRes e = FW.Returns (status, res) e' →
  ∃ calls,
    FW.updateCalls X e' = FW.updateCalls X e ++ calls ∧
    ((status = FW.success tt ∧ Forall accepted calls) ∨
     (status = FW.failure (FW.AlignmentErr FW.AlignmentParametersUpdateFailure) ∧
      stoppedAtFirstRefusal calls)).
Proof.
  intros Hup. unfold updateOf in Hup.
  apply update_calls_inv in Hup
    as (s & e1 & calls & msgs & _ & _ & Hcalls & _ & _ & Hend).
  exists calls. split; [exact Hcalls|].
  destruct Hend as [(-> & Hok & _)|(-> & Hstop)]; [left|right]; split;
    try reflexivity; assumption.
Qed.

(** Over the whole loop: either every updater call was accepted, or the
    loop returned [AlignmentParametersUpdateFailure] right after the first
    refusal. *)
Lemma iterations_calls opts trajectories starts n iIter alignRes recent e loopEnd e' :
  FW.iterations X trajectories starts opts n iIter alignRes recent e
    = FW.Returns loopEnd e' →
  ∃ calls,
    FW.updateCalls X e' = FW.updateCalls X e ++ calls ∧
    match loopEnd with
    | FW.Returned _ err =>
        err = FW.AlignmentErr FW.AlignmentParametersUpdateFailure ∧
        stoppedAtFirstRefusal calls
    | FW.Exited _ _ _ => Forall accepted calls
    end.
Proof.
  revert iIter alignRes recent e.
  induction n as [|n IH]; intros iIter alignRes recent e Hloop.
  - injection Hloop as <- <-. exists []. rewrite app_nil_r.
    split; [reflexivity|constructor].
  - cbn [FW.iterations] in Hloop.
    apply bind_inv in Hloop as ([status res] & e1 & Hup & Hloop).
    destruct (update_calls opts _ _ _ _ _ _ _ _ Hup) as (calls & Hcalls & Hend).
    destruct Hend as [(-> & Hok)|(-> & Hstop)].
    + apply bind_inv in Hloop as (verdict & e2 & Hcheck & Hloop).
      apply checkConvergence_frame in Hcheck as [_ Hsame].
      destruct verdict as [|recent'].
      * injection Hloop as <- <-. exists calls.
        split; [congruence|exact Hok].
      * apply IH in Hloop as (calls' & Hcalls' & Hend').
        exists (calls ++ calls'). split.
        { rewrite Hcalls', Hsame, Hcalls, <- app_assoc. reflexivity. }
        destruct loopEnd as [err|converged final].
        -- destruct Hend' as (-> & oks & bad & -> & Hoks & Hbad).
           split; [reflexivity|]. exists (calls ++ oks), bad.
           rewrite app_assoc. repeat split; [|exact Hbad].
           apply Forall_app. split; assumption.
        -- apply Forall_app. split; assumption.
    + apply bind_inv in Hloop as ([] & e2 & Hlog & Hloop).
      injection Hlog as <-. injection Hloop as <- <-.
      exists calls. split; [exact Hcalls|]. split; [reflexivity|exact Hstop].
Qed.

(** The run returns the error with which the loop returned, and success
    after the loop was left. *)
Lemma align_inv opts trajectories starts e r e' :
  FW.align X trajectories starts opts e = FW.Returns r e' →
  ∃ loopEnd e1,
    FW.iterations X trajectories starts opts (FW.maxIterations X opts) 0
      (FW.newAlignmentResult X) [] e = FW.Returns loopEnd e1 ∧
    sameGeometry e1 e' ∧
    match loopEnd with
    | FW.Returned _ err => r = FW.failure err
    | FW.Exited _ converged final =>
        ∃ res, r = FW.success res ∧
               FW.result X res =
                 if converged then FW.result X final
                 else FW.failure (FW.AlignmentErr FW.ConvergeFailure)
    end.
Proof.
  unfold FW.align. intros Hal.
  apply bind_inv in Hal as (loopEnd & e1 & Hloop & Hal).
  exists loopEnd, e1. split; [exact Hloop|].
  destruct loopEnd as [err|converged final].
  - injection Hal as <- <-. split; [apply sameGeometry_refl|reflexivity].
  - apply bind_inv in Hal as (res' & e2 & Hres & Hal).
    apply bind_inv in Hal as (w & e3 & Hw & Hal).
    injection Hw as _ <-. injection Hal as <- <-.
    destruct converged; simpl in Hres.
    + injection Hres as <- <-. split; [apply sameGeometry_refl|].
      eexists. split; reflexivity.
    + apply bind_inv in Hres as ([] & e4 & Hlog & Hres).
      injection Hlog as <-. injection Hres as <- <-.
      split; [apply sameGeometry_withLog|]. eexists. split; reflexivity.
Qed.

End Iterations.

(* ================================================================== *)
(** * A refused update ends the run *)
(* ================================================================== *)

Section UpdateFailure.
Context {F : Type} `{Scalar F} (X : FW.Externals F).

(** C4.  Whenever [updateAlignmentParameters] returns, it has called the
    updater on the elements of the indexed surfaces in the order in which
    the map is iterated.  Either every call was accepted, all elements
    were updated and the status is success; or the calls end with the
    first refusal (no element after it was attempted), the status is
    [AlignmentParametersUpdateFailure], and the loop of [align] returns
    that error from this very iteration.  The update does return once the
    sums over the tracks are there, when the elements have pairwise
    distinct surfaces.  Over a whole run of [align] that returns: if some
    updater call was refused, it is the last call of the run and the run
    returns [AlignmentParametersUpdateFailure]. *)
Theorem C4_refused_update_aborts_run
    (opts : FW.AlignmentOptions X) (trajectories : list (FW.SourceLinks X))
    (starts : list (FW.StartParameters X)) :
  let elements := FW.alignedDetElements X opts in
  let idxed := FW.idxedAlignSurfacesOf X elements in
  (∀ (n iIter : nat) (alignRes : FW.AlignmentResult X) (recent : list F)
     (e : FW.Env X) status res e2,
     updateOf opts trajectories starts iIter alignRes e
       = FW.Returns (status, res) e2 →
     ∃ calls,
       FW.updateCalls X e2 = FW.updateCalls X e ++ calls ∧
       calledElements calls =
         elementsOf elements (take (length calls) (FW.traverse X idxed)) ∧
       ((Forall accepted calls ∧ length calls = size idxed ∧
         status = FW.success tt) ∨
        (stoppedAtFirstRefusal calls ∧
         status = FW.failure (FW.AlignmentErr FW.AlignmentParametersUpdateFailure) ∧
         FW.iterations X trajectories starts opts (S n) iIter alignRes recent e
           = FW.Returns
               (FW.Returned X (FW.AlignmentErr FW.AlignmentParametersUpdateFailure))
               (withLog e2 [FW.ErrorUpdateFailed
                              (FW.AlignmentErr FW.AlignmentParametersUpdateFailure)])))) ∧
  (∀ (iIter : nat) (alignRes : FW.AlignmentResult X) (e : FW.Env X) s e1,
     FW.sumOverTracks X trajectories starts (FW.fitOptions X opts) elements
       (default FW.allFree (FW.iterationState X opts !! iIter)) e
       = FW.Returns s e1 →
     NoDup (FW.surfaceOf X <$> elements) →
     ∃ status res e2,
       updateOf opts trajectories starts iIter alignRes e
         = FW.Returns (status, res) e2) ∧
  (∀ e0 r e', FW.align X trajectories starts opts e0 = FW.Returns r e' →
     ∃ calls,
       FW.updateCalls X e' = FW.updateCalls X e0 ++ calls ∧
       ((Forall accepted calls ∧ ∃ res, r = FW.success res) ∨
        (stoppedAtFirstRefusal calls ∧
         r = FW.failure (FW.AlignmentErr FW.AlignmentParametersUpdateFailure)))).
Proof.
  intros elements idxed. split; [|split].
  - intros n iIter alignRes recent e status res e2 Hup.
    pose proof Hup as Hinv. unfold updateOf in Hinv.
    apply update_calls_inv in Hinv
      as (s & e1 & calls & msgs & _ & _ & Hcalls & _ & Hels & Hend).
    exists calls. split; [exact Hcalls|]. split; [exact Hels|].
    destruct Hend as [(-> & Hok & Hlen)|(-> & Hstop)].
    + left. repeat split; assumption.
    + right. split; [exact Hstop|]. split; [reflexivity|].
      apply iterations_update_failed with (res := res). exact Hup.
  - intros iIter alignRes e s e1 Hsum Hnodup.
    destruct (update_returns X _ _ _ _ (FW.alignedTransformUpdater X opts) alignRes
                _ _ _ _ Hsum Hnodup) as (status & e2 & Hrun).
    eexists status, _, e2. exact Hrun.
  - intros e0 r e' Hal.
    apply align_inv in Hal as (loopEnd & e2 & Hloop & [_ Hsame] & Hr).
    apply iterations_calls in Hloop as (calls & Hcalls & Hend).
    exists calls. split; [congruence|].
    destruct loopEnd as [err|converged final].
    + destruct Hend as (-> & Hstop). right. split; [exact Hstop|exact Hr].
    + destruct Hr as (res & -> & _). left. split; [exact Hend|].
      exists res. reflexivity.
Qed.

End UpdateFailure.

(** Two elements to align and an updater that refuses every request: one
    call, then the run is over. *)
Lemma C4_refused_update_aborts_run_witness :
  ∃ e' call,
    FW.align (F:=float) Telescope.telescope [Telescope.oneHit] [tt]
      (Telescope.options Telescope.rejectAll [0; 1] 0.5%float (3, 0.5%float) 5)
      Telescope.env0
    = FW.Returns (FW.failure (FW.AlignmentErr FW.AlignmentParametersUpdateFailure)) e' ∧
    FW.updateCalls _ e' = [call] ∧ call.2 = false.
Proof.
  set (opts := Telescope.options (F:=float) Telescope.rejectAll [0; 1]
                 0.5%float (3, 0.5%float) 5).
  assert (Hrun : match FW.align (F:=float) Telescope.telescope [Telescope.oneHit] [tt] opts
                         Telescope.env0 with
                 | FW.Returns _ e' => length (FW.updateCalls _ e')
                 | FW.Abnormal => 0
                 end = 1) by (vm_compute; reflexivity).
  destruct (FW.align _ _ _ _ _) as [r e'|] eqn:Hal; [|discriminate Hrun].
  destruct (proj2 (proj2 (C4_refused_update_aborts_run Telescope.telescope opts
                            [Telescope.oneHit] [tt])) _ _ _ Hal)
    as (calls & Hcalls & Hend).
  simpl in Hcalls. rewrite Hcalls in Hrun.
  destruct Hend as [(Hok & _)|((oks & bad & -> & _ & Hbad) & ->)].
  - destruct calls as [|[call b] [|]]; try discriminate Hrun.
    apply Forall_cons in Hok as [Hok _]. unfold accepted in Hok. simpl in Hok.
    subst b. exfalso.
    assert (Hrefused : match FW.align (F:=float) Telescope.telescope [Telescope.oneHit] [tt]
                               opts Telescope.env0 with
                       | FW.Returns _ e' => forallb (λ call, negb call.2) (FW.updateCalls _ e')
                       | FW.Abnormal => false
                       end = true) by (vm_compute; reflexivity).
    rewrite Hal, Hcalls in Hrefused. discriminate Hrefused.
  - rewrite length_app in Hrun. destruct oks; [|simpl in Hrun; lia].
    exists e', bad. repeat split; assumption.
Defined.

(* ================================================================== *)
(** * The window of recent chi2/ndf values *)
(* ================================================================== *)

Section Window.
Context {A : Type}.

Lemma lastValues_length (n : nat) (history : list A) :
  length (lastValues n history) = Nat.min n (length history).
Proof. unfold lastValues. rewrite length_drop. lia. Qed.

Lemma lastValues_short (n : nat) (history : list A) :
  length history ≤ n → lastValues n history = history.
Proof.
  intros Hlen. unfold lastValues.
  replace (length history - n) with 0 by lia. reflexivity.
Qed.

(** A full window loses its oldest value when a new one is pushed. *)
Lemma lastValues_push (n : nat) (history : list A) (a : A) :
  1 ≤ n → n ≤ length history →
  ∃ oldest rest,
    history !! (length history - n) = Some oldest ∧
    lastValues n history = oldest :: rest ∧
    lastValues n (history ++ [a]) = rest ++ [a].
Proof.
  intros Hn Hlen.
  destruct (lookup_lt_is_Some_2 history (length history - n)) as [oldest Hold];
    [lia|].
  exists oldest, (drop (S (length history - n)) history).
  split; [exact Hold|]. split.
  - unfold lastValues. apply drop_S, Hold.
  - unfold lastValues. rewrite length_app. simpl.
    replace (length history + 1 - n) with (S (length history - n)) by lia.
    rewrite drop_app_le by lia. reflexivity.
Qed.

End Window.

Section Convergence.
Context {F : Type} `{Scalar F} (X : FW.Externals F).

(** The second test on a window that is not full yet. *)
Lemma checkConvergence_filling cutOff (window : nat * F) average recent (e : FW.Env X) :
  sleb average cutOff = false → length recent < window.1 →
  FW.checkConvergence X cutOff window average recent e
    = FW.Returns (FW.Continue (recent ++ [average])) e.
Proof.
  intros Hcut Hlen. unfold FW.checkConvergence. rewrite Hcut.
  destruct (window.1 <=? length recent) eqn:Hfull; [|reflexivity].
  apply Nat.leb_le in Hfull. lia.
Qed.

(** The second test on a full window. *)
Lemma checkConvergence_full cutOff (window : nat * F) average oldest rest
    (e : FW.Env X) :
  sleb average cutOff = false → window.1 ≤ length (oldest :: rest) →
  FW.checkConvergence X cutOff window average (oldest :: rest) e
    = if sleb (sabs (ssub oldest average)) window.2
      then FW.Returns FW.Converged (withLog e [FW.InfoConvergedDelta])
      else FW.Returns (FW.Continue (rest ++ [average])) e.
Proof.
  intros Hcut Hlen. unfold FW.checkConvergence. rewrite Hcut.
  destruct (window.1 <=? length (oldest :: rest)) eqn:Hfull.
  - destruct (sleb _ window.2); reflexivity.
  - apply Nat.leb_gt in Hfull. lia.
Qed.

(** C5.  The queue of [align] is a bounded first-in first-out window:
    when it holds the last [windowSize] average chi2/ndf values of the
    iterations so far (oldest first), then after an iteration whose
    average is above the absolute cut-off
      - while fewer than [windowSize] values were seen, the loop goes on
        with the new value pushed;
      - once the window is full, if the oldest value, the one from
        [windowSize] iterations earlier, differs from the current one by at
        most the tolerance, the loop ends with [converged = true]; if not,
        the loop goes on with the oldest value evicted and the current one
        pushed;
    and in both cases the queue again holds the last [windowSize] values.
    The window size is at least one: with size zero the source reads the
    front of an empty queue. *)
Theorem C5_convergence_window
    (opts : FW.AlignmentOptions X) (trajectories : list (FW.SourceLinks X))
    (starts : list (FW.StartParameters X)) (n iIter : nat)
    (alignRes : FW.AlignmentResult X) (history : list F)
    (e : FW.Env X) (u : unit) (res : FW.AlignmentResult X) (e1 : FW.Env X) :
  let windowSize := (FW.deltaAverageChi2ONdfCutOff X opts).1 in
  let tolerance := (FW.deltaAverageChi2ONdfCutOff X opts).2 in
  let average := FW.averageChi2ONdf X res in
  let recent := lastValues windowSize history in
  let recent' := lastValues windowSize (history ++ [average]) in
  1 ≤ windowSize →
  updateOf opts trajectories starts iIter alignRes e
    = FW.Returns (FW.success u, res) e1 →
  sleb average (FW.averageChi2ONdfCutOff X opts) = false →
  length recent ≤ windowSize ∧ length recent' ≤ windowSize ∧
  (length history < windowSize →
   FW.iterations X trajectories starts opts (S n) iIter alignRes recent e
     = FW.iterations X trajectories starts opts n (S iIter) res recent' e1) ∧
  (windowSize ≤ length history →
   ∃ oldest rest,
     history !! (length history - windowSize) = Some oldest ∧
     recent = oldest :: rest ∧ recent' = rest ++ [average] ∧
     if sleb (sabs (ssub oldest average)) tolerance
     then FW.iterations X trajectories starts opts (S n) iIter alignRes recent e
            = FW.Returns (FW.Exited X true res)
                         (withLog e1 [FW.InfoConvergedDelta])
     else FW.iterations X trajectories starts opts (S n) iIter alignRes recent e
            = FW.iterations X trajectories starts opts n (S iIter) res recent' e1).
Proof.
  intros windowSize tolerance average recent recent' Hw Hup Hcut.
  split; [unfold recent; rewrite lastValues_length; lia|].
  split; [unfold recent'; rewrite lastValues_length; lia|].
  split.
  - intros Hlen. unfold recent, recent'.
    rewrite lastValues_short by lia.
    rewrite lastValues_short by (rewrite length_app; simpl; lia).
    eapply iterations_continue; [exact Hup|].
    apply checkConvergence_filling; [exact Hcut|exact Hlen].
  - intros Hlen.
    destruct (lastValues_push windowSize history average Hw Hlen)
      as (oldest & rest & Hold & Hrecent & Hpush).
    exists oldest, rest. fold recent in Hrecent. fold recent' in Hpush.
    split; [exact Hold|]. split; [exact Hrecent|]. split; [exact Hpush|].
    assert (Hfull : windowSize ≤ length (oldest :: rest)).
    { rewrite <- Hrecent. unfold recent. rewrite lastValues_length. lia. }
    pose proof (checkConvergence_full (FW.averageChi2ONdfCutOff X opts)
                  (FW.deltaAverageChi2ONdfCutOff X opts) average oldest rest e1
                  Hcut Hfull) as Hcheck.
    fold tolerance in Hcheck. rewrite Hrecent, Hpush.
    destruct (sleb (sabs (ssub oldest average)) tolerance).
    + eapply iterations_converged; [exact Hup|exact Hcheck].
    + eapply iterations_continue; [exact Hup|exact Hcheck].
Qed.

(** When the loop ends converged, the run returns the result of that
    iteration, its status untouched. *)
Lemma align_converged (opts : FW.AlignmentOptions X)
    (trajectories : list (FW.SourceLinks X))
    (starts : list (FW.StartParameters X)) (e : FW.Env X)
    (final : FW.AlignmentResult X) (e' : FW.Env X) :
  FW.iterations X trajectories starts opts (FW.maxIterations X opts) 0
    (FW.newAlignmentResult X) [] e = FW.Returns (FW.Exited X true final) e' →
  FW.align X trajectories starts opts e
    = FW.Returns (FW.success (FW.recordTransforms X (FW.world X e')
                                (FW.alignedDetElements X opts) final)) e'.
Proof.
  intros Hloop. unfold FW.align. erewrite bind_returns by exact Hloop.
  reflexivity.
Qed.

End Convergence.

(** A window of three values equal to the average of the next iteration:
    the loop ends converged although the average, 1, is above the cut-off. *)
Lemma C5_convergence_window_witness :
  ∃ res e',
    FW.iterations (F:=float) Telescope.telescope [[]; Telescope.oneHit] [tt; tt]
      (Telescope.options Telescope.acceptAll [0] 0.5%float (3, 0.25%float) 5)
      1 3 (FW.newAlignmentResult Telescope.telescope)
      [1%float; 1%float; 1%float] Telescope.env0
    = FW.Returns (FW.Exited _ true res) e' ∧
    FW.averageChi2ONdf _ res = 1%float.
Proof.
  set (opts := Telescope.options (F:=float) Telescope.acceptAll [0]
                 0.5%float (3, 0.25%float) 5).
  assert (Hrun : match updateOf opts [[]; Telescope.oneHit] [tt; tt] 3
                         (FW.newAlignmentResult Telescope.telescope)
                         Telescope.env0 with
                 | FW.Returns (status, res) _ =>
                     Some (FW.ok status, FW.averageChi2ONdf _ res)
                 | FW.Abnormal => None
                 end = Some (true, 1%float)) by (vm_compute; reflexivity).
  destruct (updateOf _ _ _ _ _ _) as [[[[]|err] res] e1|] eqn:Hup;
    try discriminate Hrun.
  injection Hrun as Haverage.
  pose proof (C5_convergence_window Telescope.telescope opts
                [[]; Telescope.oneHit] [tt; tt] 0 3
                (FW.newAlignmentResult Telescope.telescope)
                [1%float; 1%float; 1%float] Telescope.env0 tt res e1
                ltac:(simpl; lia) Hup
                ltac:(rewrite Haverage; reflexivity)) as (_ & _ & _ & Hfull).
  destruct (Hfull ltac:(simpl; lia)) as (oldest & rest & Hold & Hrecent & _ & Hend).
  injection Hold as <-. rewrite Haverage in Hend.
  exists res, (withLog e1 [FW.InfoConvergedDelta]).
  split; [exact Hend|exact Haverage].
Defined.

(* ================================================================== *)
(** * The solved update and its covariance *)
(* ================================================================== *)

Section Accepting.
Context {F : Type} `{Scalar F} (X : FW.Externals F).

Implicit Types (e : FW.Env X) (s : FW.Sums F).

(** With an updater that accepts every request, every element of the map
    is offered the transform proposed for it, in turn, and the loop
    returns success. *)
Lemma updateTransforms_accepting detElements
    (updater : FW.AlignedTransformUpdater X) delta entries e :
  (∀ element t w, (updater element t w).1 = true) →
  Forall (λ entry, is_Some (detElements !! entry.2) ∧
                   6 * entry.2 + 6 ≤ vsize delta) entries →
  ∃ e' calls,
    FW.updateTransforms X detElements updater delta entries e
      = FW.Returns (FW.success tt) e' ∧
    FW.updateCalls X e' = FW.updateCalls X e ++ calls ∧
    FW.logged X e' = FW.logged X e ∧
    updatedInTurn detElements updater delta (FW.world X e) entries calls
                  (FW.world X e').
Proof.
  intros Haccept. revert e.
  induction entries as [|[surface index] rest IH]; intros e Hvalid.
  - exists e, []. rewrite app_nil_r. repeat split. constructor.
  - apply Forall_cons in Hvalid as [[[element Hel] Hin] Hrest]. simpl in Hel, Hin.
    destruct (newTransform_inside X (FW.world X e) delta surface index Hin)
      as [t Ht].
    rewrite (updateTransforms_cons _ _ _ _ _ _ _ _ _ _ Ht Hel). cbv zeta.
    rewrite Haccept.
    destruct (updater element t (FW.world X e)) as [updated w1] eqn:Hupd.
    assert (updated = true) as -> by (rewrite <- (Haccept element t (FW.world X e)),
                                        Hupd; reflexivity).
    cbn [fst snd].
    destruct (IH (afterCall e w1 element t true) Hrest)
      as (e' & calls & Hrun & Hcalls & Hlog & Htrace).
    exists e', ((element, t, true) :: calls).
    split; [exact Hrun|]. split.
    { rewrite Hcalls. simpl. rewrite <- app_assoc. reflexivity. }
    split; [exact Hlog|].
    apply newTransform_inv in Ht as [_ Hprop].
    exact (updated_next _ _ _ _ _ _ _ _ _ _ _ _ Hin Hel Hprop Hupd Htrace).
Qed.

(** The result after the solve holds what the sums give. *)
Lemma solvedResult_solvedFrom (alignResult : FW.AlignmentResult X)
    (alignDof nTracks : nat) s :
  solvedFrom s (FW.solvedResult X alignResult alignDof nTracks s).
Proof.
  unfold solvedFrom, FW.solvedResult.
  cbn [FW.deltaAlignmentParameters FW.alignmentCovariance FW.deltaChi2].
  split; [apply FW.solve_size|]. repeat split; reflexivity.
Qed.

End Accepting.

Section Solver.
Context {F : Type} `{ScalarLaws F} (X : FW.Externals F).


End Solver.


(* ================================================================== *)
(** * A NaN in the inverse is only a warning *)
(* ================================================================== *)

Section NaNInverse.
Context {F : Type} `{Scalar F} (X : FW.Externals F).

(** C7.  When the inverse of the summed second-derivative matrix holds a
    NaN, [updateAlignmentParameters] logs the warning and goes on.  With
    elements of pairwise distinct surfaces and an updater that accepts
    every request it returns success: the delta is what the LU solver
    gives and the covariance twice the NaN-bearing inverse, the warning is
    the only warning or error written after the sums, and the element of
    every indexed surface, in the order the map is iterated in, was offered
    the transform made of its placement at that moment and the six
    parameters of its slot in the delta. *)
Theorem C7_nan_inverse_is_not_fatal (trajectories : list (FW.SourceLinks X))
    (starts : list (FW.StartParameters X)) (fitOpts : FW.FitOptions X)
    (detElements : list Element) (updater : FW.AlignedTransformUpdater X)
    (alignResult : FW.AlignmentResult X) (alignMask : AlignmentMask)
    (e : FW.Env X) (s : FW.Sums F) (e1 : FW.Env X) :
  FW.sumOverTracks X trajectories starts fitOpts detElements alignMask e
    = FW.Returns s e1 →
  hasNaN (FW.inverse X (FW.sumChi2SecondDerivative s)) = true →
  NoDup (FW.surfaceOf X <$> detElements) →
  (∀ element t w, (updater element t w).1 = true) →
  ∃ res e' calls,
    FW.updateAlignmentParameters X trajectories starts fitOpts detElements updater
      alignResult alignMask e = FW.Returns (FW.success tt, res) e' ∧
    solvedFrom s res ∧
    FW.logged X e' = FW.logged X e1 ++ [FW.WarnInverseHasNaN] ∧
    FW.updateCalls X e' = FW.updateCalls X e ++ calls ∧
    length calls = size (FW.idxedAlignSurfacesOf X detElements) ∧
    updatedInTurn detElements updater (FW.deltaAlignmentParameters X res)
      (FW.world X e) (FW.traverse X (FW.idxedAlignSurfacesOf X detElements))
      calls (FW.world X e').
Proof.
  intros Hsum Hnan Hnodup Haccept.
  pose proof (accumulateTracks_frame X _ _ _ _ _ _ _ _ _ _ Hsum) as [Hworld Hsame].
  set (res := FW.solvedResult X alignResult
                (size (FW.idxedAlignSurfacesOf X detElements) * eAlignmentParametersSize)
                (length trajectories) s).
  destruct (updateTransforms_accepting X detElements updater
              (FW.deltaAlignmentParameters X res)
              (FW.traverse X (FW.idxedAlignSurfacesOf X detElements))
              (withLog e1 [FW.WarnInverseHasNaN]) Haccept)
    as (e' & calls & Hrun & Hcalls & Hlog & Htrace).
  { apply traversed_slots_inside; [exact Hnodup|].
    exact (delta_size X _ _ _ _ _ _ _ _ _ _ _ Hsum). }
  exists res, e', calls.
  split; [|split; [apply solvedResult_solvedFrom|split; [exact Hlog|split; [|split]]]].
  - rewrite (update_after_sums X _ _ _ _ updater alignResult _ _ _ _ Hsum).
    cbv zeta. rewrite Hnan. fold res. rewrite Hrun. reflexivity.
  - rewrite Hcalls. simpl. rewrite Hsame. reflexivity.
  - clear -Htrace. rewrite <- (length_traverse X).
    induction Htrace; simpl; [reflexivity|]. f_equal. assumption.
  - simpl in Htrace. rewrite Hworld in Htrace. exact Htrace.
Qed.

End NaNInverse.

(** On doubles the elimination of the all-zero second-derivative matrix
    divides zero by zero; the update still succeeds. *)
Lemma C7_nan_inverse_is_not_fatal_witness :
  ∃ res e',
    FW.updateAlignmentParameters (F:=float) Telescope.telescope [Telescope.oneHit]
      [tt] tt [0] Telescope.acceptAll (FW.newAlignmentResult Telescope.telescope)
      FW.allFree Telescope.env0 = FW.Returns (FW.success tt, res) e' ∧
    hasNaN (FW.alignmentCovariance _ res) = true ∧
    FW.logged _ e' = [FW.WarnInverseHasNaN] ∧
    length (FW.updateCalls _ e') = 1.
Proof.
  assert (Hnan : match FW.sumOverTracks (F:=float) Telescope.telescope
                         [Telescope.oneHit] [tt] tt [0] FW.allFree Telescope.env0 with
                 | FW.Returns s e1 =>
                     Some (hasNaN (Telescope.gaussJordanInverse
                                     (FW.sumChi2SecondDerivative s)),
                           FW.logged _ e1)
                 | FW.Abnormal => None
                 end = Some (true, [])) by (vm_compute; reflexivity).
  assert (Hcov : match FW.updateAlignmentParameters (F:=float) Telescope.telescope
                         [Telescope.oneHit] [tt] tt [0] Telescope.acceptAll
                         (FW.newAlignmentResult Telescope.telescope) FW.allFree
                         Telescope.env0 with
                 | FW.Returns (_, res) _ => hasNaN (FW.alignmentCovariance _ res)
                 | FW.Abnormal => false
                 end = true) by (vm_compute; reflexivity).
  destruct (FW.sumOverTracks _ _ _ _ _ _ _) as [s e1|] eqn:Hsum; [|discriminate Hnan].
  injection Hnan as Hnan Hlog1.
  destruct (C7_nan_inverse_is_not_fatal Telescope.telescope [Telescope.oneHit] [tt]
              tt [0] Telescope.acceptAll (FW.newAlignmentResult Telescope.telescope)
              FW.allFree Telescope.env0 s e1 Hsum Hnan
              ltac:(apply NoDup_singleton) ltac:(reflexivity))
    as (res & e' & calls & Hrun & _ & Hlog & Hcalls & Hlen & _).
  rewrite Hrun in Hcov.
  exists res, e'. split; [exact Hrun|]. split; [exact Hcov|]. split.
  - rewrite Hlog, Hlog1. reflexivity.
  - rewrite Hcalls. simpl. etransitivity; [exact Hlen|]. vm_compute. reflexivity.
Defined.

(* ================================================================== *)
(** * The average chi2/ndf *)
(* ================================================================== *)

Section Average.
Context {F : Type} `{Scalar F} (X : FW.Externals F).

(** The sums over an empty collection are the initial ones. *)
Lemma sumOverTracks_empty (starts : list (FW.StartParameters X))
    (fitOpts : FW.FitOptions X) (detElements : list Element)
    (alignMask : AlignmentMask) (e : FW.Env X) :
  FW.sumOverTracks X [] starts fitOpts detElements alignMask e
    = FW.Returns (FW.sums0 (size (FW.idxedAlignSurfacesOf X detElements)
                            * eAlignmentParametersSize)) e.
Proof. reflexivity. Qed.

(** C10.  [updateAlignmentParameters] sets [numTracks] to the size of the
    input collection and divides the chi2/ndf sum of the contributing
    tracks by it, whatever that size.  For an empty collection, and
    elements of pairwise distinct surfaces, the update still runs to its
    end, and the average it reports is zero divided by zero, which is NaN
    on doubles. *)
Theorem C10_average_divides_by_collection_size :
  (∀ (trajectories : list (FW.SourceLinks X))
     (starts : list (FW.StartParameters X)) (fitOpts : FW.FitOptions X)
     (detElements : list Element) (updater : FW.AlignedTransformUpdater X)
     (alignResult : FW.AlignmentResult X) (alignMask : AlignmentMask)
     (e : FW.Env X) (status : FW.Result unit) (res : FW.AlignmentResult X)
     (e' : FW.Env X),
     FW.updateAlignmentParameters X trajectories starts fitOpts detElements
       updater alignResult alignMask e = FW.Returns (status, res) e' →
     FW.numTracks X res = length trajectories ∧
     ∃ s e1,
       FW.sumOverTracks X trajectories starts fitOpts detElements alignMask e
         = FW.Returns s e1 ∧
       FW.averageChi2ONdf X res
         = sdiv (FW.sumChi2ONdf s) (of_size (length trajectories))) ∧
  (∀ (starts : list (FW.StartParameters X)) (fitOpts : FW.FitOptions X)
     (detElements : list Element) (updater : FW.AlignedTransformUpdater X)
     (alignResult : FW.AlignmentResult X) (alignMask : AlignmentMask)
     (e : FW.Env X),
     NoDup (FW.surfaceOf X <$> detElements) →
     ∃ status res e',
       FW.updateAlignmentParameters X [] starts fitOpts detElements updater
         alignResult alignMask e = FW.Returns (status, res) e' ∧
       FW.numTracks X res = 0 ∧
       FW.averageChi2ONdf X res = sdiv szero (of_size 0)) ∧
  sisnan (sdiv (szero : float) (of_size 0)) = true.
Proof.
  split; [|split; [|reflexivity]].
  - intros trajectories starts fitOpts detElements updater alignResult alignMask
           e status res e' Hup.
    apply update_inv in Hup as (s & e1 & Hsum & ->).
    split; [reflexivity|]. exists s, e1. split; [exact Hsum|reflexivity].
  - intros starts fitOpts detElements updater alignResult alignMask e Hnodup.
    destruct (update_returns X [] starts fitOpts detElements updater alignResult
                alignMask e _ _ (sumOverTracks_empty starts fitOpts detElements
                                   alignMask e) Hnodup)
      as (status & e' & Hrun).
    eexists status, _, e'. split; [exact Hrun|]. split; reflexivity.
Qed.

End Average.

(** No track at all, on doubles: the update reports NaN as the average. *)
Lemma C10_average_divides_by_collection_size_witness :
  ∃ status res e',
    FW.updateAlignmentParameters (F:=float) Telescope.telescope [] [] tt [0]
      Telescope.acceptAll (FW.newAlignmentResult Telescope.telescope)
      FW.allFree Telescope.env0 = FW.Returns (status, res) e' ∧
    FW.numTracks _ res = 0 ∧
    sisnan (FW.averageChi2ONdf _ res) = true.
Proof.
  destruct (C10_average_divides_by_collection_size (F:=float) Telescope.telescope)
    as (_ & Hempty & Hnan).
  destruct (Hempty [] tt [0] Telescope.acceptAll
              (FW.newAlignmentResult Telescope.telescope) FW.allFree Telescope.env0
              ltac:(apply NoDup_singleton))
    as (status & res & e' & Hrun & Hnum & Haverage).
  exists status, res, e'. split; [exact Hrun|]. split; [exact Hnum|].
  rewrite Haverage. exact Hnan.
Defined.

(** The same through [align]: the NaN average passes neither convergence
    test, and the run ends with [ConvergeFailure]. *)
Lemma align_empty_collection_example :
  match FW.align (F:=float) Telescope.telescope [] []
          (Telescope.options Telescope.acceptAll [0] 0.5%float (3, 0.25%float) 5)
          Telescope.env0 with
  | FW.Returns (FW.success res) _ =>
      Some (sisnan (FW.averageChi2ONdf _ res), FW.numTracks _ res, FW.result _ res)
  | _ => None
  end = Some (true, 0, FW.failure (FW.AlignmentErr FW.ConvergeFailure)).
Proof. vm_compute. reflexivity. Qed.

(** C2 (fails on the code).  Two input tracks: the fit of the first fails,
    the second goes through the aligned element and has chi2 4 on a
    measurement dimension of 2.  The mean of chi2/ndf over the contributing
    tracks is 2; the code counts both tracks in [numTracks] and reports
    2 / 2 = 1. *)
Lemma C2_average_counts_skipped_tracks :
  ∃ status res e' st,
    FW.updateAlignmentParameters (F:=float) Telescope.telescope
      [[]; Telescope.oneHit] [tt; tt] tt [0] Telescope.acceptAll
      (FW.newAlignmentResult Telescope.telescope) FW.allFree Telescope.env0
      = FW.Returns (status, res) e' ∧
    FW.fit (F:=float) Telescope.telescope (FW.world _ Telescope.env0) [] tt tt
      = FW.failure (FW.FitterError 1) ∧
    Telescope.stateOfTrack 1 Telescope.oneHit = Some st ∧
    detail.alignmentDof st = 6 ∧
    sdiv (detail.chi2 st) (of_size (detail.measurementDim st)) = 2%float ∧
    FW.numTracks _ res = 2 ∧
    FW.averageChi2ONdf _ res = 1%float.
Proof.
  assert (Hrun : match FW.updateAlignmentParameters (F:=float) Telescope.telescope
                         [[]; Telescope.oneHit] [tt; tt] tt [0] Telescope.acceptAll
                         (FW.newAlignmentResult Telescope.telescope) FW.allFree
                         Telescope.env0 with
                 | FW.Returns (_, res) _ =>
                     Some (FW.numTracks _ res, FW.averageChi2ONdf _ res)
                 | FW.Abnormal => None
                 end = Some (2, 1%float)) by (vm_compute; reflexivity).
  assert (Hstate : option_map (λ st, (detail.alignmentDof st,
                                      sdiv (detail.chi2 st)
                                           (of_size (detail.measurementDim st))))
                     (Telescope.stateOfTrack (F:=float) 1 Telescope.oneHit)
                   = Some (6, 2%float)) by (vm_compute; reflexivity).
  destruct (FW.updateAlignmentParameters _ _ _ _ _ _ _ _ _)
    as [[status res] e'|]; [|discriminate Hrun].
  destruct (Telescope.stateOfTrack 1 Telescope.oneHit) as [st|];
    [|discriminate Hstate].
  injection Hrun as Hnum Haverage. injection Hstate as Hdof Hratio.
  exists status, res, e', st. repeat split; assumption.
Qed.

(* ================================================================== *)
(** * The layout of the matrices of a track *)
(* ================================================================== *)

Section Layout.
Context {F : Type} `{Scalar F}.

Implicit Types (f : detail.Fill F) (ms : list (nat * detail.TrackState F)).

Lemma inRange_offset lo len i : i < len → inRange lo len (lo + i) = true.
Proof.
  intros Hi. unfold inRange. apply andb_true_iff. split.
  - apply Nat.leb_le. lia.
  - apply Nat.ltb_lt. lia.
Qed.

Lemma inRange_above lo len i : lo + len ≤ i → inRange lo len i = false.
Proof.
  intros Hi. unfold inRange. apply andb_false_iff. right. apply Nat.ltb_ge. lia.
Qed.

Lemma stateDims_app ms1 ms2 : stateDims (ms1 ++ ms2) = stateDims ms1 + stateDims ms2.
Proof. induction ms1 as [|its ms1 IH]; simpl; [reflexivity|]. rewrite IH. lia. Qed.

Lemma stateDims_take_drop ms n : stateDims (take n ms) + stateDims (drop n ms) = stateDims ms.
Proof. rewrite <- stateDims_app, take_drop. reflexivity. Qed.

(** One turn of the loop, field by field. *)
Lemma fillState_inv (multiTraj : detail.MultiTrajectory F) src rowIndices parDim
    allStates f f' row flag state :
  detail.getTrackState multiTraj row = Some state →
  detail.fillState multiTraj src rowIndices parDim allStates f (row, flag) = Some f' →
  let size := detail.calibratedSize state in
  let iMeas := detail.iMeasurement f - size in
  let iPar := detail.iParams f - eBoundParametersSize in
  detail.iMeasurement f' = iMeas ∧
  detail.iParams f' = iPar ∧
  detail.fillMeasurementCovariance f' =
    setBlock (detail.fillMeasurementCovariance f) iMeas iMeas size size
      (detail.topLeftCorner (detail.calibratedCovariance state) size size) ∧
  detail.fillProjectionMatrix f' =
    setBlock (detail.fillProjectionMatrix f) iMeas iPar size eBoundParametersSize
      (detail.topLeftCorner (detail.projector state) size eBoundParametersSize) ∧
  detail.fillResidual f' =
    setSegment (detail.fillResidual f) iMeas size (stateResidual state) ∧
  detail.fillCovarianceRow src rowIndices parDim iPar row allStates 0
    (detail.fillTrackParametersCovariance f)
    = Some (detail.fillTrackParametersCovariance f') ∧
  (flag = false → detail.fillSurfaces f' = detail.fillSurfaces f).
Proof.
  intros Hstate. unfold detail.fillState. rewrite Hstate. simpl.
  destruct flag; simpl.
  - destruct (detail.fillSurfaces f !! detail.referenceSurface state); simpl;
      [|discriminate].
    destruct (detail.fillCovarianceRow _ _ _ _ _ _ _ _) as [cov|] eqn:Hcov; simpl;
      [|discriminate].
    intros [= <-]. simpl. repeat split; try reflexivity. discriminate.
  - destruct (detail.fillCovarianceRow _ _ _ _ _ _ _ _) as [cov|] eqn:Hcov; simpl;
      [|discriminate].
    intros [= <-]. simpl. repeat split; reflexivity.
Qed.

(** Later turns of the loop write below the rows of the earlier ones. *)
Lemma fillStates_frame (multiTraj : detail.MultiTrajectory F) src rowIndices parDim
    allStates todo ms f f' :
  Forall2 (standsFor multiTraj) todo ms →
  stateDims ms ≤ detail.iMeasurement f →
  detail.fillStates multiTraj src rowIndices parDim allStates f todo = Some f' →
  ∀ i, detail.iMeasurement f ≤ i →
    (∀ j, coeff (detail.fillMeasurementCovariance f') i j =
          coeff (detail.fillMeasurementCovariance f) i j) ∧
    (∀ j, coeff (detail.fillProjectionMatrix f') i j =
          coeff (detail.fillProjectionMatrix f) i j) ∧
    vcoeff (detail.fillResidual f') i = vcoeff (detail.fillResidual f) i.
Proof.
  intros Hrel. revert f. induction Hrel as [|[row flag] [index ts] todo ms [Hrow Hts] Hrel IH];
    intros f Hdims Hfill; cbn [detail.fillStates] in Hfill.
  - injection Hfill as <-. intros i Hi. repeat split; reflexivity.
  - simpl in Hrow, Hts, Hdims. subst row.
    destruct (detail.fillState multiTraj src rowIndices parDim allStates f (index, flag))
      as [f1|] eqn:H1; simpl in Hfill; [|discriminate].
    revert Hfill. intros Hrest i Hi.
    destruct (fillState_inv _ _ _ _ _ _ _ _ _ _ Hts H1) as (HiM & HiP & HV & HP & Hr & _).
    destruct (IH f1 ltac:(rewrite HiM; lia) Hrest i ltac:(rewrite HiM; lia))
      as (HV' & HP' & Hr').
    assert (Hout : inRange (detail.iMeasurement f - detail.calibratedSize ts)
                     (detail.calibratedSize ts) i = false)
      by (apply inRange_above; lia).
    repeat split.
    + intros j. rewrite HV', HV. cbn [coeff setBlock]. rewrite Hout. reflexivity.
    + intros j. rewrite HP', HP. cbn [coeff setBlock]. rewrite Hout. reflexivity.
    + rewrite Hr', Hr. cbn [vcoeff setSegment]. rewrite Hout. reflexivity.
Qed.

(** Each turn of the loop leaves its three blocks where the counters
    stood, and no later turn touches them. *)
Lemma fillStates_blocks (multiTraj : detail.MultiTrajectory F) src rowIndices parDim
    allStates todo ms f f' :
  Forall2 (standsFor multiTraj) todo ms →
  stateDims ms ≤ detail.iMeasurement f →
  detail.fillStates multiTraj src rowIndices parDim allStates f todo = Some f' →
  ∀ k index ts, ms !! k = Some (index, ts) →
    let o := detail.iMeasurement f - stateDims (take (S k) ms) in
    let p := detail.iParams f - eBoundParametersSize * S k in
    ∀ i, i < detail.calibratedSize ts →
      (∀ j, j < detail.calibratedSize ts →
         coeff (detail.fillMeasurementCovariance f') (o + i) (o + j) =
         coeff (detail.calibratedCovariance ts) i j) ∧
      (∀ j, j < eBoundParametersSize →
         coeff (detail.fillProjectionMatrix f') (o + i) (p + j) =
         coeff (detail.projector ts) i j) ∧
      vcoeff (detail.fillResidual f') (o + i) = vcoeff (stateResidual ts) i.
Proof.
  intros Hrel. revert f.
  induction Hrel as [|[row flag] [index0 ts0] todo ms [Hrow Hts] Hrel IH];
    intros f Hdims Hfill; cbn [detail.fillStates] in Hfill.
  - intros k index ts Hk. rewrite lookup_nil in Hk. discriminate.
  - simpl in Hrow, Hts, Hdims. subst row.
    destruct (detail.fillState multiTraj src rowIndices parDim allStates f (index0, flag))
      as [f1|] eqn:H1; simpl in Hfill; [|discriminate].
    revert Hfill. intros Hrest k index ts Hk.
    destruct (fillState_inv _ _ _ _ _ _ _ _ _ _ Hts H1) as (HiM & HiP & HV & HP & Hr & _).
    destruct k as [|k].
    + injection Hk as -> ->. cbn [take stateDims foldr snd].
      rewrite Nat.add_0_r, Nat.mul_1_r.
      intros i Hi.
      set (o := detail.iMeasurement f - detail.calibratedSize ts) in *.
      destruct (fillStates_frame _ _ _ _ _ _ _ _ _ Hrel ltac:(rewrite HiM; unfold o; lia)
                  Hrest (o + i) ltac:(rewrite HiM; lia)) as (HV' & HP' & Hr').
      repeat split.
      * intros j Hj. rewrite HV', HV. cbn [coeff setBlock].
        rewrite !inRange_offset by assumption. cbn [andb].
        unfold detail.topLeftCorner. cbn [coeff block]. f_equal; lia.
      * intros j Hj. rewrite HP', HP. cbn [coeff setBlock].
        rewrite !inRange_offset by assumption. cbn [andb].
        unfold detail.topLeftCorner. cbn [coeff block]. f_equal; lia.
      * rewrite Hr', Hr. cbn [vcoeff setSegment].
        rewrite inRange_offset by assumption. f_equal. lia.
    + simpl in Hk.
      pose proof (IH f1 ltac:(rewrite HiM; lia) Hrest k index ts Hk) as Hblocks.
      cbv zeta in Hblocks |- *. rewrite HiM, HiP in Hblocks.
      change (stateDims (take (S (S k)) ((index0, ts0) :: ms)))
        with (detail.calibratedSize ts0 + stateDims (take (S k) ms)).
      replace (detail.iMeasurement f - (detail.calibratedSize ts0 + stateDims (take (S k) ms)))
        with (detail.iMeasurement f - detail.calibratedSize ts0 - stateDims (take (S k) ms))
        by lia.
      replace (detail.iParams f - eBoundParametersSize * S (S k))
        with (detail.iParams f - eBoundParametersSize - eBoundParametersSize * S k)
        by (unfold eBoundParametersSize; lia).
      exact Hblocks.
Qed.

(** Outside the blocks of the measurement states nothing is written. *)
Lemma fillStates_elsewhere (multiTraj : detail.MultiTrajectory F) src rowIndices parDim
    allStates todo ms f f' :
  Forall2 (standsFor multiTraj) todo ms →
  detail.fillStates multiTraj src rowIndices parDim allStates f todo = Some f' →
  ∀ i j,
    ((∀ k index ts, ms !! k = Some (index, ts) →
        let o := detail.iMeasurement f - stateDims (take (S k) ms) in
        inRange o (detail.calibratedSize ts) i &&
        inRange o (detail.calibratedSize ts) j = false) →
     coeff (detail.fillMeasurementCovariance f') i j =
     coeff (detail.fillMeasurementCovariance f) i j) ∧
    ((∀ k index ts, ms !! k = Some (index, ts) →
        let o := detail.iMeasurement f - stateDims (take (S k) ms) in
        let p := detail.iParams f - eBoundParametersSize * S k in
        inRange o (detail.calibratedSize ts) i &&
        inRange p eBoundParametersSize j = false) →
     coeff (detail.fillProjectionMatrix f') i j =
     coeff (detail.fillProjectionMatrix f) i j).
Proof.
  intros Hrel. revert f.
  induction Hrel as [|[row flag] [index0 ts0] todo ms [Hrow Hts] Hrel IH];
    intros f Hfill; cbn [detail.fillStates] in Hfill.
  - injection Hfill as <-. intros i j. split; reflexivity.
  - simpl in Hrow, Hts. subst row.
    destruct (detail.fillState multiTraj src rowIndices parDim allStates f (index0, flag))
      as [f1|] eqn:H1; simpl in Hfill; [|discriminate].
    destruct (fillState_inv _ _ _ _ _ _ _ _ _ _ Hts H1) as (HiM & HiP & HV & HP & _).
    intros i j. destruct (IH f1 Hfill i j) as [IHV IHP]. split.
    + intros Hout. rewrite IHV.
      * rewrite HV. cbn [coeff setBlock].
        pose proof (Hout 0 index0 ts0 eq_refl) as H0. cbv zeta in H0.
        cbn [take stateDims foldr snd] in H0. rewrite Nat.add_0_r in H0.
        rewrite H0. reflexivity.
      * intros k index ts Hk. pose proof (Hout (S k) index ts Hk) as Hk'.
        cbv zeta in Hk' |- *. rewrite HiM.
        change (stateDims (take (S (S k)) ((index0, ts0) :: ms)))
          with (detail.calibratedSize ts0 + stateDims (take (S k) ms)) in Hk'.
        rewrite Nat.sub_add_distr in Hk'. exact Hk'.
    + intros Hout. rewrite IHP.
      * rewrite HP. cbn [coeff setBlock].
        pose proof (Hout 0 index0 ts0 eq_refl) as H0. cbv zeta in H0.
        cbn [take stateDims foldr snd] in H0.
        rewrite Nat.add_0_r, Nat.mul_1_r in H0.
        rewrite H0. reflexivity.
      * intros k index ts Hk. pose proof (Hout (S k) index ts Hk) as Hk'.
        cbv zeta in Hk' |- *. rewrite HiM, HiP.
        change (stateDims (take (S (S k)) ((index0, ts0) :: ms)))
          with (detail.calibratedSize ts0 + stateDims (take (S k) ms)) in Hk'.
        rewrite Nat.sub_add_distr in Hk'.
        replace (detail.iParams f - eBoundParametersSize * S (S k))
          with (detail.iParams f - eBoundParametersSize - eBoundParametersSize * S k)
          in Hk' by (unfold eBoundParametersSize; lia).
        exact Hk'.
Qed.

(** ** The track parameters covariance *)

(** A turn of the inner loop writes one block of the row, at columns
    below those of the turns before it. *)
Lemma fillCovarianceRow_frame (src : Matrix F) rowIndices parDim rowParams row
    colStates iColState (target m : Matrix F) :
  (iColState + length colStates) * eBoundParametersSize ≤ parDim →
  detail.fillCovarianceRow src rowIndices parDim rowParams row colStates
    iColState target = Some m →
  ∀ i j, inRange rowParams eBoundParametersSize i = false ∨
         parDim - iColState * eBoundParametersSize ≤ j →
         coeff m i j = coeff target i j.
Proof.
  revert iColState target.
  induction colStates as [|[col flag] rest IH]; intros iColState target Hfit; simpl.
  - intros [= <-]. reflexivity.
  - destruct (rowIndices !! row) as [r|]; simpl; [|discriminate].
    destruct (rowIndices !! col) as [c0|]; simpl; [|discriminate].
    unfold blockAt. destruct (blockInside src r c0 _ _); simpl; [|discriminate].
    intros Hm i j Hout. simpl in Hfit.
    rewrite (IH (S iColState) _ ltac:(unfold eBoundParametersSize in *; simpl; lia) Hm i j).
    + cbn [coeff setBlock]. destruct Hout as [Hrow|Hcol].
      * rewrite Hrow. reflexivity.
      * rewrite (inRange_above _ _ j), andb_false_r; [reflexivity|].
        unfold eBoundParametersSize in *. lia.
    + destruct Hout as [Hrow|Hcol]; [left; exact Hrow|right].
      unfold eBoundParametersSize in *. simpl. lia.
Qed.

Lemma fillCovarianceRow_blocks (src : Matrix F) rowIndices parDim rowParams row
    colStates iColState (target m : Matrix F) :
  (iColState + length colStates) * eBoundParametersSize ≤ parDim →
  detail.fillCovarianceRow src rowIndices parDim rowParams row colStates
    iColState target = Some m →
  ∀ l col r c, colStates !! l = Some col →
    rowIndices !! row = Some r → rowIndices !! col.1 = Some c →
    ∀ a b, a < eBoundParametersSize → b < eBoundParametersSize →
      coeff m (rowParams + a)
              (parDim - (iColState + l + 1) * eBoundParametersSize + b)
      = coeff src (r + a) (c + b).
Proof.
  revert iColState target.
  induction colStates as [|[col0 flag] rest IH]; intros iColState target Hfit; simpl.
  - intros _ l col r c Hl. rewrite lookup_nil in Hl. discriminate.
  - destruct (rowIndices !! row) as [r0|] eqn:Hr0; simpl; [|discriminate].
    destruct (rowIndices !! col0) as [c0|] eqn:Hc0; simpl; [|discriminate].
    unfold blockAt. destruct (blockInside src r0 c0 _ _); simpl; [|discriminate].
    intros Hm l col r c Hl Hr Hc a b Ha Hb. simpl in Hfit.
    injection Hr as <-.
    destruct l as [|l].
    + injection Hl as <-. simpl in Hc. rewrite Hc0 in Hc. injection Hc as <-.
      rewrite Nat.add_0_r.
      rewrite (fillCovarianceRow_frame _ _ parDim _ _ rest (S iColState) _ _
                 ltac:(unfold eBoundParametersSize in *; simpl; lia) Hm).
      * cbn [coeff setBlock]. rewrite !inRange_offset by assumption.
        cbn [andb block coeff]. f_equal; lia.
      * right. unfold eBoundParametersSize in *. simpl. lia.
    + simpl in Hl.
      pose proof (IH (S iColState) _ ltac:(unfold eBoundParametersSize in *; simpl; lia)
                    Hm l col r0 c Hl eq_refl Hc a b Ha Hb) as Hblock.
      replace (iColState + S l + 1) with (S iColState + l + 1) by lia.
      exact Hblock.
Qed.

(** Later turns of the outer loop write above the rows of the earlier ones. *)
Lemma fillStates_covariance_frame (multiTraj : detail.MultiTrajectory F) src
    rowIndices parDim allStates todo f f' :
  length allStates * eBoundParametersSize ≤ parDim →
  length todo * eBoundParametersSize ≤ detail.iParams f →
  detail.fillStates multiTraj src rowIndices parDim allStates f todo = Some f' →
  ∀ i j, detail.iParams f ≤ i →
    coeff (detail.fillTrackParametersCovariance f') i j =
    coeff (detail.fillTrackParametersCovariance f) i j.
Proof.
  intros Hall. revert f.
  induction todo as [|[row flag] rest IH]; intros f Hfit Hfill;
    cbn [detail.fillStates] in Hfill.
  - injection Hfill as <-. reflexivity.
  - destruct (detail.fillState multiTraj src rowIndices parDim allStates f (row, flag))
      as [f1|] eqn:H1; simpl in Hfill; [|discriminate].
    assert (Hstate : is_Some (detail.getTrackState multiTraj row)).
    { unfold detail.fillState in H1.
      destruct (detail.getTrackState multiTraj row); [eexists; reflexivity|discriminate]. }
    destruct Hstate as [state Hstate].
    destruct (fillState_inv _ _ _ _ _ _ _ _ _ _ Hstate H1) as (_ & HiP & _ & _ & _ & HC & _).
    intros i j Hi. simpl in Hfit.
    rewrite (IH f1 ltac:(rewrite HiP; unfold eBoundParametersSize in *; lia) Hfill i j)
      by (rewrite HiP; lia).
    apply (fillCovarianceRow_frame _ _ parDim _ _ allStates 0 _ _ ltac:(simpl; lia) HC).
    left. apply inRange_above. unfold eBoundParametersSize in *. lia.
Qed.

Lemma fillStates_covariance_blocks (multiTraj : detail.MultiTrajectory F) src
    rowIndices parDim allStates todo f f' :
  length allStates * eBoundParametersSize ≤ parDim →
  length todo * eBoundParametersSize ≤ detail.iParams f →
  detail.fillStates multiTraj src rowIndices parDim allStates f todo = Some f' →
  ∀ k l rowEntry colEntry r c,
    todo !! k = Some rowEntry → allStates !! l = Some colEntry →
    rowIndices !! rowEntry.1 = Some r → rowIndices !! colEntry.1 = Some c →
    ∀ a b, a < eBoundParametersSize → b < eBoundParametersSize →
      coeff (detail.fillTrackParametersCovariance f')
            (detail.iParams f - eBoundParametersSize * S k + a)
            (parDim - (l + 1) * eBoundParametersSize + b)
      = coeff src (r + a) (c + b).
Proof.
  intros Hall. revert f.
  induction todo as [|[row flag] rest IH]; intros f Hfit Hfill;
    cbn [detail.fillStates] in Hfill.
  - intros k l rowEntry colEntry r c Hk. rewrite lookup_nil in Hk. discriminate.
  - destruct (detail.fillState multiTraj src rowIndices parDim allStates f (row, flag))
      as [f1|] eqn:H1; simpl in Hfill; [|discriminate].
    assert (Hstate : is_Some (detail.getTrackState multiTraj row)).
    { unfold detail.fillState in H1.
      destruct (detail.getTrackState multiTraj row); [eexists; reflexivity|discriminate]. }
    destruct Hstate as [state Hstate].
    destruct (fillState_inv _ _ _ _ _ _ _ _ _ _ Hstate H1) as (_ & HiP & _ & _ & _ & HC & _).
    simpl in Hfit.
    intros k l rowEntry colEntry r c Hk Hl Hr Hc a b Ha Hb.
    destruct k as [|k].
    + injection Hk as <-. simpl in Hr. rewrite Nat.mul_1_r.
      rewrite (fillStates_covariance_frame multiTraj src rowIndices parDim allStates
                 rest f1 f' Hall
                 ltac:(rewrite HiP; unfold eBoundParametersSize in *; lia) Hfill)
        by (rewrite HiP; lia).
      exact (fillCovarianceRow_blocks _ _ parDim _ _ allStates 0 _ _ ltac:(simpl; lia) HC
               l colEntry r c Hl Hr Hc a b Ha Hb).
    + simpl in Hk.
      pose proof (IH f1 ltac:(rewrite HiP; unfold eBoundParametersSize in *; lia) Hfill
                    k l rowEntry colEntry r c Hk Hl Hr Hc a b Ha Hb) as Hblock.
      rewrite HiP in Hblock.
      replace (detail.iParams f - eBoundParametersSize * S (S k))
        with (detail.iParams f - eBoundParametersSize - eBoundParametersSize * S k)
        by (unfold eBoundParametersSize; lia).
      exact Hblock.
Qed.

End Layout.

Section TrackLayout.
Context {F : Type} `{Scalar F}.

Implicit Types (f : detail.Fill F) (ms : list (nat * detail.TrackState F)).
Implicit Types (idxed : gmap Surface nat).

#[local] Arguments detail.visitState : simpl never.

Lemma standsFor_fmap (multiTraj : detail.MultiTrajectory F)
    (entries : list (nat * bool)) ms :
  entries.*1 = ms.*1 →
  Forall (λ its, detail.getTrackState multiTraj its.1 = Some its.2) ms →
  Forall2 (standsFor multiTraj) entries ms.
Proof.
  revert ms. induction entries as [|entry entries IH]; intros [|its ms] Heq Hall;
    try discriminate Heq.
  - constructor.
  - simpl in Heq. injection Heq as Hfst Hrest.
    apply Forall_cons in Hall as [Hits Hall].
    constructor; [split; assumption|]. apply IH; assumption.
Qed.

(** The measurement list of the census stands for the measurement states
    of the walk, in the order of the walk. *)
Lemma standsFor_census (multiTraj : detail.MultiTrajectory F) (entryIndex : nat) idxed :
  Forall2 (standsFor multiTraj)
    (detail.measurementStates (detail.takeCensus multiTraj entryIndex idxed))
    (measurementStatesOf (detail.visitBackwards multiTraj entryIndex)).
Proof.
  apply standsFor_fmap.
  - unfold detail.takeCensus. rewrite census_indices. reflexivity.
  - apply Forall_forall. intros [index ts] Hin. simpl.
    unfold measurementStatesOf in Hin.
    apply list_elem_of_In, filter_In in Hin as [Hin _].
    apply list_elem_of_In in Hin. exact (visitFrom_lookup _ _ _ _ _ Hin).
Qed.

(** With at least one measurement on a registered surface, the returned
    state holds what the loop over the measurement states filled. *)
Lemma trackAlignmentState_filled (inverse : Matrix F → Matrix F)
    (multiTraj : detail.MultiTrajectory F) (entryIndex : nat)
    (src : Matrix F) (rowIndices : gmap nat nat) idxed
    (st : detail.TrackAlignmentState F) :
  detail.trackAlignmentState inverse multiTraj entryIndex (src, rowIndices) idxed
    = Some st →
  let c := detail.takeCensus multiTraj entryIndex idxed in
  detail.nAlignSurfaces c ≠ 0 →
  ∃ f,
    detail.fillStates multiTraj src rowIndices
      (eBoundParametersSize * length (detail.measurementStates c))
      (detail.measurementStates c) (initialFill c) (detail.measurementStates c)
      = Some f ∧
    detail.measurementCovariance st = detail.fillMeasurementCovariance f ∧
    detail.projectionMatrix st = detail.fillProjectionMatrix f ∧
    detail.residual st = detail.fillResidual f ∧
    detail.trackParametersCovariance st = detail.fillTrackParametersCovariance f ∧
    detail.alignedSurfaces st = detail.fillSurfaces f.
Proof.
  intros Hst c Hn. unfold detail.trackAlignmentState in Hst. fold c in Hst.
  apply Nat.eqb_neq in Hn. rewrite Hn in Hst. fold (initialFill c) in Hst.
  destruct (detail.fillStates _ _ _ _ _ _ _) as [f|] eqn:Hf; simpl in Hst;
    [|discriminate].
  injection Hst as <-. exists f. repeat split; reflexivity.
Qed.

Lemma nAlignSurfaces_nonzero (multiTraj : detail.MultiTrajectory F) entryIndex idxed :
  alignableSurfacesOf idxed (detail.visitBackwards multiTraj entryIndex) ≠ [] →
  detail.nAlignSurfaces (detail.takeCensus multiTraj entryIndex idxed) ≠ 0.
Proof.
  intros Hne. destruct (takeCensus_counts multiTraj entryIndex idxed) as (Ha & _).
  rewrite Ha. destruct (alignableSurfacesOf _ _); [congruence|simpl; lia].
Qed.

Lemma stateDims_lookup ms k its :
  ms !! k = Some its →
  detail.calibratedSize its.2 + stateDims (drop (S k) ms) ≤ stateDims ms.
Proof.
  revert k. induction ms as [|its0 ms IH]; intros k Hk; [rewrite lookup_nil in Hk; discriminate|].
  destruct k as [|k]; simpl in *.
  - injection Hk as <-. rewrite drop_0. lia.
  - apply IH in Hk. lia.
Qed.


(** X1.  For a track with a measurement on a registered surface, the
    [k]-th measurement state of the walk (the tip is the first) lands in
    the matrices of the returned state at the row offset that is the sum
    of the measurement dimensions of the states visited after it, and at
    the parameter offset six times the number of those states: its block
    of the measurement covariance is the top-left corner of its calibrated
    covariance, its block of the projection matrix the top-left corner of
    its projector, its segment of the residual is [calibrated - H *
    filtered]; both blocks lie inside the matrices.  The running indices
    therefore never pass below zero. *)
Theorem measurement_blocks_of_track (inverse : Matrix F → Matrix F)
    (multiTraj : detail.MultiTrajectory F) (entryIndex : nat)
    (globalTrackParamsCov : Matrix F * gmap nat nat) idxed
    (st : detail.TrackAlignmentState F) :
  detail.trackAlignmentState inverse multiTraj entryIndex globalTrackParamsCov idxed
    = Some st →
  let visited := detail.visitBackwards multiTraj entryIndex in
  let ms := measurementStatesOf visited in
  alignableSurfacesOf idxed visited ≠ [] →
  ∀ k index ts, ms !! k = Some (index, ts) →
    let o := measurementOffset ms k in
    let p := parametersOffset ms k in
    o + detail.calibratedSize ts ≤ detail.measurementDim st ∧
    p + eBoundParametersSize ≤ detail.trackParametersDim st ∧
    ∀ i, i < detail.calibratedSize ts →
      (∀ j, j < detail.calibratedSize ts →
         coeff (detail.measurementCovariance st) (o + i) (o + j) =
         coeff (detail.calibratedCovariance ts) i j) ∧
      (∀ j, j < eBoundParametersSize →
         coeff (detail.projectionMatrix st) (o + i) (p + j) =
         coeff (detail.projector ts) i j) ∧
      vcoeff (detail.residual st) (o + i) = vcoeff (stateResidual ts) i.
Proof.
  intros Hst visited ms Hne k index ts Hk o p.
  destruct globalTrackParamsCov as [src rowIndices].
  pose proof (nAlignSurfaces_nonzero multiTraj entryIndex idxed Hne) as Hn.
  pose proof (trackAlignmentState_shape _ _ _ _ _ _ Hst) as (_ & Hdim & _ & _ & Hdims).
  destruct (Hdims Hn) as (Hpar & _).
  destruct (trackAlignmentState_filled _ _ _ _ _ _ _ Hst Hn)
    as (f & Hf & -> & -> & -> & _).
  destruct (takeCensus_counts multiTraj entryIndex idxed) as (_ & Hlen & Hd).
  fold visited in Hlen, Hd. fold ms in Hlen.
  assert (Htotal : stateDims ms = detail.censusDim (detail.takeCensus multiTraj entryIndex idxed))
    by (rewrite Hd; reflexivity).
  pose proof (stateDims_lookup ms k (index, ts) Hk) as Hfit. simpl in Hfit.
  pose proof (stateDims_take_drop ms (S k)) as Hsplit.
  pose proof (lookup_lt_Some _ _ _ Hk) as Hklt.
  split; [unfold o, measurementOffset; rewrite Hdim, <- Htotal; lia|].
  split; [unfold p, parametersOffset; rewrite Hpar, Hlen;
          unfold eBoundParametersSize; lia|].
  assert (Hroom : stateDims ms ≤
            detail.iMeasurement (initialFill (detail.takeCensus multiTraj entryIndex idxed)))
    by (simpl; lia).
  pose proof (fillStates_blocks _ _ _ _ _ _ _ _ _
                (standsFor_census multiTraj entryIndex idxed) Hroom Hf
                k index ts Hk) as Hblocks.
  cbv zeta in Hblocks. cbn [initialFill detail.iMeasurement detail.iParams] in Hblocks.
  fold visited in Hblocks. fold ms in Hblocks.
  replace (detail.censusDim (detail.takeCensus multiTraj entryIndex idxed)
           - stateDims (take (S k) ms)) with o in Hblocks
    by (unfold o, measurementOffset; lia).
  replace (eBoundParametersSize *
             length (detail.measurementStates (detail.takeCensus multiTraj entryIndex idxed))
           - eBoundParametersSize * S k) with p in Hblocks
    by (unfold p, parametersOffset; rewrite Hlen; unfold eBoundParametersSize; lia).
  exact Hblocks.
Qed.

(** X2.  The measurement covariance of a returned state is block
    diagonal and its projection matrix has one block per measurement
    state: a coefficient that lies in no block of a measurement state is
    the zero the matrix was allocated with. *)
Theorem measurement_matrices_zero_elsewhere (inverse : Matrix F → Matrix F)
    (multiTraj : detail.MultiTrajectory F) (entryIndex : nat)
    (globalTrackParamsCov : Matrix F * gmap nat nat) idxed
    (st : detail.TrackAlignmentState F) :
  detail.trackAlignmentState inverse multiTraj entryIndex globalTrackParamsCov idxed
    = Some st →
  let ms := measurementStatesOf (detail.visitBackwards multiTraj entryIndex) in
  ∀ i j,
    ((∀ k index ts, ms !! k = Some (index, ts) →
        inRange (measurementOffset ms k) (detail.calibratedSize ts) i &&
        inRange (measurementOffset ms k) (detail.calibratedSize ts) j = false) →
     coeff (detail.measurementCovariance st) i j = szero) ∧
    ((∀ k index ts, ms !! k = Some (index, ts) →
        inRange (measurementOffset ms k) (detail.calibratedSize ts) i &&
        inRange (parametersOffset ms k) eBoundParametersSize j = false) →
     coeff (detail.projectionMatrix st) i j = szero).
Proof.
  intros Hst ms i j.
  destruct globalTrackParamsCov as [src rowIndices].
  set (c := detail.takeCensus multiTraj entryIndex idxed).
  destruct (decide (detail.nAlignSurfaces c = 0)) as [Hzero|Hn].
  - unfold detail.trackAlignmentState in Hst. fold c in Hst.
    rewrite Hzero in Hst. simpl in Hst. injection Hst as <-. split; reflexivity.
  - destruct (trackAlignmentState_filled _ _ _ _ _ _ _ Hst Hn)
      as (f & Hf & -> & -> & _).
    destruct (takeCensus_counts multiTraj entryIndex idxed) as (_ & Hlen & Hd).
    fold ms in Hlen. fold c in Hlen, Hd, Hf.
    assert (Htotal : stateDims ms = detail.censusDim c) by (rewrite Hd; reflexivity).
    destruct (fillStates_elsewhere _ _ _ _ _ _ _ _ _
                (standsFor_census multiTraj entryIndex idxed) Hf i j) as [HV HP].
    fold ms in HV, HP. cbn [initialFill detail.iMeasurement detail.iParams
                            detail.fillMeasurementCovariance
                            detail.fillProjectionMatrix] in HV, HP.
    assert (Ho : ∀ k index ts, ms !! k = Some (index, ts) →
              detail.censusDim c - stateDims (take (S k) ms) = measurementOffset ms k).
    { intros k index ts Hk. pose proof (stateDims_take_drop ms (S k)).
      unfold measurementOffset. lia. }
    assert (Hp : ∀ k index ts, ms !! k = Some (index, ts) →
              eBoundParametersSize * length (detail.measurementStates c)
                - eBoundParametersSize * S k = parametersOffset ms k).
    { intros k index ts Hk. unfold parametersOffset. rewrite Hlen.
      unfold eBoundParametersSize. lia. }
    split; intros Hout.
    + rewrite HV; [reflexivity|]. intros k index ts Hk. cbv zeta.
      rewrite (Ho k index ts Hk). exact (Hout k index ts Hk).
    + rewrite HP; [reflexivity|]. intros k index ts Hk. cbv zeta.
      rewrite (Ho k index ts Hk), (Hp k index ts Hk). exact (Hout k index ts Hk).
Qed.

(** The filling loop reads the blocks of every pair of measurement states
    from the source covariance. *)
Lemma fillCovarianceRow_covered (src : Matrix F) (rowIndices : gmap nat nat)
    parDim rowParams row colStates iColState (target m : Matrix F) :
  detail.fillCovarianceRow src rowIndices parDim rowParams row colStates
    iColState target = Some m →
  Forall (λ entry, ∃ c, rowIndices !! entry.1 = Some c ∧
                        c + eBoundParametersSize ≤ cols src) colStates ∧
  (colStates ≠ [] →
   ∃ r, rowIndices !! row = Some r ∧ r + eBoundParametersSize ≤ rows src).
Proof.
  revert iColState target.
  induction colStates as [|[col flag] rest IH]; intros iColState target; simpl.
  - intros _. split; [constructor|congruence].
  - destruct (rowIndices !! row) as [r|]; simpl; [|discriminate].
    destruct (rowIndices !! col) as [c0|] eqn:Hc; simpl; [|discriminate].
    unfold blockAt, blockInside. destruct (_ && _) eqn:Hin; simpl; [|discriminate].
    apply andb_true_iff in Hin as [Hrin Hcin]. apply Nat.leb_le in Hrin, Hcin.
    intros Hm. split.
    + constructor; [exists c0; split; [exact Hc|exact Hcin]|].
      exact (proj1 (IH _ _ Hm)).
    + intros _. exists r. split; [reflexivity|exact Hrin].
Qed.

Lemma fillStates_covered (multiTraj : detail.MultiTrajectory F) src rowIndices parDim
    allStates todo f f' :
  allStates ≠ [] →
  detail.fillStates multiTraj src rowIndices parDim allStates f todo = Some f' →
  Forall (λ entry, ∃ r, rowIndices !! entry.1 = Some r ∧
                        r + eBoundParametersSize ≤ rows src) todo ∧
  (todo ≠ [] →
   Forall (λ entry, ∃ c, rowIndices !! entry.1 = Some c ∧
                         c + eBoundParametersSize ≤ cols src) allStates).
Proof.
  intros Hne. revert f.
  induction todo as [|[row flag] rest IH]; intros f Hfill;
    cbn [detail.fillStates] in Hfill.
  - split; [constructor|congruence].
  - destruct (detail.fillState multiTraj src rowIndices parDim allStates f (row, flag))
      as [f1|] eqn:H1; simpl in Hfill; [|discriminate].
    assert (Hstate : is_Some (detail.getTrackState multiTraj row)).
    { unfold detail.fillState in H1.
      destruct (detail.getTrackState multiTraj row); [eexists; reflexivity|discriminate]. }
    destruct Hstate as [state Hstate].
    destruct (fillState_inv _ _ _ _ _ _ _ _ _ _ Hstate H1) as (_ & _ & _ & _ & _ & HC & _).
    apply fillCovarianceRow_covered in HC as [Hcols Hrow].
    split; [|intros _; exact Hcols].
    constructor; [exact (Hrow Hne)|]. exact (proj1 (IH _ Hfill)).
Qed.

Lemma measurementStates_covered (inverse : Matrix F → Matrix F)
    (multiTraj : detail.MultiTrajectory F) (entryIndex : nat)
    (src : Matrix F) (rowIndices : gmap nat nat) idxed
    (st : detail.TrackAlignmentState F) :
  detail.trackAlignmentState inverse multiTraj entryIndex (src, rowIndices) idxed
    = Some st →
  alignableSurfacesOf idxed (detail.visitBackwards multiTraj entryIndex) ≠ [] →
  ∀ index ts,
    (index, ts) ∈ measurementStatesOf (detail.visitBackwards multiTraj entryIndex) →
    indexed src rowIndices index.
Proof.
  intros Hst Hne index ts Hin.
  pose proof (nAlignSurfaces_nonzero multiTraj entryIndex idxed Hne) as Hn.
  destruct (trackAlignmentState_filled _ _ _ _ _ _ _ Hst Hn) as (f & Hf & _).
  pose proof (standsFor_census multiTraj entryIndex idxed) as Hrel.
  apply list_elem_of_lookup in Hin as [k Hk].
  destruct (Forall2_lookup_r _ _ _ _ _ Hrel Hk) as (entry & Hentry & Hfst & _).
  simpl in Hfst.
  assert (Hsome : detail.measurementStates
                    (detail.takeCensus multiTraj entryIndex idxed) ≠ []).
  { intros Hnil. rewrite Hnil in Hentry. rewrite lookup_nil in Hentry. discriminate. }
  apply fillStates_covered in Hf as [Hrows Hcols]; [|exact Hsome].
  specialize (Hcols Hsome). rewrite Forall_forall in Hrows, Hcols.
  assert (Hin : entry ∈ detail.measurementStates
                          (detail.takeCensus multiTraj entryIndex idxed))
    by (apply list_elem_of_lookup; exists k; exact Hentry).
  destruct (Hrows _ Hin) as (r & Hr & Hrin).
  destruct (Hcols _ Hin) as (c & Hc & Hcin).
  rewrite Hr in Hc. injection Hc as <-.
  exists r. rewrite <- Hfst. repeat split; assumption.
Qed.

(** X3.  For a track with a measurement on a registered surface, the
    track parameters covariance of the returned state is the source
    covariance restricted to the measurement states: the six by six block
    at the parameter offsets of the [k]-th and the [l]-th measurement
    state is the block of the source covariance at the rows and columns
    that [stateRowIndices] gives for their two indices, which it holds. *)
Theorem trackParametersCovariance_of_track (inverse : Matrix F → Matrix F)
    (multiTraj : detail.MultiTrajectory F) (entryIndex : nat)
    (src : Matrix F) (rowIndices : gmap nat nat) idxed
    (st : detail.TrackAlignmentState F) :
  detail.trackAlignmentState inverse multiTraj entryIndex (src, rowIndices) idxed
    = Some st →
  let visited := detail.visitBackwards multiTraj entryIndex in
  let ms := measurementStatesOf visited in
  alignableSurfacesOf idxed visited ≠ [] →
  ∀ k l rowIndex rowState colIndex colState,
    ms !! k = Some (rowIndex, rowState) → ms !! l = Some (colIndex, colState) →
    ∃ r c,
      rowIndices !! rowIndex = Some r ∧ rowIndices !! colIndex = Some c ∧
      ∀ a b, a < eBoundParametersSize → b < eBoundParametersSize →
        coeff (detail.trackParametersCovariance st)
              (parametersOffset ms k + a) (parametersOffset ms l + b)
        = coeff src (r + a) (c + b).
Proof.
  intros Hst visited ms Hne k l rowIndex rowState colIndex colState Hk Hl.
  pose proof (nAlignSurfaces_nonzero multiTraj entryIndex idxed Hne) as Hn.
  destruct (measurementStates_covered _ _ _ _ _ _ _ Hst Hne rowIndex rowState)
    as (r & Hr & _).
  { apply list_elem_of_lookup. exists k. exact Hk. }
  destruct (measurementStates_covered _ _ _ _ _ _ _ Hst Hne colIndex colState)
    as (c & Hc & _).
  { apply list_elem_of_lookup. exists l. exact Hl. }
  exists r, c. split; [exact Hr|]. split; [exact Hc|].
  destruct (trackAlignmentState_filled _ _ _ _ _ _ _ Hst Hn)
    as (f & Hf & _ & _ & _ & -> & _).
  pose proof (standsFor_census multiTraj entryIndex idxed) as Hrel.
  destruct (Forall2_lookup_r _ _ _ _ _ Hrel Hk) as (rowEntry & Hrow & Hrfst & _).
  destruct (Forall2_lookup_r _ _ _ _ _ Hrel Hl) as (colEntry & Hcol & Hcfst & _).
  simpl in Hrfst, Hcfst.
  destruct (takeCensus_counts multiTraj entryIndex idxed) as (_ & Hlen & _).
  fold visited in Hlen. fold ms in Hlen.
  set (c0 := detail.takeCensus multiTraj entryIndex idxed) in *.
  assert (Hall : length (detail.measurementStates c0) * eBoundParametersSize
                 ≤ eBoundParametersSize * length (detail.measurementStates c0)) by lia.
  assert (Hroom : length (detail.measurementStates c0) * eBoundParametersSize
                  ≤ detail.iParams (initialFill c0))
    by (unfold eBoundParametersSize; simpl; lia).
  intros a b Ha Hb.
  pose proof (fillStates_covariance_blocks _ _ _ _ _ _ _ _ Hall Hroom Hf
                k l rowEntry colEntry r c Hrow Hcol
                ltac:(rewrite Hrfst; exact Hr) ltac:(rewrite Hcfst; exact Hc)
                a b Ha Hb) as Hblock.
  cbn [initialFill detail.iParams] in Hblock.
  pose proof (lookup_lt_Some _ _ _ Hk) as Hklt.
  pose proof (lookup_lt_Some _ _ _ Hl) as Hllt.
  replace (eBoundParametersSize * length (detail.measurementStates c0)
           - eBoundParametersSize * S k) with (parametersOffset ms k) in Hblock
    by (unfold parametersOffset; rewrite Hlen; unfold eBoundParametersSize; lia).
  replace (eBoundParametersSize * length (detail.measurementStates c0)
           - (l + 1) * eBoundParametersSize) with (parametersOffset ms l) in Hblock
    by (unfold parametersOffset; rewrite Hlen; unfold eBoundParametersSize; lia).
  exact Hblock.
Qed.

(** X4.  [trackAlignmentState] returns a state exactly when no
    measurement of the walk lies on a registered surface, or
    [stateRowIndices] holds the index of every measurement state of the
    walk and the row and the column it names leave room for a block of six
    inside the source covariance; otherwise [at] throws, or a block is
    read outside the source covariance. *)
Theorem trackAlignmentState_returns_iff (inverse : Matrix F → Matrix F)
    (multiTraj : detail.MultiTrajectory F) (entryIndex : nat)
    (src : Matrix F) (rowIndices : gmap nat nat) idxed :
  let visited := detail.visitBackwards multiTraj entryIndex in
  is_Some (detail.trackAlignmentState inverse multiTraj entryIndex
             (src, rowIndices) idxed) ↔
  alignableSurfacesOf idxed visited = [] ∨
  ∀ index ts, (index, ts) ∈ measurementStatesOf visited →
              indexed src rowIndices index.
Proof.
  intros visited. split.
  - intros [st Hst].
    destruct (alignableSurfacesOf idxed visited) eqn:Hal; [left; reflexivity|right].
    apply (measurementStates_covered _ _ _ _ _ _ _ Hst).
    fold visited. rewrite Hal. discriminate.
  - intros [Hnone|Hcover].
    + destruct (trackAlignmentState_no_alignable inverse multiTraj entryIndex
                  (src, rowIndices) idxed Hnone) as (st & Hst & _).
      exists st. exact Hst.
    + apply trackAlignmentState_returns. intros index ts Hin Hflag.
      apply (Hcover index ts). unfold measurementStatesOf.
      apply list_elem_of_In, filter_In. split; [apply list_elem_of_In, Hin|exact Hflag].
Qed.

(** ** The aligned surfaces of a track *)

(** The flag of a measurement state is never set, so the loop leaves the
    map of the aligned surfaces as the walk made it. *)
Lemma fillStates_surfaces (multiTraj : detail.MultiTrajectory F) src rowIndices parDim
    allStates todo f f' :
  Forall (λ entry, entry.2 = false) todo →
  detail.fillStates multiTraj src rowIndices parDim allStates f todo = Some f' →
  detail.fillSurfaces f' = detail.fillSurfaces f.
Proof.
  revert f. induction todo as [|[row flag] rest IH]; intros f Hflags Hfill;
    cbn [detail.fillStates] in Hfill.
  - injection Hfill as <-. reflexivity.
  - apply Forall_cons in Hflags as [Hflag Hflags]. simpl in Hflag.
    destruct (detail.fillState multiTraj src rowIndices parDim allStates f (row, flag))
      as [f1|] eqn:H1; simpl in Hfill; [|discriminate].
    assert (Hstate : is_Some (detail.getTrackState multiTraj row)).
    { unfold detail.fillState in H1.
      destruct (detail.getTrackState multiTraj row); [eexists; reflexivity|discriminate]. }
    destruct Hstate as [state Hstate].
    destruct (fillState_inv _ _ _ _ _ _ _ _ _ _ Hstate H1) as (_ & _ & _ & _ & _ & _ & HS).
    rewrite (IH f1 Hflags Hfill). exact (HS Hflag).
Qed.

(** The walk enters every registered surface it meets, with its slot in
    the pool and a local index of zero. *)
Lemma census_surfaces idxed (visited : list (nat * detail.TrackState F))
    (c : detail.Census) (seen : list Surface) :
  (∀ s, detail.censusSurfaces c !! s =
        if bool_decide (s ∈ seen) then (λ idx, (idx, 0)) <$> idxed !! s else None) →
  ∀ s, detail.censusSurfaces (foldl (detail.visitState idxed) c visited) !! s =
       if bool_decide (s ∈ seen ++ alignableSurfacesOf idxed visited)
       then (λ idx, (idx, 0)) <$> idxed !! s else None.
Proof.
  revert c seen. induction visited as [|[index ts] visited IH]; intros c seen Hc s.
  - unfold alignableSurfacesOf. simpl. rewrite app_nil_r. apply Hc.
  - cbn [foldl]. unfold alignableSurfacesOf, measurementStatesOf. cbn [List.filter snd].
    destruct (detail.measurementFlag ts) eqn:Hflag.
    + cbn [map List.filter snd].
      destruct (registered idxed (detail.referenceSurface ts)) eqn:Hreg.
      * pose proof Hreg as Hsome. unfold registered in Hsome.
        apply bool_decide_eq_true in Hsome as [idx Hidx].
        rewrite (IH _ (seen ++ [detail.referenceSurface ts])).
        { unfold alignableSurfacesOf, measurementStatesOf.
          rewrite <- app_assoc. reflexivity. }
        intros s'. rewrite visitState_unfold, Hflag, Hidx. cbn [negb detail.censusSurfaces].
        unfold detail.setFirst.
        destruct (decide (detail.referenceSurface ts = s')) as [<-|Hne].
        -- rewrite lookup_insert_eq.
           rewrite bool_decide_eq_true_2 by (apply elem_of_app; right; apply list_elem_of_singleton; reflexivity).
           rewrite Hidx. simpl. f_equal. f_equal.
           rewrite Hc, Hidx. destruct (bool_decide _); reflexivity.
        -- rewrite lookup_insert_ne by exact Hne. rewrite Hc.
           apply (f_equal (λ b : bool, if b then _ else _)).
           apply bool_decide_ext. rewrite elem_of_app, list_elem_of_singleton.
           split; [intros Hs; left; exact Hs|intros [Hs| ->]; [exact Hs|congruence]].
      * pose proof Hreg as Hidx. unfold registered in Hidx.
        apply bool_decide_eq_false in Hidx. apply eq_None_not_Some in Hidx.
        rewrite (IH _ seen); [reflexivity|].
        intros s'. rewrite visitState_unfold, Hflag, Hidx. apply Hc.
    + rewrite (IH _ seen); [reflexivity|].
      intros s'. rewrite visitState_unfold, Hflag. apply Hc.
Qed.

Lemma alignedSurfaces_census (inverse : Matrix F → Matrix F)
    (multiTraj : detail.MultiTrajectory F) (entryIndex : nat)
    (globalTrackParamsCov : Matrix F * gmap nat nat) idxed
    (st : detail.TrackAlignmentState F) :
  detail.trackAlignmentState inverse multiTraj entryIndex globalTrackParamsCov idxed
    = Some st →
  detail.alignedSurfaces st =
    detail.censusSurfaces (detail.takeCensus multiTraj entryIndex idxed).
Proof.
  intros Hst. destruct globalTrackParamsCov as [src rowIndices].
  set (c := detail.takeCensus multiTraj entryIndex idxed).
  destruct (decide (detail.nAlignSurfaces c = 0)) as [Hzero|Hn].
  - unfold detail.trackAlignmentState in Hst. fold c in Hst.
    rewrite Hzero in Hst. simpl in Hst. injection Hst as <-. reflexivity.
  - destruct (trackAlignmentState_filled _ _ _ _ _ _ _ Hst Hn)
      as (f & Hf & _ & _ & _ & _ & ->).
    apply fillStates_surfaces in Hf; [exact Hf|].
    unfold detail.takeCensus. apply census_flags. constructor.
Qed.

Lemma alignedSurfaces_lookup (inverse : Matrix F → Matrix F)
    (multiTraj : detail.MultiTrajectory F) (entryIndex : nat)
    (globalTrackParamsCov : Matrix F * gmap nat nat) idxed
    (st : detail.TrackAlignmentState F) :
  detail.trackAlignmentState inverse multiTraj entryIndex globalTrackParamsCov idxed
    = Some st →
  ∀ s, detail.alignedSurfaces st !! s =
       if bool_decide (s ∈ alignableSurfacesOf idxed
                             (detail.visitBackwards multiTraj entryIndex))
       then (λ idx, (idx, 0)) <$> idxed !! s else None.
Proof.
  intros Hst s. rewrite (alignedSurfaces_census _ _ _ _ _ _ Hst).
  unfold detail.takeCensus.
  rewrite (census_surfaces idxed _ detail.census0 []); [reflexivity|].
  intros s'. simpl. rewrite lookup_empty. reflexivity.
Qed.

Lemma alignable_registered idxed (visited : list (nat * detail.TrackState F)) s :
  s ∈ alignableSurfacesOf idxed visited → is_Some (idxed !! s).
Proof.
  unfold alignableSurfacesOf. intros Hin.
  apply list_elem_of_In, filter_In in Hin as [_ Hreg].
  unfold registered in Hreg. apply bool_decide_eq_true in Hreg. exact Hreg.
Qed.

(** X5.  The aligned surfaces of a returned state are exactly the
    registered surfaces that carry a measurement on the walk; each is
    stored with its slot in the pool of aligned surfaces and with the
    local index zero, since the alignability flag that would set the local
    index is never raised. *)
Theorem alignedSurfaces_of_track (inverse : Matrix F → Matrix F)
    (multiTraj : detail.MultiTrajectory F) (entryIndex : nat)
    (globalTrackParamsCov : Matrix F * gmap nat nat) idxed
    (st : detail.TrackAlignmentState F) :
  detail.trackAlignmentState inverse multiTraj entryIndex globalTrackParamsCov idxed
    = Some st →
  let visited := detail.visitBackwards multiTraj entryIndex in
  dom (detail.alignedSurfaces st) = distinctAlignableSurfaces idxed visited ∧
  ∀ s slots, detail.alignedSurfaces st !! s = Some slots ↔
             s ∈ alignableSurfacesOf idxed visited ∧
             idxed !! s = Some slots.1 ∧ slots.2 = 0.
Proof.
  intros Hst visited.
  pose proof (alignedSurfaces_lookup _ _ _ _ _ _ Hst) as Hlookup. fold visited in Hlookup.
  split.
  - apply set_eq. intros s. unfold distinctAlignableSurfaces.
    rewrite elem_of_dom, elem_of_list_to_set, Hlookup.
    destruct (bool_decide (s ∈ alignableSurfacesOf idxed visited)) eqn:Hin.
    + apply bool_decide_eq_true in Hin. split; [intros _; exact Hin|intros _].
      destruct (alignable_registered _ _ _ Hin) as [idx Hidx]. rewrite Hidx.
      eexists. reflexivity.
    + apply bool_decide_eq_false in Hin. split; [intros [x Hx]; discriminate|].
      intros Hs. contradiction.
  - intros s [slot local]. rewrite Hlookup. simpl.
    destruct (bool_decide (s ∈ alignableSurfacesOf idxed visited)) eqn:Hin.
    + apply bool_decide_eq_true in Hin.
      destruct (idxed !! s) as [idx|]; simpl.
      * split; [intros [= <- <-]; repeat split; assumption|].
        intros (_ & [= <-] & <-). reflexivity.
      * split; [discriminate|]. intros (_ & Hidx & _). discriminate.
    + apply bool_decide_eq_false in Hin. split; [discriminate|].
      intros (Hs & _). contradiction.
Qed.

(** X6.  For a track without a measurement on a registered surface the
    function returns before it reads the covariance: the state has no
    degree of freedom, no track-parameter dimension, no aligned surface,
    a chi2 of zero and matrices without coefficients, while its
    measurement dimension still counts every measurement of the walk. *)
Theorem no_alignable_surface_returns_early (inverse : Matrix F → Matrix F)
    (multiTraj : detail.MultiTrajectory F) (entryIndex : nat)
    (globalTrackParamsCov : Matrix F * gmap nat nat) idxed :
  let visited := detail.visitBackwards multiTraj entryIndex in
  alignableSurfacesOf idxed visited = [] →
  ∃ st,
    detail.trackAlignmentState inverse multiTraj entryIndex globalTrackParamsCov idxed
      = Some st ∧
    detail.alignmentDof st = 0 ∧
    detail.trackParametersDim st = 0 ∧
    detail.measurementDim st = totalMeasurementDim visited ∧
    detail.alignedSurfaces st = ∅ ∧
    detail.chi2 st = szero ∧
    [ rows (detail.measurementCovariance st); cols (detail.measurementCovariance st);
      rows (detail.projectionMatrix st); cols (detail.projectionMatrix st);
      rows (detail.trackParametersCovariance st);
      cols (detail.trackParametersCovariance st);
      vsize (detail.residual st);
      vsize (detail.alignmentToChi2Derivative st);
      rows (detail.alignmentToChi2SecondDerivative st);
      cols (detail.alignmentToChi2SecondDerivative st) ]
    = [0; 0; 0; 0; 0; 0; 0; 0; 0; 0].
Proof.
  intros visited Hnone.
  destruct (takeCensus_counts multiTraj entryIndex idxed) as (Ha & _ & Hd).
  fold visited in Ha, Hd. rewrite Hnone in Ha. simpl in Ha.
  assert (Hst : detail.trackAlignmentState inverse multiTraj entryIndex
                  globalTrackParamsCov idxed
                = Some {| detail.measurementCovariance := emptyMatrix;
                          detail.trackParametersCovariance := emptyMatrix;
                          detail.projectionMatrix := emptyMatrix;
                          detail.residual := emptyVector;
                          detail.residualCovariance := emptyMatrix;
                          detail.chi2 := szero;
                          detail.alignmentToResidualDerivative := emptyMatrix;
                          detail.alignmentToChi2Derivative := emptyVector;
                          detail.alignmentToChi2SecondDerivative := emptyMatrix;
                          detail.alignedSurfaces :=
                            detail.censusSurfaces
                              (detail.takeCensus multiTraj entryIndex idxed);
                          detail.measurementDim :=
                            detail.censusDim (detail.takeCensus multiTraj entryIndex idxed);
                          detail.trackParametersDim := 0;
                          detail.alignmentDof := 0 |}).
  { unfold detail.trackAlignmentState. rewrite Ha. reflexivity. }
  eexists. split; [exact Hst|]. cbn.
  split; [reflexivity|]. split; [reflexivity|]. split; [exact Hd|].
  split; [|split; reflexivity].
  apply map_eq. intros s.
  rewrite <- (alignedSurfaces_census _ _ _ _ _ _ Hst).
  rewrite (alignedSurfaces_lookup _ _ _ _ _ _ Hst). fold visited. rewrite Hnone.
  rewrite lookup_empty. rewrite bool_decide_eq_false_2 by apply not_elem_of_nil.
  reflexivity.
Qed.

End TrackLayout.

Section DerivativeDimensions.
Context {F : Type} `{Scalar F}.

(** X7.  For a track with a measurement on a registered surface: the
    measurement covariance, the residual, the covariance of the residual
    and the rows of the derivative of the residual have the measurement
    dimension; the columns of that derivative, the first derivative of
    chi2 and the second derivative of chi2 have [alignmentDof], which is
    at least six, whatever [inverse] returns. *)
Theorem derivative_dimensions_of_track (inverse : Matrix F → Matrix F)
    (multiTraj : detail.MultiTrajectory F) (entryIndex : nat)
    (globalTrackParamsCov : Matrix F * gmap nat nat) (idxed : gmap Surface nat)
    (st : detail.TrackAlignmentState F) :
  detail.trackAlignmentState inverse multiTraj entryIndex globalTrackParamsCov idxed
    = Some st →
  alignableSurfacesOf idxed (detail.visitBackwards multiTraj entryIndex) ≠ [] →
  let dim := detail.measurementDim st in
  let dof := detail.alignmentDof st in
  eAlignmentParametersSize ≤ dof ∧
  [ rows (detail.measurementCovariance st); cols (detail.measurementCovariance st);
    vsize (detail.residual st);
    rows (detail.residualCovariance st); cols (detail.residualCovariance st);
    rows (detail.alignmentToResidualDerivative st) ]
  = [dim; dim; dim; dim; dim; dim] ∧
  [ cols (detail.alignmentToResidualDerivative st);
    vsize (detail.alignmentToChi2Derivative st);
    rows (detail.alignmentToChi2SecondDerivative st);
    cols (detail.alignmentToChi2SecondDerivative st) ]
  = [dof; dof; dof; dof].
Proof.
  intros Hst Hne dim dof.
  pose proof (nAlignSurfaces_nonzero multiTraj entryIndex idxed Hne) as Hn.
  pose proof (trackAlignmentState_shape _ _ _ _ _ _ Hst) as (Hdof & Hdim & _ & _ & Hdims).
  destruct (Hdims Hn) as (_ & _ & _ & _ & _ & HVr & HVc & Hr).
  split; [unfold dof; rewrite Hdof; unfold eAlignmentParametersSize; lia|].
  unfold dim, dof. rewrite HVr, HVc, Hr. clear HVr HVc Hr Hdims.
  unfold detail.trackAlignmentState in Hst.
  apply Nat.eqb_neq in Hn. rewrite Hn in Hst.
  destruct globalTrackParamsCov as [src rowIndices].
  destruct (detail.fillStates _ _ _ _ _ _ _) as [f|] eqn:Hf; simpl in Hst;
    [|discriminate].
  apply fillStates_dims in Hf. unfold fillDims in Hf. simpl in Hf.
  injection Hf as HVr HVc _ _ _ _ _.
  injection Hst as <-. cbn. rewrite HVr, HVc. split; reflexivity.
Qed.

End DerivativeDimensions.

(** The two hits of [doubleHit], both on the aligned surface 0: the tip
    state lands in rows 2 and 3. *)
Lemma measurement_blocks_of_track_witness :
  ∃ st : detail.TrackAlignmentState float,
    Telescope.stateOfTrack 1 Telescope.doubleHit = Some st ∧
    vcoeff (detail.residual st) 2 = 1%float ∧
    coeff (detail.measurementCovariance st) 3 3 = 1%float ∧
    coeff (detail.projectionMatrix st) 3 7 = 1%float.
Proof.
  unfold Telescope.stateOfTrack, Telescope.stateOfTrackWith.
  destruct (detail.trackAlignmentState _ _ _ _ _) as [st|] eqn:Hst;
    [|discriminate Hst].
  exists st. split; [reflexivity|].
  pose proof (measurement_blocks_of_track _ _ _ _ _ _ Hst
                ltac:(vm_compute; discriminate) 0 1
                (Telescope.stateOf 1 (0, of_size 1, of_size 1)) eq_refl)
    as (_ & _ & Hblocks).
  destruct (Hblocks 0 ltac:(simpl; lia)) as (_ & _ & Hr).
  destruct (Hblocks 1 ltac:(simpl; lia)) as (HV & HP & _).
  split; [exact Hr|]. split; [exact (HV 1 ltac:(simpl; lia))|].
  exact (HP 1 ltac:(unfold eBoundParametersSize; lia)).
Defined.

(** The coefficient between the blocks of the two hits. *)
Lemma measurement_matrices_zero_elsewhere_witness :
  ∃ st : detail.TrackAlignmentState float,
    Telescope.stateOfTrack 1 Telescope.doubleHit = Some st ∧
    coeff (detail.measurementCovariance st) 0 2 = 0%float.
Proof.
  unfold Telescope.stateOfTrack, Telescope.stateOfTrackWith.
  destruct (detail.trackAlignmentState _ _ _ _ _) as [st|] eqn:Hst;
    [|discriminate Hst].
  exists st. split; [reflexivity|].
  apply (measurement_matrices_zero_elsewhere _ _ _ _ _ _ Hst 0 2).
  intros [|[|k]] index ts Hk; [| |discriminate Hk];
    injection Hk as <- <-; reflexivity.
Defined.

(** The two hits of [doubleHit] under the identity covariance of the stand-in. *)
Lemma trackParametersCovariance_of_track_witness :
  ∃ st : detail.TrackAlignmentState float,
    Telescope.stateOfTrack 1 Telescope.doubleHit = Some st ∧
    coeff (detail.trackParametersCovariance st) 6 6 = 1%float ∧
    coeff (detail.trackParametersCovariance st) 6 0 = 0%float.
Proof.
  unfold Telescope.stateOfTrack, Telescope.stateOfTrackWith.
  destruct (detail.trackAlignmentState _ _ _ _ _) as [st|] eqn:Hst;
    [|discriminate Hst].
  exists st. split; [reflexivity|].
  pose proof (trackParametersCovariance_of_track Telescope.gaussJordanInverse
                (Telescope.trackOf Telescope.doubleHit) 1
                (Telescope.identity 12)
                (list_to_map (map (λ i, (i, eBoundParametersSize * i)) (seq 0 2)))
                (FW.idxedAlignSurfacesOf Telescope.telescope (seq 0 1)) st Hst
                ltac:(vm_compute; discriminate)) as Hblocks.
  destruct (Hblocks 0 0 1 (Telescope.stateOf 1 (0, of_size 1, of_size 1))
              1 (Telescope.stateOf 1 (0, of_size 1, of_size 1)) eq_refl eq_refl)
    as (r & c & Hr & Hc & Htip).
  destruct (Hblocks 0 1 1 (Telescope.stateOf 1 (0, of_size 1, of_size 1))
              0 (Telescope.stateOf 0 (0, of_size 2, szero)) eq_refl eq_refl)
    as (r' & c' & Hr' & Hc' & Hcross).
  vm_compute in Hr, Hc, Hr', Hc'.
  injection Hr as <-. injection Hc as <-. injection Hr' as <-. injection Hc' as <-.
  split.
  - exact (Htip 0 0 ltac:(unfold eBoundParametersSize; lia)
             ltac:(unfold eBoundParametersSize; lia)).
  - exact (Hcross 0 0 ltac:(unfold eBoundParametersSize; lia)
             ltac:(unfold eBoundParametersSize; lia)).
Defined.

(** One aligned surface, hit twice. *)
Lemma alignedSurfaces_of_track_witness :
  ∃ st : detail.TrackAlignmentState float,
    Telescope.stateOfTrack 1 Telescope.doubleHit = Some st ∧
    detail.alignedSurfaces st !! 0 = Some (0, 0) ∧
    size (detail.alignedSurfaces st) = 1.
Proof.
  unfold Telescope.stateOfTrack, Telescope.stateOfTrackWith.
  destruct (detail.trackAlignmentState _ _ _ _ _) as [st|] eqn:Hst;
    [|discriminate Hst].
  exists st. split; [reflexivity|].
  destruct (alignedSurfaces_of_track _ _ _ _ _ _ Hst) as [Hdom Hlookup].
  split.
  - apply Hlookup. split; [|split; reflexivity].
    apply elem_of_cons. left. reflexivity.
  - rewrite <- size_dom, Hdom. vm_compute. reflexivity.
Defined.

(** A track whose only hit is on surface 7, with element 0 to be aligned. *)
Lemma no_alignable_surface_returns_early_witness :
  ∃ st : detail.TrackAlignmentState float,
    Telescope.stateOfTrack 1 Telescope.elsewhere = Some st ∧
    detail.alignmentDof st = 0 ∧ detail.measurementDim st = 2.
Proof.
  destruct (no_alignable_surface_returns_early (F:=float)
              Telescope.gaussJordanInverse
              (Telescope.trackOf Telescope.elsewhere) 0
              (FW.globalTrackParametersCovariance Telescope.telescope
                 (Telescope.trackOf Telescope.elsewhere) 0)
              (FW.idxedAlignSurfacesOf Telescope.telescope (seq 0 1)) eq_refl)
    as (st & Hst & Hdof & _ & Hdim & _).
  exists st. split; [exact Hst|]. split; [exact Hdof|exact Hdim].
Defined.

Lemma derivative_dimensions_of_track_witness :
  ∃ st : detail.TrackAlignmentState float,
    Telescope.stateOfTrackWith [0] Telescope.doubleHit = Some st ∧
    vsize (detail.alignmentToChi2Derivative st) = detail.alignmentDof st ∧
    rows (detail.residualCovariance st) = detail.measurementDim st.
Proof.
  assert (Hsome : match Telescope.stateOfTrackWith (F:=float) [0]
                           Telescope.doubleHit with
                  | Some _ => true
                  | None => false
                  end = true) by (vm_compute; reflexivity).
  unfold Telescope.stateOfTrackWith in *.
  destruct (detail.trackAlignmentState _ _ _ _ _) as [st|] eqn:Hst;
    [|discriminate Hsome].
  exists st. split; [reflexivity|].
  destruct (derivative_dimensions_of_track _ _ _ _ _ _ Hst
              ltac:(vm_compute; discriminate)) as (_ & Hdim & Hdof).
  injection Hdim as _ _ _ HR _ _. injection Hdof as _ Hg _ _.
  split; [exact Hg|exact HR].
Defined.


(* ================================================================== *)
(** * The slots of the aligned surfaces *)
(* ================================================================== *)

Section Slots.
Context {F : Type} `{Scalar F} (X : FW.Externals F).

Implicit Types (idxed : gmap Surface nat) (elements : list Element).

(** X8.  [emplace] keeps the first index given to a surface: in the
    indexed surfaces every surface is mapped to the position of the first
    element of the list that carries it, and a surface carried by no
    element is absent. *)
Theorem slot_is_first_occurrence elements (s : Surface) :
  FW.idxedAlignSurfacesOf X elements !! s =
  fst <$> list_find (λ element, FW.surfaceOf X element = s) elements.
Proof.
  unfold FW.idxedAlignSurfacesOf. rewrite indexSurfaces_lookup, lookup_empty.
  destruct (list_find _ elements) as [[j el]|]; reflexivity.
Qed.

(** X9.  When the elements to align have pairwise distinct surfaces, the
    surface of the [i]-th element gets the slot [i], there are as many
    slots as elements, and every slot is below the number of slots, so
    that its block of six lies inside the system of [6 * size]
    parameters.  (A surface listed twice takes one slot and leaves a
    position unused: the later slots are then no longer below the
    number of slots.) *)
Theorem distinct_surfaces_fill_the_slots elements :
  NoDup (FW.surfaceOf X <$> elements) →
  let idxed := FW.idxedAlignSurfacesOf X elements in
  (∀ i element, elements !! i = Some element →
                idxed !! FW.surfaceOf X element = Some i) ∧
  size idxed = length elements ∧
  (∀ s i, idxed !! s = Some i →
          i * eAlignmentParametersSize + eAlignmentParametersSize
            ≤ size idxed * eAlignmentParametersSize).
Proof.
  intros Hnodup idxed.
  destruct (distinct_slots X elements Hnodup) as (Hslot & Hsize & Hbound).
  split; [exact Hslot|]. split; [exact Hsize|].
  intros s i Hi. apply Hbound in Hi. fold idxed in Hi.
  unfold eAlignmentParametersSize. lia.
Qed.

End Slots.

Section InRange.
Context {F : Type} `{Scalar F} (X : FW.Externals F).

(** X10.  When the elements to align have pairwise distinct surfaces
    and the evaluation of a track succeeds, every aligned surface of the
    track names a block of six that lies inside the summed gradient (of
    [6 * size] entries) and a block of six that lies inside the
    derivatives of the track: the accumulation reads and writes inside
    its vectors and matrices. *)
Theorem accumulated_blocks_are_in_range (detElements : list Element)
    (sourcelinks : FW.SourceLinks X) (sParameters : FW.StartParameters X)
    (fitOpts : FW.FitOptions X) (alignMask : AlignmentMask)
    (e : FW.Env X) (st : detail.TrackAlignmentState F) (e' : FW.Env X) :
  NoDup (FW.surfaceOf X <$> detElements) →
  FW.evaluateTrackAlignmentState X sourcelinks sParameters fitOpts
    (FW.idxedAlignSurfacesOf X detElements) alignMask e
    = FW.Returns (FW.success st) e' →
  ∀ surface dst src,
    detail.alignedSurfaces st !! surface = Some (dst, src) →
    dst * eAlignmentParametersSize + eAlignmentParametersSize
      ≤ size (FW.idxedAlignSurfacesOf X detElements) * eAlignmentParametersSize ∧
    src * eAlignmentParametersSize + eAlignmentParametersSize
      ≤ detail.alignmentDof st.
Proof.
  intros Hnodup Hev surface dst src Hslot.
  apply evaluate_success_inv in Hev as (fitted & tip & _ & Hst & Hdof & _).
  pose proof (trackAlignmentState_shape _ _ _ _ _ _ Hst) as (Hshape & _).
  rewrite (alignedSurfaces_lookup _ _ _ _ _ _ Hst) in Hslot.
  destruct (bool_decide _); [|discriminate].
  destruct (FW.idxedAlignSurfacesOf X detElements !! surface) as [idx|] eqn:Hidx;
    [|discriminate].
  injection Hslot as <- <-.
  destruct (distinct_slots X detElements Hnodup) as (_ & _ & Hbound).
  apply Hbound in Hidx. split.
  - unfold eAlignmentParametersSize. lia.
  - rewrite Hshape in Hdof |- *. unfold eAlignmentParametersSize in *. lia.
Qed.

End InRange.

(** The five aligned layers of the unit test. *)
Lemma distinct_surfaces_fill_the_slots_witness :
  FW.idxedAlignSurfacesOf (F:=float) Telescope.telescope Telescope.alignedLayers !! 4
    = Some 3 ∧
  size (FW.idxedAlignSurfacesOf (F:=float) Telescope.telescope Telescope.alignedLayers)
    = 5.
Proof.
  destruct (distinct_surfaces_fill_the_slots (F:=float) Telescope.telescope
              Telescope.alignedLayers
              ltac:(apply (bool_decide_unpack _); vm_compute; exact I))
    as (Hslot & Hsize & _).
  split; [exact (Hslot 3 4 eq_refl)|exact Hsize].
Defined.

(** The six-layer track of the unit test and its five aligned layers. *)
Lemma accumulated_blocks_are_in_range_witness :
  ∃ st e',
    FW.evaluateTrackAlignmentState (F:=float) Telescope.telescope Telescope.sixLayers
      tt tt (FW.idxedAlignSurfacesOf Telescope.telescope Telescope.alignedLayers)
      FW.allFree Telescope.env0 = FW.Returns (FW.success st) e' ∧
    ∀ surface dst src,
      detail.alignedSurfaces st !! surface = Some (dst, src) →
      dst * 6 + 6 ≤ 30 ∧ src * 6 + 6 ≤ detail.alignmentDof st.
Proof.
  assert (Hrun : match FW.evaluateTrackAlignmentState (F:=float) Telescope.telescope
                         Telescope.sixLayers tt tt
                         (FW.idxedAlignSurfacesOf Telescope.telescope
                            Telescope.alignedLayers)
                         FW.allFree Telescope.env0 with
                 | FW.Returns (FW.success _) _ => true
                 | _ => false
                 end = true) by (vm_compute; reflexivity).
  destruct (FW.evaluateTrackAlignmentState _ _ _ _ _ _ _) as [[st|err] e'|] eqn:Hev;
    try discriminate Hrun.
  pose proof (accumulated_blocks_are_in_range Telescope.telescope Telescope.alignedLayers
              Telescope.sixLayers tt tt FW.allFree Telescope.env0 st e'
              ltac:(apply (bool_decide_unpack _); vm_compute; exact I) Hev)
    as Hblocks.
  exists st, e'. split; [reflexivity|]. exact Hblocks.
Defined.

(* ================================================================== *)
(** * When the update returns, and when it cannot *)
(* ================================================================== *)

Section DerivativeDims.
Context {F : Type} `{Scalar F}.

(** The chi2 derivatives of a returned state have one entry, one row and
    one column for each of its degrees of freedom. *)
Lemma trackAlignmentState_derivative_dims (inverse : Matrix F → Matrix F)
    (multiTraj : detail.MultiTrajectory F) (entryIndex : nat)
    (globalTrackParamsCov : Matrix F * gmap nat nat)
    (idxed : gmap Surface nat) (st : detail.TrackAlignmentState F) :
  detail.trackAlignmentState inverse multiTraj entryIndex globalTrackParamsCov
    idxed = Some st →
  vsize (detail.alignmentToChi2Derivative st) = detail.alignmentDof st ∧
  rows (detail.alignmentToChi2SecondDerivative st) = detail.alignmentDof st ∧
  cols (detail.alignmentToChi2SecondDerivative st) = detail.alignmentDof st.
Proof.
  intros Hst. unfold detail.trackAlignmentState in Hst.
  destruct (detail.nAlignSurfaces _ =? 0).
  - injection Hst as <-. simpl. repeat split; reflexivity.
  - destruct globalTrackParamsCov as [src rowIndices].
    destruct (detail.fillStates _ _ _ _ _ _ _) as [f|] eqn:Hf; simpl in Hst;
      [|discriminate].
    injection Hst as <-. simpl. repeat split; reflexivity.
Qed.

End DerivativeDims.

Section Returning.
Context {F : Type} `{Scalar F} (X : FW.Externals F).

Implicit Types (e : FW.Env X) (s : FW.Sums F).

Lemma addSecondDerivativeRow_returns (st : detail.TrackAlignmentState F)
    (dstRow srcRow : nat) (columns : list (Surface * (nat * nat)))
    (h : Matrix F) (n : nat) :
  rows h = n → cols h = n →
  dstRow * eAlignmentParametersSize + eAlignmentParametersSize ≤ n →
  srcRow * eAlignmentParametersSize + eAlignmentParametersSize
    ≤ rows (detail.alignmentToChi2SecondDerivative st) →
  Forall (λ entry,
            entry.2.1 * eAlignmentParametersSize + eAlignmentParametersSize ≤ n ∧
            entry.2.2 * eAlignmentParametersSize + eAlignmentParametersSize
              ≤ cols (detail.alignmentToChi2SecondDerivative st)) columns →
  is_Some (FW.addSecondDerivativeRow st dstRow srcRow h columns).
Proof.
  intros Hr Hc Hdst Hsrc. revert h Hr Hc.
  induction columns as [|[surface [dstCol srcCol]] rest IH]; intros h Hr Hc Hall;
    cbn [FW.addSecondDerivativeRow].
  - eexists. reflexivity.
  - apply Forall_cons in Hall as [[Hd Hs] Hrest]. simpl in Hd, Hs.
    unfold addBlockAt, blockInside. rewrite Hr, Hc.
    rewrite (proj2 (Nat.leb_le _ _) Hdst), (proj2 (Nat.leb_le _ _) Hd),
            (proj2 (Nat.leb_le _ _) Hsrc), (proj2 (Nat.leb_le _ _) Hs).
    simpl. apply IH; [exact Hr|exact Hc|exact Hrest].
Qed.

Lemma addDerivativeRows_returns (st : detail.TrackAlignmentState F)
    (surfaces todo : list (Surface * (nat * nat)))
    (g : Vector F) (h : Matrix F) (n : nat) :
  let inside (entry : Surface * (nat * nat)) :=
    entry.2.1 * eAlignmentParametersSize + eAlignmentParametersSize ≤ n ∧
    entry.2.2 * eAlignmentParametersSize + eAlignmentParametersSize
      ≤ detail.alignmentDof st in
  vsize g = n → rows h = n → cols h = n →
  vsize (detail.alignmentToChi2Derivative st) = detail.alignmentDof st →
  rows (detail.alignmentToChi2SecondDerivative st) = detail.alignmentDof st →
  cols (detail.alignmentToChi2SecondDerivative st) = detail.alignmentDof st →
  Forall inside surfaces → Forall inside todo →
  is_Some (FW.addDerivativeRows st surfaces (g, h) todo).
Proof.
  intros inside Hg Hr Hc Hd1 Hd2r Hd2c Hsurfaces. revert g h Hg Hr Hc.
  induction todo as [|[surface [dstRow srcRow]] rest IH]; intros g h Hg Hr Hc Htodo;
    cbn [FW.addDerivativeRows fst snd].
  - eexists. reflexivity.
  - apply Forall_cons in Htodo as [[Hd Hs] Hrest]. simpl in Hd, Hs.
    unfold addSegmentAt, segmentInside. rewrite Hg, Hd1.
    rewrite (proj2 (Nat.leb_le _ _) Hd), (proj2 (Nat.leb_le _ _) Hs). simpl.
    destruct (addSecondDerivativeRow_returns st dstRow srcRow surfaces h n Hr Hc Hd)
      as [h1 Hh1].
    { rewrite Hd2r. exact Hs. }
    { rewrite Hd2c. exact Hsurfaces. }
    rewrite Hh1. simpl.
    apply addSecondDerivativeRow_dims in Hh1 as [Hr1 Hc1].
    apply IH; [exact Hg|congruence|congruence|exact Hrest].
Qed.

(** With pairwise distinct surfaces, every block of a track that has a
    degree of freedom lies inside the sums and inside the derivatives of
    the track: the track is added. *)
Lemma addTrack_returns (detElements : list Element) (inverse : Matrix F → Matrix F)
    (multiTraj : detail.MultiTrajectory F) (entryIndex : nat)
    (globalTrackParamsCov : Matrix F * gmap nat nat)
    (st : detail.TrackAlignmentState F) s :
  NoDup (FW.surfaceOf X <$> detElements) →
  detail.trackAlignmentState inverse multiTraj entryIndex globalTrackParamsCov
    (FW.idxedAlignSurfacesOf X detElements) = Some st →
  detail.alignmentDof st ≠ 0 →
  sumsDims s = [ size (FW.idxedAlignSurfacesOf X detElements) * eAlignmentParametersSize;
                 size (FW.idxedAlignSurfacesOf X detElements) * eAlignmentParametersSize;
                 size (FW.idxedAlignSurfacesOf X detElements) * eAlignmentParametersSize ] →
  is_Some (FW.addTrack X st s).
Proof.
  intros Hnodup Hst Hdof Hdims. unfold sumsDims in Hdims.
  injection Hdims as Hg Hr Hc.
  destruct (trackAlignmentState_derivative_dims _ _ _ _ _ _ Hst) as (Hd1 & Hd2r & Hd2c).
  pose proof (trackAlignmentState_shape _ _ _ _ _ _ Hst) as (Hshape & _).
  assert (Hinside : Forall (λ entry : Surface * (nat * nat),
            entry.2.1 * eAlignmentParametersSize + eAlignmentParametersSize
              ≤ size (FW.idxedAlignSurfacesOf X detElements) * eAlignmentParametersSize ∧
            entry.2.2 * eAlignmentParametersSize + eAlignmentParametersSize
              ≤ detail.alignmentDof st)
            (FW.traverse X (detail.alignedSurfaces st))).
  { apply Forall_forall. intros [surface [dst src]] Hin. simpl.
    apply traverse_lookup in Hin.
    rewrite (alignedSurfaces_lookup _ _ _ _ _ _ Hst) in Hin.
    destruct (bool_decide _); [|discriminate].
    destruct (FW.idxedAlignSurfacesOf X detElements !! surface) as [idx|] eqn:Hidx;
      [|discriminate].
    injection Hin as <- <-.
    destruct (distinct_slots X detElements Hnodup) as (_ & _ & Hbound).
    apply Hbound in Hidx. split.
    - unfold eAlignmentParametersSize. lia.
    - rewrite Hshape in Hdof |- *. unfold eAlignmentParametersSize in *. lia. }
  unfold FW.addTrack, FW.addDerivatives.
  destruct (addDerivativeRows_returns st (FW.traverse X (detail.alignedSurfaces st))
              (FW.traverse X (detail.alignedSurfaces st))
              (FW.sumChi2Derivative s) (FW.sumChi2SecondDerivative s) _
              Hg Hr Hc Hd1 Hd2r Hd2c Hinside Hinside) as [[g h] Hadd].
  rewrite Hadd. simpl. eexists. reflexivity.
Qed.

(** One turn of the loop over the trajectories returns when the track has
    its start parameters and, if its fit succeeds, a covered covariance. *)
Lemma accumulateTrack_returns (starts : list (FW.StartParameters X))
    (fitOpts : FW.FitOptions X) (detElements : list Element)
    (alignMask : AlignmentMask) (iTraj : nat) (sourcelinks : FW.SourceLinks X)
    (sParameters : FW.StartParameters X) s e :
  let idxed := FW.idxedAlignSurfacesOf X detElements in
  NoDup (FW.surfaceOf X <$> detElements) →
  sumsDims s = [ size idxed * eAlignmentParametersSize;
                 size idxed * eAlignmentParametersSize;
                 size idxed * eAlignmentParametersSize ] →
  starts !! iTraj = Some sParameters →
  (∀ fitted tip,
     FW.fit X (FW.world X e) sourcelinks sParameters
       (FW.withReferenceSurface X fitOpts (FW.startSurface X sParameters))
       = FW.success (fitted, tip) →
     coveredTrack X fitted tip) →
  ∃ s' e', FW.accumulateTrack X starts fitOpts idxed alignMask iTraj sourcelinks s e
           = FW.Returns s' e'.
Proof.
  intros idxed Hnodup Hdims Hstart Hcovered.
  unfold FW.accumulateTrack, FW.evaluateTrackAlignmentState, mbind, FW.M_bind,
    FW.readWorld.
  rewrite Hstart. cbn [FW.liftOption mret FW.M_ret].
  destruct (FW.fit X (FW.world X e) sourcelinks sParameters _)
    as [[fitted tip]|err] eqn:Hfit.
  - specialize (Hcovered fitted tip eq_refl). unfold coveredTrack in Hcovered.
    destruct (FW.globalTrackParametersCovariance X fitted tip) as [src rowIndices]
      eqn:Hcov.
    destruct (trackAlignmentState_returns (FW.inverse X) fitted tip src rowIndices idxed)
      as [st Hst].
    { intros index ts Hin Hflag. apply (Hcovered index ts).
      unfold measurementStatesOf.
      apply list_elem_of_In, filter_In. split; [apply list_elem_of_In, Hin|exact Hflag]. }
    rewrite Hst. cbn [FW.liftOption mret FW.M_ret].
    destruct (detail.alignmentDof st =? 0) eqn:Hdof.
    + eexists _, _. reflexivity.
    + apply Nat.eqb_neq in Hdof.
      destruct (addTrack_returns detElements _ _ _ _ st s Hnodup Hst Hdof Hdims)
        as [s' Hadd].
      cbn [FW.liftOption mret FW.M_ret]. rewrite Hadd.
      eexists _, _. reflexivity.
  - eexists _, _. reflexivity.
Qed.

Lemma accumulateTracks_returns (starts : list (FW.StartParameters X))
    (fitOpts : FW.FitOptions X) (detElements : list Element)
    (alignMask : AlignmentMask) (trajectories : list (FW.SourceLinks X))
    (iTraj : nat) s e :
  let idxed := FW.idxedAlignSurfacesOf X detElements in
  NoDup (FW.surfaceOf X <$> detElements) →
  sumsDims s = [ size idxed * eAlignmentParametersSize;
                 size idxed * eAlignmentParametersSize;
                 size idxed * eAlignmentParametersSize ] →
  iTraj + length trajectories ≤ length starts →
  (∀ k sourcelinks sParameters fitted tip,
     trajectories !! k = Some sourcelinks →
     starts !! (iTraj + k) = Some sParameters →
     FW.fit X (FW.world X e) sourcelinks sParameters
       (FW.withReferenceSurface X fitOpts (FW.startSurface X sParameters))
       = FW.success (fitted, tip) →
     coveredTrack X fitted tip) →
  ∃ s' e', FW.accumulateTracks X starts fitOpts idxed alignMask iTraj trajectories s e
           = FW.Returns s' e'.
Proof.
  intros idxed Hnodup. revert iTraj s e.
  induction trajectories as [|sourcelinks rest IH]; intros iTraj s e Hdims Hlen Hcovered;
    cbn [FW.accumulateTracks].
  - eexists _, _. reflexivity.
  - simpl in Hlen.
    destruct (lookup_lt_is_Some_2 starts iTraj ltac:(lia)) as [sParameters Hstart].
    destruct (accumulateTrack_returns starts fitOpts detElements alignMask iTraj
                sourcelinks sParameters s e Hnodup Hdims Hstart) as (s1 & e1 & Hacc).
    { intros fitted tip Hfit.
      apply (Hcovered 0 sourcelinks sParameters fitted tip eq_refl);
        [rewrite Nat.add_0_r; exact Hstart|exact Hfit]. }
    fold idxed in Hacc. erewrite bind_returns by exact Hacc.
    pose proof (accumulateTrack_frame X _ _ _ _ _ _ _ _ _ _ Hacc) as [Hworld _].
    pose proof (accumulateTrack_dims X _ _ _ _ _ _ _ _ _ _ Hacc) as Hdims1.
    apply IH.
    + rewrite Hdims1. exact Hdims.
    + lia.
    + intros k sl sp fitted tip Hk Hsp Hfit. rewrite Hworld in Hfit.
      apply (Hcovered (S k) sl sp fitted tip Hk); [|exact Hfit].
      rewrite <- Hsp. f_equal. lia.
Qed.

(** X24.  [updateAlignmentParameters] returns, and every block and segment
    it reads or writes lies inside its matrix or vector, when the elements
    to align have pairwise distinct surfaces, there are start parameters
    for every trajectory, and the global covariance of every track whose
    fit succeeds holds the blocks of the track's measurement states. *)
Theorem update_returns_for_covered_tracks
    (trajectories : list (FW.SourceLinks X)) (starts : list (FW.StartParameters X))
    (fitOpts : FW.FitOptions X) (detElements : list Element)
    (updater : FW.AlignedTransformUpdater X) (alignResult : FW.AlignmentResult X)
    (alignMask : AlignmentMask) e :
  NoDup (FW.surfaceOf X <$> detElements) →
  length trajectories ≤ length starts →
  (∀ iTraj sourcelinks sParameters fitted tip,
     trajectories !! iTraj = Some sourcelinks →
     starts !! iTraj = Some sParameters →
     FW.fit X (FW.world X e) sourcelinks sParameters
       (FW.withReferenceSurface X fitOpts (FW.startSurface X sParameters))
       = FW.success (fitted, tip) →
     coveredTrack X fitted tip) →
  (∃ s e1, FW.sumOverTracks X trajectories starts fitOpts detElements alignMask e
           = FW.Returns s e1) ∧
  ∃ status res e',
    FW.updateAlignmentParameters X trajectories starts fitOpts detElements updater
      alignResult alignMask e = FW.Returns (status, res) e'.
Proof.
  intros Hnodup Hlen Hcovered.
  destruct (accumulateTracks_returns starts fitOpts detElements alignMask trajectories 0
              (FW.sums0 (size (FW.idxedAlignSurfacesOf X detElements)
                         * eAlignmentParametersSize)) e Hnodup eq_refl
              ltac:(simpl; lia) Hcovered) as (s & e1 & Hsum).
  split; [exists s, e1; exact Hsum|].
  destruct (update_returns X trajectories starts fitOpts detElements updater alignResult
              alignMask e s e1 Hsum Hnodup) as (status & e' & Hrun).
  eexists status, _, e'. exact Hrun.
Qed.

(** The loop over the indexed surfaces cannot return when an entry has its
    six parameters outside the delta and the updater accepts every
    request. *)
Lemma updateTransforms_outside (detElements : list Element)
    (updater : FW.AlignedTransformUpdater X) (delta : Vector F)
    (entries : list (Surface * nat)) e :
  (∀ element t w, (updater element t w).1 = true) →
  Exists (λ entry, vsize delta < 6 * entry.2 + 6) entries →
  FW.updateTransforms X detElements updater delta entries e = FW.Abnormal.
Proof.
  intros Haccept. revert e.
  induction entries as [|[surface index] rest IH]; intros e Hout.
  - inversion Hout.
  - destruct (FW.newTransform X (FW.world X e) delta surface index) as [t|] eqn:Ht.
    + destruct (detElements !! index) as [element|] eqn:Hel.
      * rewrite (updateTransforms_cons X _ _ _ _ _ _ _ _ _ Ht Hel). cbv zeta.
        rewrite Haccept.
        apply newTransform_inv in Ht as [Hin _].
        apply Exists_cons in Hout as [Hhere|Hrest]; [simpl in Hhere; lia|].
        apply IH, Hrest.
      * cbn [FW.updateTransforms].
        unfold mbind, FW.M_bind, FW.readWorld, FW.liftOption.
        rewrite Ht, Hel. reflexivity.
    + cbn [FW.updateTransforms].
      unfold mbind, FW.M_bind, FW.readWorld, FW.liftOption.
      rewrite Ht. reflexivity.
Qed.

(** X25.  When a surface of the elements to align has a slot that is not
    below the number of indexed surfaces (a surface listed twice before
    it took no slot of its own), the six parameters of that slot lie
    outside the solved delta: with an updater that accepts every request,
    [updateAlignmentParameters] reads outside the delta and has no
    result. *)
Theorem slot_outside_delta_has_no_result
    (trajectories : list (FW.SourceLinks X)) (starts : list (FW.StartParameters X))
    (fitOpts : FW.FitOptions X) (detElements : list Element)
    (updater : FW.AlignedTransformUpdater X) (alignResult : FW.AlignmentResult X)
    (alignMask : AlignmentMask) e s e1 (surface : Surface) (index : nat) :
  FW.sumOverTracks X trajectories starts fitOpts detElements alignMask e
    = FW.Returns s e1 →
  (∀ element t w, (updater element t w).1 = true) →
  FW.idxedAlignSurfacesOf X detElements !! surface = Some index →
  size (FW.idxedAlignSurfacesOf X detElements) ≤ index →
  FW.updateAlignmentParameters X trajectories starts fitOpts detElements updater
    alignResult alignMask e = FW.Abnormal.
Proof.
  intros Hsum Haccept Hslot Hlarge.
  rewrite (update_after_sums X _ _ _ _ updater alignResult _ _ _ _ Hsum). cbv zeta.
  rewrite updateTransforms_outside; [reflexivity|exact Haccept|].
  apply Exists_exists. exists (surface, index). split.
  - apply traverse_lookup, Hslot.
  - rewrite (delta_size X _ _ _ _ _ _ _ _ _ _ _ Hsum). simpl.
    unfold eAlignmentParametersSize. lia.
Qed.

End Returning.

(** One track through the one aligned element of the telescope. *)
Lemma update_returns_for_covered_tracks_witness :
  ∃ status res e',
    FW.updateAlignmentParameters (F:=float) Telescope.telescope [Telescope.oneHit]
      [tt] tt [0] Telescope.acceptAll (FW.newAlignmentResult Telescope.telescope)
      FW.allFree Telescope.env0 = FW.Returns (status, res) e'.
Proof.
  apply (update_returns_for_covered_tracks (F:=float) Telescope.telescope
           [Telescope.oneHit] [tt] tt [0] Telescope.acceptAll
           (FW.newAlignmentResult Telescope.telescope) FW.allFree Telescope.env0).
  - apply NoDup_singleton.
  - simpl. lia.
  - intros [|iTraj] sourcelinks sParameters fitted tip Htraj _ Hfit;
      [|discriminate Htraj].
    injection Htraj as <-. injection Hfit as <- <-.
    intros index ts Hin.
    apply list_elem_of_In in Hin. destruct Hin as [Heq|[]].
    injection Heq as <- _. exists 0.
    split; [reflexivity|]. split; vm_compute; lia.
Defined.

(** The elements 0, 0 and 2 of the telescope: the surface of the third
    element has slot 2 of 2, outside a delta of twelve parameters. *)
Lemma slot_outside_delta_has_no_result_witness :
  FW.updateAlignmentParameters (F:=float) Telescope.telescope [] [] tt [0; 0; 2]
    Telescope.acceptAll (FW.newAlignmentResult Telescope.telescope)
    FW.allFree Telescope.env0 = FW.Abnormal.
Proof.
  apply (slot_outside_delta_has_no_result (F:=float) Telescope.telescope [] [] tt
           [0; 0; 2] Telescope.acceptAll (FW.newAlignmentResult Telescope.telescope)
           FW.allFree Telescope.env0 _ _ 2 2 eq_refl).
  - reflexivity.
  - vm_compute. reflexivity.
  - vm_compute. lia.
Defined.

(* ================================================================== *)
(** * Skipped tracks, and what the loop over the tracks writes *)
(* ================================================================== *)

Section Skipping.
Context {F : Type} `{Scalar F} (X : FW.Externals F).

Implicit Types (e : FW.Env X) (s : FW.Sums F) (idxed : gmap Surface nat).

(** X11.  A track whose fit fails: [evaluateTrackAlignmentState] logs a
    warning and returns the error of the fitter; the loop over the tracks
    logs the failed evaluation and goes on with the next track, with the
    sums as they were. *)
Theorem failed_fit_is_skipped
    (starts : list (FW.StartParameters X)) (fitOpts : FW.FitOptions X) idxed
    (alignMask : AlignmentMask) (iTraj : nat) (sourcelinks : FW.SourceLinks X)
    (rest : list (FW.SourceLinks X)) (sParameters : FW.StartParameters X)
    (err : FW.Error) s e :
  starts !! iTraj = Some sParameters →
  FW.fit X (FW.world X e) sourcelinks sParameters
    (FW.withReferenceSurface X fitOpts (FW.startSurface X sParameters))
    = FW.failure err →
  FW.evaluateTrackAlignmentState X sourcelinks sParameters
    (FW.withReferenceSurface X fitOpts (FW.startSurface X sParameters))
    idxed alignMask e
    = FW.Returns (FW.failure err) (withLog e [FW.WarnFitFailure]) ∧
  FW.accumulateTrack X starts fitOpts idxed alignMask iTraj sourcelinks s e
    = FW.Returns s (withLog e [FW.WarnFitFailure; FW.WarnEvaluationFailed iTraj]) ∧
  FW.accumulateTracks X starts fitOpts idxed alignMask iTraj (sourcelinks :: rest) s e
    = FW.accumulateTracks X starts fitOpts idxed alignMask (S iTraj) rest s
        (withLog e [FW.WarnFitFailure; FW.WarnEvaluationFailed iTraj]).
Proof.
  intros Hstart Hfit.
  assert (Hev : FW.evaluateTrackAlignmentState X sourcelinks sParameters
                  (FW.withReferenceSurface X fitOpts (FW.startSurface X sParameters))
                  idxed alignMask e
                = FW.Returns (FW.failure err) (withLog e [FW.WarnFitFailure])).
  { unfold FW.evaluateTrackAlignmentState, mbind, FW.M_bind, FW.readWorld.
    rewrite Hfit. reflexivity. }
  assert (Hacc : FW.accumulateTrack X starts fitOpts idxed alignMask iTraj
                   sourcelinks s e
                 = FW.Returns s (withLog e [FW.WarnFitFailure;
                                            FW.WarnEvaluationFailed iTraj])).
  { unfold FW.accumulateTrack. rewrite Hstart.
    unfold FW.liftOption. unfold mbind at 1, FW.M_bind at 1. simpl.
    erewrite bind_returns by exact Hev. cbv iota.
    erewrite bind_returns by apply logMsg_returns.
    rewrite withLog_app. reflexivity. }
  split; [exact Hev|]. split; [exact Hacc|].
  simpl. erewrite bind_returns by exact Hacc. reflexivity.
Qed.

(** The loop over the tracks reads the start parameters of every track. *)
Lemma accumulateTracks_needs_start (starts : list (FW.StartParameters X))
    (fitOpts : FW.FitOptions X) idxed (alignMask : AlignmentMask)
    (trajectories : list (FW.SourceLinks X)) (iTraj : nat) s e :
  iTraj ≤ length starts →
  length starts < iTraj + length trajectories →
  FW.accumulateTracks X starts fitOpts idxed alignMask iTraj trajectories s e
    = FW.Abnormal.
Proof.
  revert iTraj s e. induction trajectories as [|sourcelinks rest IH];
    intros iTraj s e Hle Hshort; [simpl in Hshort; lia|].
  cbn [FW.accumulateTracks].
  destruct (FW.accumulateTrack X starts fitOpts idxed alignMask iTraj sourcelinks s e)
    as [s1 e1|] eqn:H1.
  - erewrite bind_returns by exact H1.
    simpl in Hshort.
    unfold FW.accumulateTrack in H1. apply bind_inv in H1 as (sp & e2 & Hsp & _).
    destruct (starts !! iTraj) eqn:Hlook; [|discriminate].
    apply lookup_lt_Some in Hlook. apply IH; lia.
  - unfold mbind, FW.M_bind. rewrite H1. reflexivity.
Qed.

(** X12.  With fewer start parameters than trajectories,
    [startParametersCollection.at(iTraj)] throws before the sums are
    complete: [updateAlignmentParameters] does not return, and neither
    does [align] when it is allowed at least one iteration. *)
Theorem missing_start_parameters_throw
    (trajectories : list (FW.SourceLinks X))
    (starts : list (FW.StartParameters X)) (opts : FW.AlignmentOptions X)
    (fitOpts : FW.FitOptions X) (detElements : list Element)
    (updater : FW.AlignedTransformUpdater X) (alignResult : FW.AlignmentResult X)
    (alignMask : AlignmentMask) e :
  length starts < length trajectories →
  FW.updateAlignmentParameters X trajectories starts fitOpts detElements updater
    alignResult alignMask e = FW.Abnormal ∧
  (FW.maxIterations X opts ≠ 0 →
   FW.align X trajectories starts opts e = FW.Abnormal).
Proof.
  intros Hshort.
  assert (Hup : ∀ fitOpts detElements updater alignResult alignMask e,
            FW.updateAlignmentParameters X trajectories starts fitOpts detElements
              updater alignResult alignMask e = FW.Abnormal).
  { intros. unfold FW.updateAlignmentParameters, FW.sumOverTracks.
    unfold mbind at 1, FW.M_bind at 1.
    rewrite accumulateTracks_needs_start by (simpl; lia). reflexivity. }
  split; [apply Hup|].
  intros Hiter. unfold FW.align.
  destruct (FW.maxIterations X opts) as [|n]; [congruence|].
  cbn [FW.iterations]. unfold mbind, FW.M_bind. rewrite Hup. reflexivity.
Qed.

(** ** What the loop over the tracks writes *)

Lemma evaluate_log sourcelinks sParameters fitOpts idxed alignMask e r e' :
  FW.evaluateTrackAlignmentState X sourcelinks sParameters fitOpts idxed alignMask e
    = FW.Returns r e' →
  e' = e ∨ e' = withLog e [FW.WarnFitFailure] ∨ e' = withLog e [FW.VerboseNoAlignmentDof].
Proof.
  unfold FW.evaluateTrackAlignmentState. intros Hev.
  apply bind_inv in Hev as (w & e1 & Hw & Hev).
  injection Hw as _ <-.
  destruct (FW.fit X w sourcelinks sParameters fitOpts) as [[fitted tip]|err].
  - apply bind_inv in Hev as (st & e2 & Hst & Hev).
    destruct (detail.trackAlignmentState _ _ _ _ _); [|discriminate].
    injection Hst as _ <-.
    destruct (detail.alignmentDof st =? 0).
    + apply bind_inv in Hev as ([] & e3 & Hlog & Hev).
      injection Hlog as <-. injection Hev as _ <-. right. right. reflexivity.
    + injection Hev as _ <-. left. reflexivity.
  - apply bind_inv in Hev as ([] & e3 & Hlog & Hev).
    injection Hlog as <-. injection Hev as _ <-. right. left. reflexivity.
Qed.

Lemma accumulateTracks_log starts fitOpts idxed alignMask trajectories iTraj s e s' e' :
  FW.accumulateTracks X starts fitOpts idxed alignMask iTraj trajectories s e
    = FW.Returns s' e' →
  ∃ msgs, e' = withLog e msgs ∧
          Forall (skipNotice (iTraj + length trajectories)) msgs.
Proof.
  revert iTraj s e. induction trajectories as [|sourcelinks rest IH];
    intros iTraj s e; simpl.
  - intros [= _ <-]. exists []. split; [|constructor].
    unfold withLog. rewrite app_nil_r. destruct e; reflexivity.
  - intros Hacc. apply bind_inv in Hacc as (s1 & e1 & H1 & Hrest).
    apply IH in Hrest as (msgs & -> & Hmsgs).
    assert (Hone : ∃ msgs1, e1 = withLog e msgs1 ∧
                     Forall (skipNotice (iTraj + S (length rest))) msgs1).
    { unfold FW.accumulateTrack in H1.
      apply bind_inv in H1 as (sp & e2 & Hsp & H1).
      destruct (starts !! iTraj); [|discriminate]. injection Hsp as _ <-.
      apply bind_inv in H1 as (r & e3 & Hev & H1).
      apply evaluate_log in Hev.
      destruct r as [st|err].
      - unfold FW.liftOption in H1.
        destruct (FW.addTrack X st s); [|discriminate].
        injection H1 as _ <-.
        destruct Hev as [->|[->| ->]].
        + exists []. split; [|constructor].
          unfold withLog. rewrite app_nil_r. destruct e; reflexivity.
        + eexists. split; [reflexivity|]. constructor; [left; reflexivity|constructor].
        + eexists. split; [reflexivity|].
          constructor; [right; left; reflexivity|constructor].
      - apply bind_inv in H1 as ([] & e4 & Hlog & H1).
        rewrite logMsg_returns in Hlog.
        injection Hlog as <-. injection H1 as _ <-.
        assert (Hskip : skipNotice (iTraj + S (length rest)) (FW.WarnEvaluationFailed iTraj)).
        { right. right. exists iTraj. split; [reflexivity|lia]. }
        destruct Hev as [->|[->| ->]].
        + eexists. split; [reflexivity|]. constructor; [exact Hskip|constructor].
        + rewrite withLog_app. eexists. split; [reflexivity|].
          constructor; [left; reflexivity|]. constructor; [exact Hskip|constructor].
        + rewrite withLog_app. eexists. split; [reflexivity|].
          constructor; [right; left; reflexivity|].
          constructor; [exact Hskip|constructor]. }
    destruct Hone as (msgs1 & -> & Hmsgs1).
    exists (msgs1 ++ msgs). split; [apply withLog_app|].
    apply Forall_app. split; [exact Hmsgs1|].
    replace (iTraj + S (length rest)) with (S iTraj + length rest) by lia.
    exact Hmsgs.
Qed.

(** X13.  When the loop over the tracks returns, it has left the
    geometry and the updater alone: the environment differs from the one
    it started in only by log records, each of them the notice of a failed
    fit, of a track without degrees of freedom, or of a failed evaluation
    of one of the tracks of the collection. *)
Theorem summing_tracks_only_logs (trajectories : list (FW.SourceLinks X))
    (starts : list (FW.StartParameters X)) (fitOpts : FW.FitOptions X)
    (detElements : list Element) (alignMask : AlignmentMask) e s e' :
  FW.sumOverTracks X trajectories starts fitOpts detElements alignMask e
    = FW.Returns s e' →
  ∃ msgs, e' = withLog e msgs ∧ Forall (skipNotice (length trajectories)) msgs.
Proof.
  unfold FW.sumOverTracks. intros Hsum.
  apply accumulateTracks_log in Hsum. exact Hsum.
Qed.

End Skipping.

(** A track without source links: the stand-in fitter fails on it. *)
Lemma failed_fit_is_skipped_witness :
  FW.accumulateTrack (F:=float) Telescope.telescope [tt] tt
    (FW.idxedAlignSurfacesOf Telescope.telescope [0]) FW.allFree 0
    [] (FW.sums0 6) Telescope.env0
  = FW.Returns (FW.sums0 6)
      (withLog Telescope.env0 [FW.WarnFitFailure; FW.WarnEvaluationFailed 0]).
Proof.
  refine (proj1 (proj2 (failed_fit_is_skipped Telescope.telescope [tt] tt
            (FW.idxedAlignSurfacesOf Telescope.telescope [0]) FW.allFree 0
            [] [] tt (FW.FitterError 1) (FW.sums0 6) Telescope.env0 _ _)));
    reflexivity.
Defined.

(** One track and no start parameters. *)
Lemma missing_start_parameters_throw_witness :
  FW.updateAlignmentParameters (F:=float) Telescope.telescope [Telescope.oneHit] []
    tt [0] Telescope.acceptAll (FW.newAlignmentResult Telescope.telescope)
    FW.allFree Telescope.env0 = FW.Abnormal.
Proof.
  exact (proj1 (missing_start_parameters_throw (F:=float) Telescope.telescope
                  [Telescope.oneHit] []
                  (Telescope.options Telescope.acceptAll [0] 0.5%float (3, 0.25%float) 5)
                  tt [0] Telescope.acceptAll
                  (FW.newAlignmentResult Telescope.telescope) FW.allFree
                  Telescope.env0 ltac:(simpl; lia))).
Defined.

(** Two tracks, the first without source links. *)
Lemma summing_tracks_only_logs_witness :
  ∃ s e' msgs,
    FW.sumOverTracks (F:=float) Telescope.telescope [[]; Telescope.oneHit] [tt; tt]
      tt [0] FW.allFree Telescope.env0 = FW.Returns s e' ∧
    e' = withLog Telescope.env0 msgs ∧ Forall (skipNotice 2) msgs.
Proof.
  assert (Hsums : match FW.sumOverTracks (F:=float) Telescope.telescope
                          [[]; Telescope.oneHit] [tt; tt] tt [0] FW.allFree
                          Telescope.env0 with
                  | FW.Returns _ _ => true
                  | FW.Abnormal => false
                  end = true) by (vm_compute; reflexivity).
  destruct (FW.sumOverTracks _ _ _ _ _ _ _) as [s e'|] eqn:Hsum; [|discriminate Hsums].
  destruct (summing_tracks_only_logs _ _ _ _ _ _ _ _ _ Hsum) as (msgs & He & Hmsgs).
  exists s, e', msgs. split; [reflexivity|]. split; [exact He|exact Hmsgs].
Defined.


(* ================================================================== *)
(** * The sums over the contributing tracks *)
(* ================================================================== *)

Section Sums.
Context {F : Type} `{Scalar F} (X : FW.Externals F).

Implicit Types (e : FW.Env X) (s : FW.Sums F) (idxed : gmap Surface nat).

(** One turn of the loop over the tracks adds the contribution of its
    track, and leaves the geometry alone. *)
Lemma accumulateTrack_contribution starts fitOpts idxed alignMask iTraj sourcelinks
    s e s' e' :
  FW.accumulateTrack X starts fitOpts idxed alignMask iTraj sourcelinks s e
    = FW.Returns s' e' →
  ∃ contribution,
    contributionOf X (FW.world X e) starts fitOpts idxed iTraj sourcelinks
      = Some contribution ∧
    FW.world X e' = FW.world X e ∧
    match contribution with
    | Some alignState => FW.addTrack X alignState s = Some s'
    | None => s' = s
    end.
Proof.
  intros Hacc.
  pose proof (accumulateTrack_frame X _ _ _ _ _ _ _ _ _ _ Hacc) as [Hworld _].
  revert Hacc.
  unfold contributionOf, FW.accumulateTrack, FW.evaluateTrackAlignmentState,
    FW.liftOption, FW.readWorld, FW.logMsg, FW.abnormal.
  destruct (starts !! iTraj) as [sp|]; [|discriminate].
  unfold mbind, FW.M_bind, mret, FW.M_ret, option_bind.
  destruct (FW.fit X (FW.world X e) sourcelinks sp _) as [[fitted tip]|err].
  - destruct (detail.trackAlignmentState _ _ _ _ _) as [st|]; [|discriminate].
    destruct (detail.alignmentDof st =? 0).
    + intros [= <- _]. exists None. repeat split; assumption.
    + destruct (FW.addTrack X st s) as [s1|] eqn:Hadd; [|discriminate].
      intros [= <- _]. exists (Some st). repeat split; assumption.
  - intros [= <- _]. exists None. repeat split; assumption.
Qed.

(** The loop over the tracks sums the contributing tracks. *)
Lemma accumulateTracks_contributions starts fitOpts idxed alignMask trajectories
    iTraj s e s' e' :
  FW.accumulateTracks X starts fitOpts idxed alignMask iTraj trajectories s e
    = FW.Returns s' e' →
  ∃ contributions,
    contributionsFrom X (FW.world X e) starts fitOpts idxed iTraj trajectories
      = Some contributions ∧
    FW.sumMeasurementDim s' =
      foldl (λ n alignState, n + detail.measurementDim alignState)
            (FW.sumMeasurementDim s) contributions ∧
    FW.sumChi2 s' =
      foldl (λ a alignState, sadd a (detail.chi2 alignState)) (FW.sumChi2 s)
            contributions ∧
    FW.sumChi2ONdf s' =
      foldl (λ a alignState,
               sadd a (sdiv (detail.chi2 alignState)
                            (of_size (detail.measurementDim alignState))))
            (FW.sumChi2ONdf s) contributions.
Proof.
  revert iTraj s e. induction trajectories as [|sourcelinks rest IH]; intros iTraj s e.
  - simpl. intros [= <- _]. exists []. repeat split; reflexivity.
  - cbn [contributionsFrom FW.accumulateTracks]. intros Hacc.
    apply bind_inv in Hacc as (s1 & e1 & H1 & Hrest).
    apply accumulateTrack_contribution in H1 as (contribution & Hone & Hworld & Hs1).
    apply IH in Hrest as (others & Hothers & Hm & Hc & Hn).
    rewrite Hworld in Hothers. rewrite Hone, Hothers. simpl.
    destruct contribution as [st|].
    + apply addTrack_inv in Hs1 as (_ & Hm1 & Hc1 & Hn1).
      exists (st :: others). split; [reflexivity|]. cbn [foldl].
      rewrite Hm, Hc, Hn, Hm1, Hc1, Hn1. repeat split; reflexivity.
    + subst s1. exists others. split; [reflexivity|]. repeat split; assumption.
Qed.

Lemma contributionsFrom_length (w : FW.World X) starts fitOpts idxed iTraj
    trajectories contributions :
  contributionsFrom X w starts fitOpts idxed iTraj trajectories = Some contributions →
  length contributions ≤ length trajectories.
Proof.
  revert iTraj contributions.
  induction trajectories as [|sourcelinks rest IH]; intros iTraj contributions; simpl.
  - intros [= <-]. reflexivity.
  - destruct (contributionOf X w starts fitOpts idxed iTraj sourcelinks)
      as [contribution|]; simpl; [|discriminate].
    destruct (contributionsFrom X w starts fitOpts idxed (S iTraj) rest)
      as [others|] eqn:Hothers; simpl; [|discriminate].
    intros [= <-]. specialize (IH _ _ Hothers).
    destruct contribution; simpl; lia.
Qed.

(** X14.  Whenever [updateAlignmentParameters] returns, the chi2, the
    measurement dimension and the average chi2/ndf of its result are sums
    over the contributing tracks, in the order of the collection: the
    tracks whose fit succeeded and whose state has a degree of freedom.
    The sum of chi2/ndf is divided by the size of the whole collection. *)
Theorem update_sums_the_contributions (trajectories : list (FW.SourceLinks X))
    (starts : list (FW.StartParameters X)) (fitOpts : FW.FitOptions X)
    (detElements : list Element) (updater : FW.AlignedTransformUpdater X)
    (alignResult : FW.AlignmentResult X) (alignMask : AlignmentMask)
    e (status : FW.Result unit) (res : FW.AlignmentResult X) e' :
  FW.updateAlignmentParameters X trajectories starts fitOpts detElements updater
    alignResult alignMask e = FW.Returns (status, res) e' →
  ∃ contributions,
    contributionsFrom X (FW.world X e) starts fitOpts
      (FW.idxedAlignSurfacesOf X detElements) 0 trajectories = Some contributions ∧
    length contributions ≤ length trajectories ∧
    FW.measurementDim X res =
      foldl (λ n alignState, n + detail.measurementDim alignState) 0 contributions ∧
    FW.chi2 X res =
      foldl (λ a alignState, sadd a (detail.chi2 alignState)) szero contributions ∧
    FW.averageChi2ONdf X res =
      sdiv (foldl (λ a alignState,
                     sadd a (sdiv (detail.chi2 alignState)
                                  (of_size (detail.measurementDim alignState))))
                  szero contributions)
           (of_size (length trajectories)).
Proof.
  intros Hup. apply update_inv in Hup as (s & e1 & Hsum & ->).
  unfold FW.sumOverTracks in Hsum.
  apply accumulateTracks_contributions in Hsum
    as (contributions & Hcontrib & Hm & Hc & Hn).
  exists contributions. split; [exact Hcontrib|].
  split; [exact (contributionsFrom_length _ _ _ _ _ _ _ Hcontrib)|].
  unfold FW.solvedResult. simpl. rewrite Hm, Hc, Hn. repeat split; reflexivity.
Qed.

(** X15.  Whenever [updateAlignmentParameters] returns, the
    [alignmentDof] of its result is six times the number of distinct
    surfaces of the elements to align, at most six times the number of
    elements, and the summed gradient and second-derivative matrix have
    that dimension, whatever the tracks. *)
Theorem summed_system_dimensions (trajectories : list (FW.SourceLinks X))
    (starts : list (FW.StartParameters X)) (fitOpts : FW.FitOptions X)
    (detElements : list Element) (updater : FW.AlignedTransformUpdater X)
    (alignResult : FW.AlignmentResult X) (alignMask : AlignmentMask)
    e (status : FW.Result unit) (res : FW.AlignmentResult X) e' :
  FW.updateAlignmentParameters X trajectories starts fitOpts detElements updater
    alignResult alignMask e = FW.Returns (status, res) e' →
  let alignDof := eAlignmentParametersSize * size (FW.idxedAlignSurfacesOf X detElements) in
  FW.alignmentDof X res = alignDof ∧
  alignDof ≤ eAlignmentParametersSize * length detElements ∧
  ∃ s e1,
    FW.sumOverTracks X trajectories starts fitOpts detElements alignMask e
      = FW.Returns s e1 ∧
    sumsDims s = [alignDof; alignDof; alignDof].
Proof.
  intros Hup alignDof. apply update_inv in Hup as (s & e1 & Hsum & ->).
  split; [unfold alignDof, FW.solvedResult; cbn [FW.alignmentDof]; lia|].
  split.
  { unfold alignDof. apply Nat.mul_le_mono_l.
    rewrite <- size_dom, slots_dom.
    etransitivity; [apply size_list_to_set_bound|]. rewrite length_fmap. reflexivity. }
  exists s, e1. split; [exact Hsum|].
  pose proof (sumOverTracks_dims X _ _ _ _ _ _ _ _ Hsum) as Hd.
  cbv zeta in Hd. rewrite Hd. unfold alignDof.
  rewrite (Nat.mul_comm (size _) eAlignmentParametersSize). reflexivity.
Qed.

End Sums.

Lemma update_sums_the_contributions_witness :
  ∃ status res e' contributions,
    FW.updateAlignmentParameters (F:=float) Telescope.telescope
      [[]; Telescope.oneHit] [tt; tt] tt [0] Telescope.acceptAll
      (FW.newAlignmentResult Telescope.telescope) FW.allFree Telescope.env0
      = FW.Returns (status, res) e' ∧
    contributionsFrom (F:=float) Telescope.telescope (FW.world _ Telescope.env0) [tt; tt] tt
      (FW.idxedAlignSurfacesOf Telescope.telescope [0]) 0 [[]; Telescope.oneHit]
      = Some contributions ∧
    FW.measurementDim _ res =
      foldl (λ n alignState, n + detail.measurementDim alignState) 0 contributions.
Proof.
  assert (Hrun : match FW.updateAlignmentParameters (F:=float) Telescope.telescope
                         [[]; Telescope.oneHit] [tt; tt] tt [0] Telescope.acceptAll
                         (FW.newAlignmentResult Telescope.telescope) FW.allFree
                         Telescope.env0 with
                 | FW.Returns _ _ => true
                 | FW.Abnormal => false
                 end = true) by (vm_compute; reflexivity).
  destruct (FW.updateAlignmentParameters _ _ _ _ _ _ _ _ _)
    as [[status res] e'|] eqn:Hup; [|discriminate Hrun].
  destruct (update_sums_the_contributions _ _ _ _ _ _ _ _ _ _ _ _ Hup)
    as (contributions & Hcontrib & _ & Hdim & _).
  exists status, res, e', contributions.
  split; [reflexivity|]. split; [exact Hcontrib|exact Hdim].
Defined.

(** Two elements to align. *)
Lemma summed_system_dimensions_witness :
  ∃ status res e',
    FW.updateAlignmentParameters (F:=float) Telescope.telescope
      [Telescope.oneHit] [tt] tt [0; 1] Telescope.acceptAll
      (FW.newAlignmentResult Telescope.telescope) FW.allFree Telescope.env0
      = FW.Returns (status, res) e' ∧
    FW.alignmentDof _ res = 12.
Proof.
  assert (Hrun : match FW.updateAlignmentParameters (F:=float) Telescope.telescope
                         [Telescope.oneHit] [tt] tt [0; 1] Telescope.acceptAll
                         (FW.newAlignmentResult Telescope.telescope) FW.allFree
                         Telescope.env0 with
                 | FW.Returns _ _ => true
                 | FW.Abnormal => false
                 end = true) by (vm_compute; reflexivity).
  destruct (FW.updateAlignmentParameters _ _ _ _ _ _ _ _ _)
    as [[status res] e'|] eqn:Hup; [|discriminate Hrun].
  destruct (summed_system_dimensions _ _ _ _ _ _ _ _ _ _ _ _ Hup) as (Hdof & _).
  exists status, res, e'. split; [reflexivity|].
  etransitivity; [exact Hdof|]. vm_compute. reflexivity.
Defined.


(* ================================================================== *)
(** * Whole runs *)
(* ================================================================== *)

Section Runs.
Context {F : Type} `{Scalar F} (X : FW.Externals F).

Implicit Types (e : FW.Env X) (s : FW.Sums F) (idxed : gmap Surface nat).
Implicit Types (opts : FW.AlignmentOptions X) (alignRes : FW.AlignmentResult X).



(** The loop passes the status and the aligned parameters of the result
    through unchanged. *)
Lemma iterations_keeps_fields opts trajectories starts n iIter alignRes recent e
    converged final e' :
  FW.iterations X trajectories starts opts n iIter alignRes recent e
    = FW.Returns (FW.Exited X converged final) e' →
  FW.result X final = FW.result X alignRes ∧
  FW.alignedParameters X final = FW.alignedParameters X alignRes.
Proof.
  revert iIter alignRes recent e.
  induction n as [|n IH]; intros iIter alignRes recent e Hloop.
  - injection Hloop as _ <- _. split; reflexivity.
  - cbn [FW.iterations] in Hloop.
    apply bind_inv in Hloop as ([status res] & e1 & Hup & Hloop).
    apply update_inv in Hup as (s & e0 & _ & ->).
    destruct status as [u|err].
    + apply bind_inv in Hloop as (verdict & e2 & _ & Hloop).
      destruct verdict as [|recent'].
      * injection Hloop as _ <- _. split; reflexivity.
      * apply IH in Hloop as [-> ->]. split; reflexivity.
    + apply bind_inv in Hloop as ([] & e2 & _ & Hloop). discriminate.
Qed.


(** What [align] makes of the end of the loop. *)
Lemma align_end opts trajectories starts e r e' :
  FW.align X trajectories starts opts e = FW.Returns r e' →
  ∃ loopEnd e1,
    FW.iterations X trajectories starts opts (FW.maxIterations X opts) 0
      (FW.newAlignmentResult X) [] e = FW.Returns loopEnd e1 ∧
    match loopEnd with
    | FW.Returned _ err => r = FW.failure err ∧ e' = e1
    | FW.Exited _ converged final =>
        e' = (if converged then e1 else withLog e1 [FW.ErrorNotConverged]) ∧
        r = FW.success
              (FW.recordTransforms X (FW.world X e1) (FW.alignedDetElements X opts)
                 (if converged then final
                  else FW.withResult X final
                         (FW.failure (FW.AlignmentErr FW.ConvergeFailure))))
    end.
Proof.
  unfold FW.align. intros Hal.
  apply bind_inv in Hal as (loopEnd & e1 & Hloop & Hal).
  exists loopEnd, e1. split; [exact Hloop|].
  destruct loopEnd as [err|converged final].
  - injection Hal as <- <-. split; reflexivity.
  - apply bind_inv in Hal as (res' & e2 & Hres & Hal).
    apply bind_inv in Hal as (w & e3 & Hw & Hal).
    injection Hw as <- <-. injection Hal as <- <-.
    destruct converged; simpl in Hres.
    + injection Hres as <- <-. split; reflexivity.
    + apply bind_inv in Hres as ([] & e4 & Hlog & Hres).
      rewrite logMsg_returns in Hlog.
      injection Hlog as <-. injection Hres as <- <-. split; reflexivity.
Qed.


Lemma recorded_lookup (w : FW.World X) (detElements : list Element)
    (m : gmap Element (FW.Transform3D X)) (det : Element) :
  foldl (λ m det, match m !! det with
                  | Some _ => m
                  | None => <[det := FW.elementTransform X w det]> m
                  end) m detElements !! det =
  match m !! det with
  | Some t => Some t
  | None => if bool_decide (det ∈ detElements)
            then Some (FW.elementTransform X w det) else None
  end.
Proof.
  revert m. induction detElements as [|d rest IH]; intros m; cbn [foldl].
  - destruct (m !! det); reflexivity.
  - rewrite IH. destruct (decide (d = det)) as [->|Hne].
    + rewrite (bool_decide_eq_true_2 (det ∈ det :: rest)) by (apply elem_of_cons; left; reflexivity).
      destruct (m !! det) as [t|] eqn:Hm; [rewrite Hm; reflexivity|].
      rewrite lookup_insert_eq. reflexivity.
    + assert (Hsame : bool_decide (det ∈ d :: rest) = bool_decide (det ∈ rest)).
      { apply bool_decide_ext. rewrite elem_of_cons.
        split; [intros [Heq|Hin]; [congruence|exact Hin]|intros Hin; right; exact Hin]. }
      rewrite Hsame.
      destruct (m !! d); [reflexivity|].
      rewrite lookup_insert_ne by exact Hne. reflexivity.
Qed.

(** X17.  The aligned parameters of a result [align] returns hold
    exactly the elements to align, each with its transform in the
    geometry the run ends with. *)
Theorem align_records_final_transforms opts trajectories starts e res e' :
  FW.align X trajectories starts opts e = FW.Returns (FW.success res) e' →
  ∀ det, FW.alignedParameters X res !! det =
         if bool_decide (det ∈ FW.alignedDetElements X opts)
         then Some (FW.elementTransform X (FW.world X e') det) else None.
Proof.
  intros Hal det.
  apply align_end in Hal as (loopEnd & e1 & Hloop & Hend).
  destruct loopEnd as [err|converged final]; [destruct Hend; discriminate|].
  destruct Hend as [-> Hres]. injection Hres as ->.
  apply iterations_keeps_fields in Hloop as [_ Hpar].
  assert (Hworld : FW.world X (if converged then e1
                               else withLog e1 [FW.ErrorNotConverged]) = FW.world X e1)
    by (destruct converged; reflexivity).
  rewrite Hworld. unfold FW.recordTransforms. cbn [FW.alignedParameters].
  rewrite recorded_lookup.
  assert (Hempty : FW.alignedParameters X
                     (if converged then final
                      else FW.withResult X final
                             (FW.failure (FW.AlignmentErr FW.ConvergeFailure))) = ∅).
  { destruct converged; [exact Hpar|exact Hpar]. }
  rewrite Hempty, lookup_empty. reflexivity.
Qed.

(** X18.  An iteration whose average chi2/ndf is at most the cut-off ends
    the loop converged, whatever the queue holds and whatever the window
    size, zero included.  When it is the first iteration, [align] returns
    the result of that iteration with the status success. *)
Theorem average_below_cut_off_ends_loop opts trajectories starts (n iIter : nat)
    alignRes (recent : list F) e (u : unit) res e1 :
  updateOf opts trajectories starts iIter alignRes e
    = FW.Returns (FW.success u, res) e1 →
  sleb (FW.averageChi2ONdf X res) (FW.averageChi2ONdfCutOff X opts) = true →
  FW.iterations X trajectories starts opts (S n) iIter alignRes recent e
    = FW.Returns (FW.Exited X true res) (withLog e1 [FW.InfoConvergedChi2]) ∧
  (iIter = 0 → alignRes = FW.newAlignmentResult X →
   FW.maxIterations X opts = S n →
   FW.align X trajectories starts opts e
     = FW.Returns (FW.success (FW.recordTransforms X (FW.world X e1)
                                 (FW.alignedDetElements X opts) res))
                  (withLog e1 [FW.InfoConvergedChi2]) ∧
   FW.result X res = FW.success tt).
Proof.
  intros Hup Hcut.
  assert (Hcheck : ∀ queue,
            FW.checkConvergence X (FW.averageChi2ONdfCutOff X opts)
              (FW.deltaAverageChi2ONdfCutOff X opts)
              (FW.averageChi2ONdf X res) queue e1
            = FW.Returns FW.Converged (withLog e1 [FW.InfoConvergedChi2])).
  { intros queue. unfold FW.checkConvergence. rewrite Hcut. reflexivity. }
  split.
  - exact (iterations_converged X opts trajectories starts n iIter alignRes recent
             e u res e1 _ Hup (Hcheck recent)).
  - intros -> -> Hmax.
    pose proof (iterations_converged X opts trajectories starts n 0
                  (FW.newAlignmentResult X) [] e u res e1 _ Hup (Hcheck [])) as Hloop.
    split.
    + rewrite <- Hmax in Hloop. rewrite (align_converged X _ _ _ _ _ _ Hloop).
      reflexivity.
    + unfold updateOf in Hup. apply update_inv in Hup as (s & e0 & _ & ->).
      reflexivity.
Qed.

(** X19.  With a window of size zero, a first iteration whose average
    chi2/ndf is above the cut-off makes [align] read the front of the
    empty queue: the run has no defined result. *)
Theorem zero_window_reads_empty_queue opts trajectories starts n e (u : unit) res e1 :
  (FW.deltaAverageChi2ONdfCutOff X opts).1 = 0 →
  FW.maxIterations X opts = S n →
  updateOf opts trajectories starts 0 (FW.newAlignmentResult X) e
    = FW.Returns (FW.success u, res) e1 →
  sleb (FW.averageChi2ONdf X res) (FW.averageChi2ONdfCutOff X opts) = false →
  FW.align X trajectories starts opts e = FW.Abnormal.
Proof.
  intros Hwindow Hmax Hup Hcut. unfold FW.align. rewrite Hmax.
  cbn [FW.iterations]. unfold updateOf in Hup.
  unfold mbind at 1, FW.M_bind at 1.
  erewrite bind_returns by exact Hup. cbv beta iota.
  unfold FW.checkConvergence. rewrite Hcut, Hwindow. reflexivity.
Qed.

End Runs.


Lemma align_records_final_transforms_witness :
  ∃ res e',
    FW.align (F:=float) Telescope.telescope [Telescope.oneHit] [tt]
      (Telescope.options Telescope.acceptAll [0] 0.5%float (3, 0.25%float) 5)
      Telescope.env0 = FW.Returns (FW.success res) e' ∧
    FW.alignedParameters _ res !! 0
      = Some (FW.elementTransform Telescope.telescope (FW.world _ e') 0) ∧
    FW.alignedParameters _ res !! 1 = None.
Proof.
  set (opts := Telescope.options (F:=float) Telescope.acceptAll [0]
                 0.5%float (3, 0.25%float) 5).
  assert (Hrun : match FW.align (F:=float) Telescope.telescope [Telescope.oneHit] [tt]
                         opts Telescope.env0 with
                 | FW.Returns (FW.success _) _ => true
                 | _ => false
                 end = true) by (vm_compute; reflexivity).
  destruct (FW.align _ _ _ _ _) as [[res|err] e'|] eqn:Hal; try discriminate Hrun.
  pose proof (align_records_final_transforms _ _ _ _ _ _ _ Hal) as Hrec.
  exists res, e'. split; [reflexivity|].
  split; [exact (Hrec 0)|exact (Hrec 1)].
Defined.

(** The average of the first iteration, 2, is below a cut-off of 3. *)
(** The average of the first iteration, 2, is below a cut-off of 3. *)
Lemma average_below_cut_off_ends_loop_witness :
  ∃ res e',
    FW.align (F:=float) Telescope.telescope [Telescope.oneHit] [tt]
      (Telescope.options Telescope.acceptAll [0] 3%float (0, 0.25%float) 5)
      Telescope.env0 = FW.Returns (FW.success res) e' ∧
    FW.result _ res = FW.success tt ∧
    length (FW.updateCalls _ e') = 1.
Proof.
  set (opts := Telescope.options (F:=float) Telescope.acceptAll [0]
                 3%float (0, 0.25%float) 5).
  assert (Hrun : match updateOf opts [Telescope.oneHit] [tt] 0
                         (FW.newAlignmentResult Telescope.telescope)
                         Telescope.env0 with
                 | FW.Returns (status, res) e1 =>
                     Some (FW.ok status, FW.averageChi2ONdf _ res,
                           length (FW.updateCalls _ e1))
                 | FW.Abnormal => None
                 end = Some (true, 2%float, 1)) by (vm_compute; reflexivity).
  destruct (updateOf _ _ _ _ _ _) as [[[[]|err] res] e1|] eqn:Hup;
    try discriminate Hrun.
  injection Hrun as Haverage Hcalls.
  destruct (average_below_cut_off_ends_loop Telescope.telescope opts
              [Telescope.oneHit] [tt] 4 0
              (FW.newAlignmentResult Telescope.telescope) []
              Telescope.env0 tt res e1 Hup
              ltac:(rewrite Haverage; reflexivity)) as [_ Hrun].
  destruct (Hrun eq_refl eq_refl eq_refl) as [Halign Hresult].
  eexists _, _. split; [exact Halign|]. split; [exact Hresult|exact Hcalls].
Defined.

(** The same track with a cut-off of 0.5 and a window of size zero. *)
Lemma zero_window_reads_empty_queue_witness :
  FW.align (F:=float) Telescope.telescope [Telescope.oneHit] [tt]
    (Telescope.options Telescope.acceptAll [0] 0.5%float (0, 0.25%float) 5)
    Telescope.env0 = FW.Abnormal.
Proof.
  set (opts := Telescope.options (F:=float) Telescope.acceptAll [0]
                 0.5%float (0, 0.25%float) 5).
  assert (Hrun : match updateOf opts [Telescope.oneHit] [tt] 0
                         (FW.newAlignmentResult Telescope.telescope)
                         Telescope.env0 with
                 | FW.Returns (status, res) e1 =>
                     Some (FW.ok status, FW.averageChi2ONdf _ res)
                 | FW.Abnormal => None
                 end = Some (true, 2%float)) by (vm_compute; reflexivity).
  destruct (updateOf _ _ _ _ _ _) as [[[[]|err] res] e1|] eqn:Hup;
    try discriminate Hrun.
  injection Hrun as Haverage.
  exact (zero_window_reads_empty_queue Telescope.telescope opts
           [Telescope.oneHit] [tt] 4 Telescope.env0 tt res e1
           eq_refl eq_refl Hup ltac:(rewrite Haverage; reflexivity)).
Defined.


(* ================================================================== *)
(** * A NaN average never converges *)
(* ================================================================== *)

Section NaNAverage.
Context (X : FW.Externals float).

Implicit Types (e : FW.Env X) (opts : FW.AlignmentOptions X).







End NaNAverage.



(* ================================================================== *)
(** * The alignment algorithm *)
(* ================================================================== *)

Section AlgorithmFacts.
Context {F : Type} `{Scalar F} (X : FW.Externals F).
Context {SimSourceLink : Type} (trackInput : list SimSourceLink → FW.SourceLinks X).

Import AlignmentAlgorithm.

Lemma fillSourceLinks_spec (sourceLinks : list SimSourceLink) (protoTrack : list nat)
    (trackSourceLinks : list SimSourceLink) :
  match fillSourceLinks sourceLinks protoTrack trackSourceLinks with
  | inr filled => ∃ found, linksOf sourceLinks protoTrack found ∧
                           filled = trackSourceLinks ++ found
  | inl hitIndex => hitIndex ∈ protoTrack ∧ length sourceLinks ≤ hitIndex
  end.
Proof.
  revert trackSourceLinks.
  induction protoTrack as [|hitIndex rest IH]; intros trackSourceLinks; simpl.
  - exists []. split; [constructor|]. rewrite app_nil_r. reflexivity.
  - destruct (sourceLinks !! hitIndex) as [sourceLink|] eqn:Hhit.
    + specialize (IH (trackSourceLinks ++ [sourceLink])).
      destruct (fillSourceLinks sourceLinks rest (trackSourceLinks ++ [sourceLink]))
        as [bad|filled].
      * destruct IH as [Hin Hbad]. split; [right; exact Hin|exact Hbad].
      * destruct IH as (found & Hfound & ->). exists (sourceLink :: found).
        split; [constructor; assumption|]. rewrite <- app_assoc. reflexivity.
    + split; [left|apply lookup_ge_None; exact Hhit].
Qed.

Lemma prepareTracks_spec (sourceLinks : list SimSourceLink)
    (protoTracks : list (list nat)) (itrack : nat)
    (container : list (list SimSourceLink)) :
  match prepareTracks sourceLinks protoTracks itrack container with
  | inr prepared => ∃ found, Forall2 (linksOf sourceLinks) protoTracks found ∧
                             prepared = container ++ found
  | inl (bad, hitIndex) =>
      itrack ≤ bad ∧ invalidHit sourceLinks protoTracks (bad - itrack) hitIndex
  end.
Proof.
  revert itrack container.
  induction protoTracks as [|protoTrack rest IH]; intros itrack container; simpl.
  - exists []. split; [constructor|]. rewrite app_nil_r. reflexivity.
  - pose proof (fillSourceLinks_spec sourceLinks protoTrack []) as Hfill.
    destruct (fillSourceLinks sourceLinks protoTrack []) as [hitIndex|filled].
    + destruct Hfill as [Hin Hbad]. split; [lia|].
      exists protoTrack. rewrite Nat.sub_diag. repeat split; assumption.
    + destruct Hfill as (found & Hfound & ->). simpl.
      specialize (IH (S itrack) (container ++ [found])).
      destruct (prepareTracks sourceLinks rest (S itrack) (container ++ [found]))
        as [[bad hitIndex]|prepared].
      * destruct IH as (Hle & track & Htrack & Hin & Hbad). split; [lia|].
        exists track. replace (bad - itrack) with (S (bad - S itrack)) by lia.
        repeat split; assumption.
      * destruct IH as (others & Hothers & ->). exists (found :: others).
        split; [constructor; assumption|]. rewrite <- app_assoc. reflexivity.
Qed.

Lemma linksOf_unique (sourceLinks : list SimSourceLink) (protoTrack : list nat)
    (links links' : list SimSourceLink) :
  linksOf sourceLinks protoTrack links → linksOf sourceLinks protoTrack links' →
  links = links'.
Proof.
  intros Hlinks. revert links'.
  induction Hlinks as [|hitIndex link rest links Hhit Hlinks IH]; intros links' Hlinks';
    inversion Hlinks' as [|? link' ? rest' Hhit' Hrest']; subst; [reflexivity|].
  rewrite Hhit in Hhit'. injection Hhit' as <-. f_equal. apply IH, Hrest'.
Qed.

Lemma prepared_unique (sourceLinks : list SimSourceLink) (protoTracks : list (list nat))
    (prepared prepared' : list (list SimSourceLink)) :
  Forall2 (linksOf sourceLinks) protoTracks prepared →
  Forall2 (linksOf sourceLinks) protoTracks prepared' →
  prepared = prepared'.
Proof.
  intros Hp. revert prepared'.
  induction Hp as [|track links rest others Hlinks Hp IH]; intros prepared' Hp';
    inversion Hp' as [|? links' ? others' Hlinks' Hrest']; subst; [reflexivity|].
  f_equal; [exact (linksOf_unique _ _ _ _ Hlinks Hlinks')|apply IH, Hrest'].
Qed.

Lemma linked_hits_are_valid (sourceLinks : list SimSourceLink)
    (protoTracks : list (list nat)) (prepared : list (list SimSourceLink))
    (itrack hitIndex : nat) :
  Forall2 (linksOf sourceLinks) protoTracks prepared →
  ¬ invalidHit sourceLinks protoTracks itrack hitIndex.
Proof.
  intros Hp (track & Htrack & Hin & Hbad).
  destruct (Forall2_lookup_l _ _ _ _ _ Hp Htrack) as (links & _ & Hlinks).
  apply list_elem_of_lookup in Hin as [k Hk].
  destruct (Forall2_lookup_l _ _ _ _ _ Hlinks Hk) as (link & _ & Hlink).
  apply lookup_lt_Some in Hlink. lia.
Qed.

(** X21.  The loop that prepares the input of the alignment ends with
    the track collection exactly when every hit index of every proto
    track names a source link; the collection then has one track for each
    proto track, in order, holding the source links its hit indices name,
    in order.  It ends with a proto track and a hit index only when that
    hit index of that proto track names no source link, and it does so as
    soon as there is one. *)
Theorem prepared_tracks_follow_hit_indices (sourceLinks : list SimSourceLink)
    (protoTracks : list (list nat)) :
  (∀ prepared,
     prepareTracks sourceLinks protoTracks 0 [] = inr prepared ↔
     Forall2 (linksOf sourceLinks) protoTracks prepared) ∧
  (∀ itrack hitIndex,
     prepareTracks sourceLinks protoTracks 0 [] = inl (itrack, hitIndex) →
     invalidHit sourceLinks protoTracks itrack hitIndex) ∧
  ((∃ itrack hitIndex, invalidHit sourceLinks protoTracks itrack hitIndex) →
   ∃ itrack hitIndex,
     prepareTracks sourceLinks protoTracks 0 [] = inl (itrack, hitIndex)).
Proof.
  pose proof (prepareTracks_spec sourceLinks protoTracks 0 []) as Hspec.
  destruct (prepareTracks sourceLinks protoTracks 0 []) as [[bad hit]|prepared].
  - destruct Hspec as [_ Hbad]. rewrite Nat.sub_0_r in Hbad.
    split; [|split].
    + intros prepared. split; [discriminate|]. intros Hp.
      exfalso. exact (linked_hits_are_valid _ _ _ _ _ Hp Hbad).
    + intros itrack hitIndex [= <- <-]. exact Hbad.
    + intros _. exists bad, hit. reflexivity.
  - destruct Hspec as (found & Hfound & ->). simpl.
    split; [|split].
    + intros prepared. split.
      * intros [= <-]. exact Hfound.
      * intros Hp. f_equal. exact (prepared_unique _ _ _ _ Hfound Hp).
    + intros itrack hitIndex Heq. discriminate.
    + intros (itrack & hitIndex & Hbad).
      exfalso. exact (linked_hits_are_valid _ _ _ _ _ Hfound Hbad).
Qed.

(** X22.  [execute] returns [ABORT], without having called the alignment
    function, when the numbers of proto tracks and initial parameters
    differ or when a hit index names no source link.  Otherwise it calls
    the alignment function once, on the prepared tracks, the initial
    parameters and the options made from the configuration, and returns
    [SUCCESS] whenever that call returns, also when the alignment
    reported a failure, which is only logged as a warning. *)
Theorem execute_aborts_or_aligns (cfg : Config X) (kfOptions : FW.FitOptions X)
    (sourceLinks : list SimSourceLink) (protoTracks : list (list nat))
    (initialParameters : list (FW.StartParameters X)) (e : FW.Env X) :
  let run := execute X trackInput cfg kfOptions sourceLinks protoTracks
               initialParameters e in
  (length protoTracks ≠ length initialParameters →
   run = FW.Returns (ABORT, [FatalInconsistentNumber]) e) ∧
  (length protoTracks = length initialParameters →
   (∃ itrack hitIndex, invalidHit sourceLinks protoTracks itrack hitIndex) →
   ∃ itrack hitIndex,
     invalidHit sourceLinks protoTracks itrack hitIndex ∧
     run = FW.Returns (ABORT, [FatalInvalidHitIndex itrack hitIndex]) e) ∧
  (length protoTracks = length initialParameters →
   ∀ prepared, Forall2 (linksOf sourceLinks) protoTracks prepared →
     match align X cfg (trackInput <$> prepared) initialParameters
             (alignOptionsOf X cfg kfOptions) e with
     | FW.Returns result e' =>
         run = FW.Returns
                 (SUCCESS,
                  [DebugInvokeAlignment;
                   match result with
                   | FW.success value =>
                       VerboseAlignmentFinished (FW.deltaChi2 X value)
                   | FW.failure error => WarningAlignmentFailed error
                   end]) e'
     | FW.Abnormal => run = FW.Abnormal
     end).
Proof.
  intros run. unfold run, execute.
  pose proof (prepareTracks_spec sourceLinks protoTracks 0 []) as Hspec.
  split; [|split].
  - intros Hne. apply Nat.eqb_neq in Hne. rewrite Hne. reflexivity.
  - intros Heq (itrack & hitIndex & Hbad). apply Nat.eqb_eq in Heq. rewrite Heq. simpl.
    destruct (prepareTracks sourceLinks protoTracks 0 []) as [[bad hit]|prepared].
    + destruct Hspec as [_ Hfound]. rewrite Nat.sub_0_r in Hfound.
      exists bad, hit. split; [exact Hfound|reflexivity].
    + destruct Hspec as (found & Hfound & _).
      exfalso. exact (linked_hits_are_valid _ _ _ _ _ Hfound Hbad).
  - intros Heq prepared Hp. apply Nat.eqb_eq in Heq. rewrite Heq. simpl.
    destruct (prepareTracks sourceLinks protoTracks 0 []) as [[bad hit]|prepared'].
    + destruct Hspec as [_ Hbad]. rewrite Nat.sub_0_r in Hbad.
      exfalso. exact (linked_hits_are_valid _ _ _ _ _ Hp Hbad).
    + destruct Hspec as (found & Hfound & ->). simpl.
      rewrite (prepared_unique _ _ _ _ Hfound Hp).
      unfold mbind, FW.M_bind.
      destruct (align X cfg _ _ _ e) as [result e'|]; reflexivity.
Qed.

(** X23.  The constructor keeps the configuration exactly when none of
    the four collection names is empty, the name of the output
    trajectories included, which [execute] never writes. *)
Theorem constructor_requires_collection_names (cfg : Config X) :
  (AlignmentAlgorithm X cfg = inr cfg ↔
   empty (inputSourceLinks X cfg) = false ∧
   empty (inputProtoTracks X cfg) = false ∧
   empty (inputInitialTrackParameters X cfg) = false ∧
   empty (outputTrajectories X cfg) = false) ∧
  (∀ kept, AlignmentAlgorithm X cfg = inr kept → kept = cfg).
Proof.
  unfold AlignmentAlgorithm.
  destruct (empty (inputSourceLinks X cfg)), (empty (inputProtoTracks X cfg)),
    (empty (inputInitialTrackParameters X cfg)), (empty (outputTrajectories X cfg));
    (split; [split; [intros Hc; try discriminate Hc; repeat split
                    |intros (H1 & H2 & H3 & H4); try discriminate; reflexivity]
            |intros kept Hk; try discriminate Hk; injection Hk as <-; reflexivity]).
Qed.

End AlgorithmFacts.
